(** * Graph, random generator and BFS/DFS path search of ALG_LAB4.cpp

    A shallow embedding of [src/ALG_LAB4/ALG_LAB4.cpp]: the [Graph] class
    ([add_edge], [get_inc_matrix] and the accessors), [generate_graph],
    [bfs_shortest_path] and [dfs_shortest_path].

    Conventions.
    - A C++ [int] is a [Z].  The only arithmetic on weights is [abs] and unary
      minus; both are given with the two's complement wrap-around
      ([int_abs], [int_neg]), and so are the additions and the subtraction
      on the arguments of [generate_graph] ([int_add], [int_sub]).  The
      counters of the loops stay below an int they are compared with;
      [%] is the remainder of the truncated division ([Z.rem]), undefined
      for a zero divisor.
    - A [std::vector] is a [list]; [operator[]] is unchecked in C++, so an
      index out of bounds is undefined behaviour: [vec_get] and [vec_set]
      answer [Undefined] there.
    - A call has an [outcome]: it returns, an exception propagates, the
      behaviour is undefined, or the model ran out of fuel (loops whose
      number of iterations is not bounded by their text take a fuel). *)

From stdpp Require Import base numbers list strings pretty.
From Stdlib Require Import ZArith Lia.

Local Open Scope Z_scope.

(** ** Outcomes *)

Inductive exn : Type :=
| OutOfRange    (* std::out_of_range, what a checked access would throw *)
| LengthError.  (* std::length_error, a vector built with a negative size *)

Inductive outcome (A : Type) : Type :=
| Returns (a : A)
| Throws (e : exn)
| Undefined
| OutOfFuel.

Arguments Returns {A} a.
Arguments Throws {A} e.
Arguments Undefined {A}.
Arguments OutOfFuel {A}.

Definition bind {A B : Type} (m : outcome A) (k : A -> outcome B) : outcome B :=
  match m with
  | Returns a => k a
  | Throws e => Throws e
  | Undefined => Undefined
  | OutOfFuel => OutOfFuel
  end.

Notation "'let*' x ':=' m 'in' k" := (bind m (fun x => k))
  (at level 10, x pattern, m at level 100, k at level 200).

(** A computation with fuel that never returns, whatever the fuel. *)
Definition diverges {A : Type} (run : nat -> outcome A) : Prop :=
  forall fuel : nat, run fuel = OutOfFuel.

(** ** int *)

Definition INT_MIN : Z := - 2 ^ 31.
Definition INT_MAX : Z := 2 ^ 31 - 1.

Definition wrap32 (x : Z) : Z := (x + 2 ^ 31) mod 2 ^ 32 - 2 ^ 31.

Definition int_abs (x : Z) : Z := wrap32 (Z.abs x).
Definition int_neg (x : Z) : Z := wrap32 (- x).

(** [a + b] and [a - b] on ints: a result outside the range of int wraps
    around, as [abs] and the unary minus above do. *)
Definition int_add (a b : Z) : Z := wrap32 (a + b).
Definition int_sub (a b : Z) : Z := wrap32 (a - b).

(** ** std::vector *)

Definition vec_new {A : Type} (n : Z) (x : A) : outcome (list A) :=
  if n <? 0 then Throws LengthError else Returns (replicate (Z.to_nat n) x).

Definition vec_get {A : Type} (l : list A) (i : Z) : outcome A :=
  if i <? 0 then Undefined
  else match l !! Z.to_nat i with
       | Some x => Returns x
       | None => Undefined
       end.

Definition vec_set {A : Type} (l : list A) (i : Z) (x : A) : outcome (list A) :=
  if (0 <=? i) && (i <? Z.of_nat (length l))
  then Returns (<[Z.to_nat i := x]> l)
  else Undefined.

(** [m[u][v]] and [m[u][v] = x] on a vector of vectors. *)
Definition mat_get (m : list (list Z)) (u v : Z) : outcome Z :=
  let* row := vec_get m u in vec_get row v.

Definition mat_set (m : list (list Z)) (u v x : Z) : outcome (list (list Z)) :=
  let* row := vec_get m u in
  let* row' := vec_set row v x in
  vec_set m u row'.

(** Total readers, used in statements only: the element when the index is
    in bounds, the default otherwise. *)
Definition rd (l : list Z) (i : Z) : Z :=
  match vec_get l i with Returns x => x | _ => 0 end.

Definition entry (m : list (list Z)) (u v : Z) : Z :=
  match mat_get m u v with Returns x => x | _ => 0 end.

(** [for (int i = lo; i < lo + n; i++) body] over a state [S]. *)
Fixpoint for_loop {St : Type} (n : nat) (i : Z) (body : Z -> St -> outcome St) (s : St)
  : outcome St :=
  match n with
  | O => Returns s
  | S n' => let* s' := body i s in for_loop n' (i + 1) body s'
  end.

(** ** class Graph *)

Record Graph : Type := mkGraph {
  vertices_ : Z;
  directed_ : bool;
  adj_matrix_ : list (list Z);
  adj_list_ : list (list (Z * Z));
  edges_ : list (Z * Z);
  inc_matrix_ : list (list Z)
}.

(** [Graph::Graph(int vertices, bool directed)] *)
Definition Graph_new (vertices : Z) (directed : bool) : outcome Graph :=
  let* row := vec_new vertices 0 in
  let* adj := vec_new vertices row in
  let* al := vec_new vertices ([] : list (Z * Z)) in
  Returns {| vertices_ := vertices; directed_ := directed;
             adj_matrix_ := adj; adj_list_ := al;
             edges_ := []; inc_matrix_ := [] |}.

(** [void Graph::add_edge(int u, int v, int weight)] *)
Definition add_edge (g : Graph) (u v weight : Z) : outcome Graph :=
  let* adj1 := mat_set (adj_matrix_ g) u v weight in
  let* lu := vec_get (adj_list_ g) u in
  let* al := vec_set (adj_list_ g) u (lu ++ [(v, weight)]) in
  let edges := edges_ g ++ [(u, v)] in
  let* adj2 :=
    if directed_ g then mat_set adj1 u v weight
    else (let* a := mat_set adj1 v u weight in mat_set a u v weight) in
  Returns {| vertices_ := vertices_ g; directed_ := directed_ g;
             adj_matrix_ := adj2; adj_list_ := al;
             edges_ := edges; inc_matrix_ := inc_matrix_ g |}.

Definition get_adj_matrix (g : Graph) : list (list Z) := adj_matrix_ g.
Definition get_adj_list (g : Graph) : list (list (Z * Z)) := adj_list_ g.
Definition get_edges (g : Graph) : list (Z * Z) := edges_ g.

(** The body of the loop of [get_inc_matrix], for edge index [i]. *)
Definition inc_column (g : Graph) (i : Z) (inc : list (list Z))
  : outcome (list (list Z)) :=
  let* e := vec_get (edges_ g) i in
  let u := e.1 in
  let v := e.2 in
  let* a := mat_get (adj_matrix_ g) u v in
  let weight := int_abs a in
  let* inc1 := mat_set inc u i weight in
  mat_set inc1 v i (if directed_ g then int_neg weight else weight).

(** [vector<vector<int>> Graph::get_inc_matrix()]: the graph afterwards
    (the cache [inc_matrix_] is a member) and the matrix returned. *)
Definition get_inc_matrix (g : Graph) : outcome (Graph * list (list Z)) :=
  match inc_matrix_ g with
  | [] =>
      let* row := vec_new (Z.of_nat (length (edges_ g))) 0 in
      let* inc0 := vec_new (vertices_ g) row in
      let* inc := for_loop (length (edges_ g)) 0 (inc_column g) inc0 in
      Returns ({| vertices_ := vertices_ g; directed_ := directed_ g;
                  adj_matrix_ := adj_matrix_ g; adj_list_ := adj_list_ g;
                  edges_ := edges_ g; inc_matrix_ := inc |}, inc)
  | _ :: _ => Returns (g, inc_matrix_ g)
  end.

(** A sequence of [add_edge] calls. *)
Fixpoint add_edges (g : Graph) (es : list (Z * Z * Z)) : outcome Graph :=
  match es with
  | [] => Returns g
  | (u, v, w) :: es' => let* g' := add_edge g u v w in add_edges g' es'
  end.

(** [for (int i = lo; i < lo + n; i++) body], where the body may [break]:
    it answers the state and whether it broke out. *)
Fixpoint for_loop_break {St : Type} (n : nat) (i : Z)
    (body : Z -> St -> outcome (St * bool)) (s : St) : outcome St :=
  match n with
  | O => Returns s
  | S n' =>
      let* r := body i s in
      if r.2 then Returns r.1 else for_loop_break n' (i + 1) body r.1
  end.

(** ** bfs_shortest_path and dfs_shortest_path *)

(** The locals of both searches: [visited], [parent] and the frontier,
    the queue [q] of BFS (front first) or the stack [s] of DFS (top first). *)
Record search : Type := mkSearch {
  visited : list Z;
  parent : list Z;
  frontier : list Z
}.

(** The body of the inner loop of BFS for the column [v], [u] being the
    vertex popped.  [visited[v]] is read only when the entry is not 0. *)
Definition bfs_visit (g : Graph) (u v : Z) (st : search) : outcome search :=
  let* a := mat_get (get_adj_matrix g) u v in
  if a =? 0 then Returns st
  else
    let* vis := vec_get (visited st) v in
    if vis =? 0 then
      let* visited' := vec_set (visited st) v 1 in
      let* parent' := vec_set (parent st) v u in
      Returns {| visited := visited'; parent := parent';
                 frontier := frontier st ++ [v] |}
    else Returns st.

(** [while (!q.empty())] of BFS. *)
Fixpoint bfs_loop (fuel : nat) (g : Graph) (num_vertices : Z) (st : search)
  : outcome search :=
  match fuel with
  | O => OutOfFuel
  | S fuel' =>
      match frontier st with
      | [] => Returns st
      | u :: q =>
          let* st' := for_loop (Z.to_nat num_vertices) 0 (bfs_visit g u)
                        {| visited := visited st; parent := parent st; frontier := q |} in
          bfs_loop fuel' g num_vertices st'
      end
  end.

(** [while (u != -1) { path.push_back(u); u = parent[u]; }] *)
Fixpoint build_path (fuel : nat) (parent : list Z) (u : Z) (path : list Z)
  : outcome (list Z) :=
  match fuel with
  | O => OutOfFuel
  | S fuel' =>
      if u =? -1 then Returns path
      else let* p := vec_get parent u in build_path fuel' parent p (path ++ [u])
  end.

(** The end of both searches: [if (visited[target]) { ... reverse ... }
    else return vector<int>()]. *)
Definition reconstruct (fuel : nat) (st : search) (target : Z) : outcome (list Z) :=
  let* vt := vec_get (visited st) target in
  if vt =? 0 then Returns []
  else
    let* path := build_path fuel (parent st) target [] in
    Returns (rev path).

(** [vector<int> bfs_shortest_path(Graph g, int source, int target)] *)
Definition bfs_shortest_path (fuel : nat) (g : Graph) (source target : Z)
  : outcome (list Z) :=
  let num_vertices := Z.of_nat (length (get_adj_matrix g)) in
  let* visited0 := vec_new num_vertices 0 in
  let* parent0 := vec_new num_vertices (-1) in
  let q := [source] in
  let* visited1 := vec_set visited0 source 1 in
  let* st := bfs_loop fuel g num_vertices
               {| visited := visited1; parent := parent0; frontier := q |} in
  reconstruct fuel st target.

(** The body of the inner loop of DFS for the column [v]: it breaks out
    once it has pushed [target]. *)
Definition dfs_visit (g : Graph) (u target v : Z) (st : search)
  : outcome (search * bool) :=
  let* a := mat_get (get_adj_matrix g) u v in
  if a =? 0 then Returns (st, false)
  else
    let* vis := vec_get (visited st) v in
    if vis =? 0 then
      let* visited' := vec_set (visited st) v 1 in
      let* parent' := vec_set (parent st) v u in
      Returns ({| visited := visited'; parent := parent';
                  frontier := v :: frontier st |}, v =? target)
    else Returns (st, false).

(** [while (!s.empty())] of DFS. *)
Fixpoint dfs_loop (fuel : nat) (g : Graph) (num_vertices target : Z) (st : search)
  : outcome search :=
  match fuel with
  | O => OutOfFuel
  | S fuel' =>
      match frontier st with
      | [] => Returns st
      | u :: s =>
          let* st' := for_loop_break (Z.to_nat num_vertices) 0 (dfs_visit g u target)
                        {| visited := visited st; parent := parent st; frontier := s |} in
          dfs_loop fuel' g num_vertices target st'
      end
  end.

(** [vector<int> dfs_shortest_path(Graph g, int source, int target)] *)
Definition dfs_shortest_path (fuel : nat) (g : Graph) (source target : Z)
  : outcome (list Z) :=
  let num_vertices := Z.of_nat (length (get_adj_matrix g)) in
  let* visited0 := vec_new num_vertices 0 in
  let* parent0 := vec_new num_vertices (-1) in
  let s := [source] in
  let* visited1 := vec_set visited0 source 1 in
  let* st := dfs_loop fuel g num_vertices target
               {| visited := visited1; parent := parent0; frontier := s |} in
  reconstruct fuel st target.

(** ** generate_graph *)

(** [a % b] on ints: the remainder of the truncated division; undefined
    for [b = 0]. *)
Definition int_rem (a b : Z) : outcome Z :=
  if b =? 0 then Undefined else Returns (Z.rem a b).

(** [x[i]++] *)
Definition vec_incr (l : list Z) (i : Z) : outcome (list Z) :=
  let* x := vec_get l i in vec_set l i (x + 1).

(** The locals of [generate_graph] that its loop changes; [calls] counts
    the calls of [rand()] made so far.  The values [rand()] returns after
    [srand(time(0))] are a stream [rand : nat -> Z], the argument of the
    model. *)
Record gen : Type := mkGen {
  gen_g : Graph;
  num_edges : Z;
  edges_per_vertex : list Z;
  incoming_edges_per_vertex : list Z;
  outgoing_edges_per_vertex : list Z;
  calls : nat
}.

(** [directed && (incoming_edges_per_vertex[v] >= max_incoming_edges ||
    outgoing_edges_per_vertex[u] >= max_outgoing_edges)] *)
Definition degree_capped (directed : bool) (max_incoming_edges max_outgoing_edges : Z)
    (st : gen) (u v : Z) : outcome bool :=
  if directed then
    let* iv := vec_get (incoming_edges_per_vertex st) v in
    if max_incoming_edges <=? iv then Returns true
    else
      let* ou := vec_get (outgoing_edges_per_vertex st) u in
      Returns (max_outgoing_edges <=? ou)
  else Returns false.

(** The body of the [while] loop of [generate_graph]: the state after it
    and whether it left the loop by [break]. *)
Definition gen_step (rand : nat -> Z) (directed : bool)
    (max_incoming_edges max_outgoing_edges num_vertices max_possible_edges_per_vertex : Z)
    (st : gen) : outcome (gen * bool) :=
  let* u := int_rem (rand (calls st)) num_vertices in
  let* v := int_rem (rand (S (calls st))) num_vertices in
  let st := {| gen_g := gen_g st; num_edges := num_edges st;
               edges_per_vertex := edges_per_vertex st;
               incoming_edges_per_vertex := incoming_edges_per_vertex st;
               outgoing_edges_per_vertex := outgoing_edges_per_vertex st;
               calls := S (S (calls st)) |} in
  if u =? v then Returns (st, false)
  else
    let* eu := vec_get (edges_per_vertex st) u in
    if max_possible_edges_per_vertex <=? eu then Returns (st, false)
    else
      let* ev := vec_get (edges_per_vertex st) v in
      if max_possible_edges_per_vertex <=? ev then Returns (st, false)
      else
        let* capped := degree_capped directed max_incoming_edges max_outgoing_edges st u v in
        if capped then Returns (st, false)
        else
          let* a := mat_get (get_adj_matrix (gen_g st)) u v in
          if negb (a =? 0) then Returns (st, false)
          else
            let weight := Z.rem (rand (calls st)) 100 + 1 in
            let* g' := add_edge (gen_g st) u v weight in
            let num_edges' := num_edges st - 1 in
            let* epv1 := vec_incr (edges_per_vertex st) u in
            let* epv2 := vec_incr epv1 v in
            let* inc' :=
              if directed then vec_incr (incoming_edges_per_vertex st) v
              else Returns (incoming_edges_per_vertex st) in
            let* out' :=
              if directed then vec_incr (outgoing_edges_per_vertex st) u
              else Returns (outgoing_edges_per_vertex st) in
            Returns ({| gen_g := g'; num_edges := num_edges';
                        edges_per_vertex := epv2;
                        incoming_edges_per_vertex := inc';
                        outgoing_edges_per_vertex := out';
                        calls := S (calls st) |},
                     num_edges' =? 0).

(** [while (num_edges > 0) { ... }] *)
Fixpoint gen_loop (fuel : nat) (rand : nat -> Z) (directed : bool)
    (max_incoming_edges max_outgoing_edges num_vertices max_possible_edges_per_vertex : Z)
    (st : gen) : outcome gen :=
  match fuel with
  | O => OutOfFuel
  | S fuel' =>
      if 0 <? num_edges st then
        let* r := gen_step rand directed max_incoming_edges max_outgoing_edges
                    num_vertices max_possible_edges_per_vertex st in
        if r.2 then Returns r.1
        else gen_loop fuel' rand directed max_incoming_edges max_outgoing_edges
               num_vertices max_possible_edges_per_vertex r.1
      else Returns st
  end.

(** [r % (hi - lo + 1) + lo] on ints, [r] being the value of a call of
    [rand()]: the expression that draws [num_vertices] and [num_edges].
    Each of the two additions and the subtraction is an int operation;
    the remainder is undefined when [hi - lo + 1] is 0. *)
Definition rand_between (r lo hi : Z) : outcome Z :=
  let* x := int_rem r (int_add (int_sub hi lo) 1) in
  Returns (int_add x lo).

(** [Graph generate_graph(int min_vertices, int max_vertices, int min_edges,
    int max_edges, int max_edges_per_vertex, bool directed,
    int max_incoming_edges, int max_outgoing_edges)].
    The graph is built by [Graph g(num_vertices)]: the second argument of
    the constructor takes its default, [false].  The local
    [max_possible_edges] is never read and is left out. *)
Definition generate_graph (fuel : nat) (rand : nat -> Z)
    (min_vertices max_vertices min_edges max_edges max_edges_per_vertex : Z)
    (directed : bool) (max_incoming_edges max_outgoing_edges : Z) : outcome Graph :=
  let* num_vertices := rand_between (rand 0%nat) min_vertices max_vertices in
  let* g := Graph_new num_vertices false in
  let max_possible_edges_per_vertex := int_sub num_vertices 1 in
  let* num_edges0 := rand_between (rand 1%nat) min_edges max_edges in
  let* edges_per_vertex0 := vec_new num_vertices 0 in
  let* incoming0 := vec_new num_vertices 0 in
  let* outgoing0 := vec_new num_vertices 0 in
  let* st := gen_loop fuel rand directed max_incoming_edges max_outgoing_edges
               num_vertices max_possible_edges_per_vertex
               {| gen_g := g; num_edges := num_edges0;
                  edges_per_vertex := edges_per_vertex0;
                  incoming_edges_per_vertex := incoming0;
                  outgoing_edges_per_vertex := outgoing0;
                  calls := 2 |} in
  Returns (gen_g st).

(** ** The print functions of Graph

    Each is modelled by the text it writes to [cout]; an [int] is written
    in decimal ([pretty]), [endl] as a line feed. *)

Definition endl : string := String (Ascii.ascii_of_nat 10) EmptyString.

(** ["  "] and [for (int i = 0; i < vertices_; i++) { cout << "V" << i << " "; }],
    the head line of both matrices. *)
Definition print_head (g : Graph) : outcome string :=
  for_loop (Z.to_nat (vertices_ g)) 0
    (fun i out => Returns (out +:+ "V" +:+ pretty i +:+ " ")) "  ".

(** The bodies of the two nested loops of [print_adj_matrix]. *)
Definition adj_matrix_cell (g : Graph) (i j : Z) (out : string) : outcome string :=
  let* a := mat_get (adj_matrix_ g) i j in
  if 0 <? a then Returns (out +:+ pretty 1 +:+ "  ")
  else Returns (out +:+ pretty 0 +:+ "  ").

Definition adj_matrix_row (g : Graph) (i : Z) (out : string) : outcome string :=
  let out := out +:+ "V" +:+ pretty i +:+ " " in
  let* out := for_loop (Z.to_nat (vertices_ g)) 0 (adj_matrix_cell g i) out in
  Returns (out +:+ endl).

(** [void Graph::print_adj_matrix() const] *)
Definition print_adj_matrix (g : Graph) : outcome string :=
  let* out := print_head g in
  let out := out +:+ endl in
  let* out := for_loop (Z.to_nat (vertices_ g)) 0 (adj_matrix_row g) out in
  Returns (out +:+ endl).

(** The body of the inner loop of [print_inc_matrix] for the pair
    [(i, j)], on the local matrix and [edge_idx]. *)
Definition inc_scan_cell (g : Graph) (i j : Z) (st : list (list Z) * Z)
  : outcome (list (list Z) * Z) :=
  let* a := mat_get (adj_matrix_ g) i j in
  if a =? 0 then Returns st
  else
    let* m1 := mat_set st.1 st.2 i a in
    let* m2 := mat_set m1 st.2 j (int_neg a) in
    Returns (m2, st.2 + 1).

(** [for (int j = i + 1; j < vertices_; j++)] *)
Definition inc_scan_row (g : Graph) (i : Z) (st : list (list Z) * Z)
  : outcome (list (list Z) * Z) :=
  for_loop (Z.to_nat (vertices_ g - (i + 1))) (i + 1) (inc_scan_cell g i) st.

(** The local [inc_matrix] of [print_inc_matrix] after its two nested
    loops: a row per edge, a column per vertex. *)
Definition print_inc_scan (g : Graph) : outcome (list (list Z)) :=
  let* row := vec_new (vertices_ g) 0 in
  let* inc := vec_new (Z.of_nat (length (edges_ g))) row in
  let* r := for_loop (Z.to_nat (vertices_ g)) 0 (inc_scan_row g) (inc, 0) in
  Returns r.1.

(** The bodies of the two nested loops that write the local matrix. *)
Definition inc_text_cell (inc : list (list Z)) (i j : Z) (out : string) : outcome string :=
  let* x := mat_get inc i j in
  if x =? 0 then Returns (out +:+ pretty 0 +:+ "  ")
  else Returns (out +:+ pretty 1 +:+ "  ").

Definition inc_text_row (g : Graph) (inc : list (list Z)) (i : Z) (out : string)
  : outcome string :=
  let out := out +:+ "E" +:+ pretty i +:+ " " in
  let* out := for_loop (Z.to_nat (vertices_ g)) 0 (inc_text_cell inc i) out in
  Returns (out +:+ endl).

(** [void Graph::print_inc_matrix() const] *)
Definition print_inc_matrix (g : Graph) : outcome string :=
  let* inc := print_inc_scan g in
  let* out := print_head g in
  let out := out +:+ endl in
  let* out := for_loop (length (edges_ g)) 0 (inc_text_row g inc) out in
  Returns (out +:+ endl).

(** The bodies of the two nested loops of [print_adj_list]. *)
Definition adj_list_cell (g : Graph) (i j : Z) (out : string) : outcome string :=
  let* a := mat_get (adj_matrix_ g) i j in
  if a =? 0 then Returns out
  else Returns (out +:+ pretty j +:+ "(" +:+ pretty a +:+ ") ").

Definition adj_list_row (g : Graph) (i : Z) (out : string) : outcome string :=
  let out := out +:+ pretty i +:+ ": " in
  let* out := for_loop (Z.to_nat (vertices_ g)) 0 (adj_list_cell g i) out in
  Returns (out +:+ endl).

(** [void Graph::print_adj_list() const]: it reads the adjacency matrix,
    not [adj_list_]. *)
Definition print_adj_list (g : Graph) : outcome string :=
  let* out := for_loop (Z.to_nat (vertices_ g)) 0 (adj_list_row g) "" in
  Returns (out +:+ endl).

(** ** Specification vocabulary for the Graph class *)

(** A matrix of [n] rows, each of [k] columns. *)
Definition shape (n k : Z) (m : list (list Z)) : Prop :=
  Z.of_nat (length m) = n /\ Forall (fun row => Z.of_nat (length row) = k) m.

Definition in_range (g : Graph) (u : Z) : Prop := 0 <= u < vertices_ g.

(** What the constructor establishes and [add_edge] keeps. *)
Record wf_graph (g : Graph) : Prop := {
  wf_vertices : 0 <= vertices_ g;
  wf_adj : shape (vertices_ g) (vertices_ g) (adj_matrix_ g);
  wf_adj_list : Z.of_nat (length (adj_list_ g)) = vertices_ g;
  wf_edges : Forall (fun e => in_range g e.1 /\ in_range g e.2) (edges_ g)
}.

Definition symmetric (m : list (list Z)) : Prop :=
  forall a b, entry m a b = entry m b a.


(** What the loop of [get_inc_matrix] leaves in row [r] of the column of
    edge [i]: the write to row [v] comes second and wins when [u = v]. *)
Definition inc_entry (g : Graph) (r i : Z) : Z :=
  match vec_get (edges_ g) i with
  | Returns (u, v) =>
      let w := int_abs (entry (adj_matrix_ g) u v) in
      if decide (r = v) then (if directed_ g then int_neg w else w)
      else if decide (r = u) then w else 0
  | _ => 0
  end.

(** The incidence matrix as the specification words it: for the edge
    [(u, v)] of index [i], row [u] holds [w], row [v] holds [-w] or [w],
    every other row holds 0. *)
Definition spec_inc_matrix (g : Graph) (m : list (list Z)) : Prop :=
  shape (vertices_ g) (Z.of_nat (length (edges_ g))) m /\
  forall i u v, vec_get (edges_ g) i = Returns (u, v) ->
    let w := int_abs (entry (adj_matrix_ g) u v) in
    entry m u i = w /\
    entry m v i = (if directed_ g then int_neg w else w) /\
    forall r, r <> u -> r <> v -> entry m r i = 0.

(** Calls a client makes on a graph. *)
Inductive call : Type :=
| AddEdge (u v w : Z)
| GetIncMatrix.

Definition run_call (g : Graph) (c : call) : outcome Graph :=
  match c with
  | AddEdge u v w => add_edge g u v w
  | GetIncMatrix => let* r := get_inc_matrix g in Returns r.1
  end.

Fixpoint run_calls (g : Graph) (cs : list call) : outcome Graph :=
  match cs with
  | [] => Returns g
  | c :: cs' => let* g' := run_call g c in run_calls g' cs'
  end.

(** The loop invariant of [get_inc_matrix] before edge [i]: the columns
    below [i] are filled, the others still hold zeros. *)
Definition inc_inv (g : Graph) (i : Z) (inc : list (list Z)) : Prop :=
  shape (vertices_ g) (Z.of_nat (length (edges_ g))) inc /\
  forall r j, entry inc r j = if decide (0 <= j < i) then inc_entry g r j else 0.

(** The cache of a graph holds [m] for good: a non-empty [inc_matrix_] is
    never rebuilt, and an empty one belongs to a graph without vertices. *)
Definition cached (m : list (list Z)) (g : Graph) : Prop :=
  wf_graph g /\ inc_matrix_ g = m /\ (m = [] -> vertices_ g = 0).

(** Two graphs that differ at most in the weight stored for the pair
    [(u, v)] (and [(v, u)] when undirected) and in their adjacency lists. *)
Definition same_but (u v : Z) (g g' : Graph) : Prop :=
  wf_graph g /\ wf_graph g' /\
  vertices_ g' = vertices_ g /\ directed_ g' = directed_ g /\
  edges_ g' = edges_ g /\ inc_matrix_ g' = inc_matrix_ g /\
  forall a b, ~ ((a = u /\ b = v) \/ (directed_ g = false /\ a = v /\ b = u)) ->
    entry (adj_matrix_ g') a b = entry (adj_matrix_ g) a b.

(** The pair recorded in [edges_] by the call [add_edge(u, v, w)]. *)
Definition edge_of (c : Z * Z * Z) : Z * Z := (c.1.1, c.1.2).

(** ** Graphs used as examples *)

(** Three vertices, undirected, edges (0,1) of weight 2 and (1,2) of weight 3. *)
Definition scenario_graph : Graph :=
  {| vertices_ := 3; directed_ := false;
     adj_matrix_ := [[0; 2; 0]; [2; 0; 3]; [0; 3; 0]];
     adj_list_ := [[(1, 2)]; [(2, 3)]; []];
     edges_ := [(0, 1); (1, 2)];
     inc_matrix_ := [] |}.

(** One vertex, directed, with the self-loop (0,0) of weight 5. *)
Definition loop_graph : Graph :=
  {| vertices_ := 1; directed_ := true;
     adj_matrix_ := [[5]];
     adj_list_ := [[(0, 5)]];
     edges_ := [(0, 0)];
     inc_matrix_ := [] |}.

(** Two vertices, directed, no edge. *)
Definition empty2_directed : Graph :=
  {| vertices_ := 2; directed_ := true;
     adj_matrix_ := [[0; 0]; [0; 0]];
     adj_list_ := [[]; []];
     edges_ := [];
     inc_matrix_ := [] |}.

Definition stale_calls : list call := [AddEdge 0 2 7; GetIncMatrix; AddEdge 2 0 1].

(** [scenario_graph] after its first [get_inc_matrix], and after
    [stale_calls] on top of that. *)
Definition scenario_cached : Graph :=
  Eval cbv in
    match get_inc_matrix scenario_graph with
    | Returns r => r.1
    | _ => scenario_graph
    end.

Definition scenario_later : Graph :=
  Eval cbv in
    match run_calls scenario_cached stale_calls with
    | Returns g => g
    | _ => scenario_graph
    end.

(** [empty2_directed] after add_edge(0,1,4), after add_edge(1,0,3) on top,
    and after add_edge(0,1,9) on top. *)
Definition twice_g1 : Graph :=
  Eval cbv in
    match add_edge empty2_directed 0 1 4 with Returns g => g | _ => empty2_directed end.

Definition twice_g2 : Graph :=
  Eval cbv in
    match add_edges twice_g1 [(1, 0, 3)] with Returns g => g | _ => empty2_directed end.

Definition twice_g3 : Graph :=
  Eval cbv in
    match add_edge twice_g2 0 1 9 with Returns g => g | _ => empty2_directed end.

(** Four vertices, undirected, edges (0,1,5), (1,2,3), (0,2,1), (2,3,4). *)
Definition square_graph : Graph :=
  Eval cbv in
    match (let* g0 := Graph_new 4 false in
           add_edges g0 [(0, 1, 5); (1, 2, 3); (0, 2, 1); (2, 3, 4)]) with
    | Returns g => g
    | _ => scenario_graph
    end.

(** Five vertices, undirected, edges 0-1, 0-2, 2-3, 1-4, 3-4. *)
Definition pentagon_graph : Graph :=
  Eval cbv in
    match (let* g0 := Graph_new 5 false in
           add_edges g0 [(0, 1, 1); (0, 2, 1); (2, 3, 1); (1, 4, 1); (3, 4, 1)]) with
    | Returns g => g
    | _ => scenario_graph
    end.

(** ** Specification vocabulary for the searches *)

(** [x -> y] is an edge: the entry [x][y] of the adjacency matrix is not 0. *)
Definition edge (g : Graph) (x y : Z) : Prop := entry (adj_matrix_ g) x y <> 0.

(** Each consecutive pair of [p] is connected by a non-zero entry. *)
Fixpoint chain (g : Graph) (p : list Z) : bool :=
  match p with
  | [] => true
  | x :: tl =>
      match tl with
      | [] => true
      | y :: _ => negb (entry (adj_matrix_ g) x y =? 0) && chain g tl
      end
  end.

Definition is_path (g : Graph) (s t : Z) (p : list Z) : Prop :=
  head p = Some s /\ last p = Some t /\ chain g p = true.

Definition reachable (g : Graph) (s t : Z) : Prop := exists p, is_path g s t p.

(** The number of vertices not visited yet. *)
Fixpoint zeros (l : list Z) : nat :=
  match l with
  | [] => O
  | x :: l' => ((if Z.eqb x 0 then 1 else 0) + zeros l')%nat
  end.

(** The depth [d] of a vertex in the tree of parent links is a ghost. *)
Definition upd (d : Z -> nat) (v : Z) (k : nat) : Z -> nat :=
  fun x => if decide (x = v) then k else d x.

(** What both searches keep about [visited], [parent] and the frontier:
    the parent links of the visited vertices form a tree rooted at the
    source, along edges of the graph. *)
Record tree_inv (g : Graph) (s : Z) (st : search) (d : Z -> nat) : Prop := {
  ti_visited_len : Z.of_nat (length (visited st)) = vertices_ g;
  ti_parent_len : Z.of_nat (length (parent st)) = vertices_ g;
  ti_source_range : in_range g s;
  ti_source_visited : rd (visited st) s <> 0;
  ti_source_parent : rd (parent st) s = -1;
  ti_source_depth : d s = O;
  ti_parent : forall x, rd (visited st) x <> 0 -> x <> s ->
    rd (visited st) (rd (parent st) x) <> 0 /\
    edge g (rd (parent st) x) x /\
    d x = S (d (rd (parent st) x));
  ti_depth : forall x, rd (visited st) x <> 0 ->
    (d x + zeros (visited st) < Z.to_nat (vertices_ g))%nat;
  ti_frontier : forall x, x ∈ frontier st -> rd (visited st) x <> 0
}.

(** The frontier of BFS holds vertices of depth [L], then of depth [L + 1]. *)
Definition levels (d : Z -> nat) (L : nat) (q : list Z) : Prop :=
  exists A B, q = A ++ B /\ (forall x, x ∈ A -> d x = L) /\ (forall x, x ∈ B -> d x = S L).

(** Every neighbour of [x] is visited, at most one level deeper. *)
Definition closed_at (g : Graph) (st : search) (d : Z -> nat) (x : Z) : Prop :=
  forall y, edge g x y -> rd (visited st) y <> 0 /\ (d y <= S (d x))%nat.

(** The invariant of the outer loop of BFS. *)
Definition bfs_inv (g : Graph) (s : Z) (st : search) : Prop :=
  exists d L,
    tree_inv g s st d /\ levels d L (frontier st) /\
    (forall x, rd (visited st) x <> 0 -> (d x <= S L)%nat) /\
    (forall x, rd (visited st) x <> 0 -> x ∉ frontier st -> closed_at g st d x).

(** The invariant of the inner loop of BFS before column [i], [u] being
    the vertex popped; [M] is what remains to do. *)
Definition bfs_scan_inv (g : Graph) (s u : Z) (M : nat) (i : Z) (st : search) : Prop :=
  exists d,
    tree_inv g s st d /\ rd (visited st) u <> 0 /\ levels d (d u) (frontier st) /\
    (forall x, rd (visited st) x <> 0 -> (d x <= S (d u))%nat) /\
    (forall x, rd (visited st) x <> 0 -> x ∉ frontier st -> x <> u -> closed_at g st d x) /\
    (forall y, 0 <= y < i -> edge g u y ->
       rd (visited st) y <> 0 /\ (d y <= S (d u))%nat) /\
    (zeros (visited st) + length (frontier st) = M)%nat.

(** Every neighbour of every vertex already popped is visited. *)
Definition explored (g : Graph) (st : search) (skip : Z -> Prop) : Prop :=
  forall x, rd (visited st) x <> 0 -> x ∉ frontier st -> ~ skip x ->
    forall y, edge g x y -> rd (visited st) y <> 0.

(** The invariant of the outer loop of DFS: nothing was skipped unless
    the target is visited. *)
Definition dfs_inv (g : Graph) (s t : Z) (st : search) : Prop :=
  exists d, tree_inv g s st d /\
    (rd (visited st) t <> 0 \/ explored g st (fun _ => False)).

(** The invariant of the inner loop of DFS before column [i]. *)
Definition dfs_scan_inv (g : Graph) (s t u : Z) (M : nat) (i : Z) (st : search) : Prop :=
  exists d,
    tree_inv g s st d /\ rd (visited st) u <> 0 /\
    (rd (visited st) t <> 0 \/
     (explored g st (fun x => x = u) /\
      forall y, 0 <= y < i -> edge g u y -> rd (visited st) y <> 0)) /\
    (zeros (visited st) + length (frontier st) = M)%nat.

(** What holds when the inner loop of DFS breaks out. *)
Definition dfs_found (g : Graph) (s t : Z) (M : nat) (st : search) : Prop :=
  exists d,
    tree_inv g s st d /\ rd (visited st) t <> 0 /\
    (zeros (visited st) + length (frontier st) = M)%nat.

(** ** Specification vocabulary for the generator *)

Fixpoint sumZ (l : list Z) : Z :=
  match l with
  | [] => 0
  | x :: l' => x + sumZ l'
  end.

(** What the loop of [generate_graph] keeps, [N] being the vertex count
    and [E] the number of edges to place. *)
Record gen_inv (N E : Z) (st : gen) : Prop := {
  gi_wf : wf_graph (gen_g st);
  gi_vertices : vertices_ (gen_g st) = N;
  gi_len : Z.of_nat (length (edges_per_vertex st)) = N;
  gi_len_in : Z.of_nat (length (incoming_edges_per_vertex st)) = N;
  gi_len_out : Z.of_nat (length (outgoing_edges_per_vertex st)) = N;
  gi_cap : Forall (fun x => x <= N - 1) (edges_per_vertex st);
  gi_sum : sumZ (edges_per_vertex st) + 2 * num_edges st = 2 * E
}.

(** A stream of [rand()] values: 0, 0, 0, 1, 41, 0, 0, ... *)
Definition rand_example (k : nat) : Z := nth k [0; 0; 0; 1; 41] 0.

(** A stream of [rand()] values that proposes the pairs (0,1), (1,0), (1,2). *)
Definition rand_both_ways (k : nat) : Z := nth k [0; 0; 0; 1; 41; 1; 0; 1; 2; 7] 0.

(** ** Further vocabulary for the Graph class *)

(** What the calls [add_edge(x, v, w)] among [es] append to the adjacency
    list of [x], in the order of the calls. *)
Fixpoint calls_from (x : Z) (es : list (Z * Z * Z)) : list (Z * Z) :=
  match es with
  | [] => []
  | (u, v, w) :: es' =>
      if u =? x then (v, w) :: calls_from x es' else calls_from x es'
  end.

(** ** Further vocabulary for the searches *)

(** Two adjacency matrices of one shape with zeros at the same places. *)
Definition same_pattern (m m' : list (list Z)) : Prop :=
  Forall2 (Forall2 (fun a b => (a =? 0) = (b =? 0))) m m'.

(** [square_graph] with every weight 1. *)
Definition square_graph_unit : Graph :=
  Eval cbv in
    match (let* g0 := Graph_new 4 false in
           add_edges g0 [(0, 1, 1); (1, 2, 1); (0, 2, 1); (2, 3, 1)]) with
    | Returns g => g
    | _ => scenario_graph
    end.

(** ** Further vocabulary for the generator *)

(** What the graph of [generate_graph] is at every moment: undirected,
    without self-loops and without two edges between the same two vertices,
    with weights between 1 and 100, the adjacency matrix and the edge list
    telling the same. *)
Record simple_graph (g : Graph) : Prop := {
  sg_wf : wf_graph g;
  sg_undirected : directed_ g = false;
  sg_sym : symmetric (adj_matrix_ g);
  sg_weights : forall a b, 0 <= entry (adj_matrix_ g) a b <= 100;
  sg_edges : forall u v, (u, v) ∈ edges_ g -> u <> v /\ entry (adj_matrix_ g) u v <> 0;
  sg_matrix : forall a b, entry (adj_matrix_ g) a b <> 0 ->
    (a, b) ∈ edges_ g \/ (b, a) ∈ edges_ g;
  sg_nodup : NoDup (edges_ g);
  sg_noflip : forall u v, (u, v) ∈ edges_ g -> (v, u) ∉ edges_ g
}.

(** The number of edges of [es] that end in [x], and that start in [x]. *)
Definition count_in (x : Z) (es : list (Z * Z)) : Z :=
  Z.of_nat (length (filter (fun e => e.2 = x) es)).

Definition count_out (x : Z) (es : list (Z * Z)) : Z :=
  Z.of_nat (length (filter (fun e => e.1 = x) es)).

(** What the loop of [generate_graph] keeps when it runs with
    [directed = true]: the two counters of a vertex are the numbers of
    edges placed that end and that start in it, within the caps. *)
Record gen_caps (mi mo : Z) (st : gen) : Prop := {
  gc_wf : wf_graph (gen_g st);
  gc_in : forall x, in_range (gen_g st) x ->
    rd (incoming_edges_per_vertex st) x = count_in x (edges_ (gen_g st));
  gc_out : forall x, in_range (gen_g st) x ->
    rd (outgoing_edges_per_vertex st) x = count_out x (edges_ (gen_g st));
  gc_in_cap : forall x, count_in x (edges_ (gen_g st)) <= Z.max 0 mi;
  gc_out_cap : forall x, count_out x (edges_ (gen_g st)) <= Z.max 0 mo
}.

(** What [generate_graph] returns for 3 vertices, 2 edges and the values
    [rand_both_ways]. *)
Definition generated_example : Graph :=
  Eval cbv in
    match generate_graph 10 rand_both_ways 3 3 2 2 5 true 5 5 with
    | Returns g => g
    | _ => scenario_graph
    end.

(** A state of the loop of [generate_graph] with an edge still to place
    and counters that are not negative. *)
Record gen_stuck (N : Z) (st : gen) : Prop := {
  gs_wf : wf_graph (gen_g st);
  gs_vertices : vertices_ (gen_g st) = N;
  gs_len : Z.of_nat (length (edges_per_vertex st)) = N;
  gs_len_in : Z.of_nat (length (incoming_edges_per_vertex st)) = N;
  gs_len_out : Z.of_nat (length (outgoing_edges_per_vertex st)) = N;
  gs_in : forall x, 0 <= rd (incoming_edges_per_vertex st) x;
  gs_out : forall x, 0 <= rd (outgoing_edges_per_vertex st) x;
  gs_pending : 0 < num_edges st
}.

(** ** Vocabulary for the print functions *)

(** [f lo + f (lo + 1) + ... + f (lo + n - 1)] *)
Fixpoint sum_from (f : Z -> Z) (lo : Z) (n : nat) : Z :=
  match n with
  | O => 0
  | S n' => f lo + sum_from f (lo + 1) n'
  end.

(** 1 when the entry [i][j] of the adjacency matrix is not 0. *)
Definition nz (g : Graph) (i j : Z) : Z :=
  if entry (adj_matrix_ g) i j =? 0 then 0 else 1.

(** The number of non-zero entries of row [i] in the columns [i + 1] to
    [j - 1], of the rows 0 to [i - 1] right of the diagonal, and of the
    whole matrix right of the diagonal. *)
Definition row_count (g : Graph) (i j : Z) : Z :=
  sum_from (nz g i) (i + 1) (Z.to_nat (j - (i + 1))).

Definition rows_count (g : Graph) (i : Z) : Z :=
  sum_from (fun r => row_count g r (vertices_ g)) 0 (Z.to_nat i).

Definition upper_count (g : Graph) : Z := rows_count g (vertices_ g).

(** A directed graph with the edges 1 -> 0 and 2 -> 1 only. *)
Definition backward_graph : Graph :=
  Eval cbv in
    match (let* g0 := Graph_new 3 true in add_edges g0 [(1, 0, 4); (2, 1, 6)]) with
    | Returns g => g
    | _ => scenario_graph
    end.

(** A directed graph with the edges 1 -> 1 and 2 -> 2 only. *)
Definition loops_graph : Graph :=
  Eval cbv in
    match (let* g0 := Graph_new 3 true in add_edges g0 [(1, 1, 2); (2, 2, 3)]) with
    | Returns g => g
    | _ => scenario_graph
    end.

(** [square_graph] with the weight of 0 - 1 negative. *)
Definition square_graph_negative : Graph :=
  Eval cbv in
    match (let* g0 := Graph_new 4 false in
           add_edges g0 [(0, 1, -5); (1, 2, 3); (0, 2, 1); (2, 3, 4)]) with
    | Returns g => g
    | _ => scenario_graph
    end.

(** [square_graph] without the edge 0 - 1. *)
Definition square_graph_less : Graph :=
  Eval cbv in
    match (let* g0 := Graph_new 4 false in
           add_edges g0 [(1, 2, 3); (0, 2, 1); (2, 3, 4)]) with
    | Returns g => g
    | _ => scenario_graph
    end.
(** * Properties *)

(** ** Outcomes and vectors *)

Lemma bind_Returns {A B : Type} (m : outcome A) (k : A -> outcome B) (b : B) :
  bind m k = Returns b -> exists a, m = Returns a /\ k a = Returns b.
Proof. destruct m; simpl; intros H; try discriminate; eauto. Qed.

(** Case analysis on a [decide] of the goal. *)
Ltac goal_decide :=
  match goal with |- context [decide ?P] => destruct (decide P) end.

Ltac bind_inv_as H x Hx :=
  apply bind_Returns in H; destruct H as (x & Hx & H).

Ltac bind_inv H :=
  let a := fresh "a" in
  let Ha := fresh "Ha" in
  apply bind_Returns in H; destruct H as (a & Ha & H).

Lemma vec_get_Returns {A : Type} (l : list A) (i : Z) (x : A) :
  vec_get l i = Returns x <-> 0 <= i /\ l !! Z.to_nat i = Some x.
Proof.
  unfold vec_get. destruct (Z.ltb_spec i 0).
  - split; [discriminate | lia].
  - destruct (l !! Z.to_nat i) eqn:E; split; intros H1.
    + injection H1 as ->. auto.
    + destruct H1 as [_ H1]. congruence.
    + discriminate.
    + destruct H1 as [_ H1]. discriminate.
Qed.

Lemma vec_get_in {A : Type} (l : list A) (i : Z) :
  0 <= i < Z.of_nat (length l) -> exists x, vec_get l i = Returns x.
Proof.
  intros Hi. destruct (lookup_lt_is_Some_2 l (Z.to_nat i)) as [x Hx]; [lia|].
  exists x. apply vec_get_Returns. split; [lia | exact Hx].
Qed.

Lemma vec_get_out {A : Type} (l : list A) (i : Z) :
  ~ (0 <= i < Z.of_nat (length l)) -> vec_get l i = Undefined.
Proof.
  intros Hi. unfold vec_get. destruct (Z.ltb_spec i 0); [reflexivity|].
  rewrite (lookup_ge_None_2 l (Z.to_nat i)); [reflexivity | lia].
Qed.

Lemma vec_set_in {A : Type} (l : list A) (i : Z) (x : A) :
  0 <= i < Z.of_nat (length l) -> vec_set l i x = Returns (<[Z.to_nat i := x]> l).
Proof.
  intros Hi. unfold vec_set.
  destruct (Z.leb_spec 0 i); [|lia]. destruct (Z.ltb_spec i (Z.of_nat (length l))); [|lia].
  reflexivity.
Qed.

Lemma vec_set_out {A : Type} (l : list A) (i : Z) (x : A) :
  ~ (0 <= i < Z.of_nat (length l)) -> vec_set l i x = Undefined.
Proof.
  intros Hi. unfold vec_set.
  destruct (Z.leb_spec 0 i); [|reflexivity].
  destruct (Z.ltb_spec i (Z.of_nat (length l))); [lia | reflexivity].
Qed.

Lemma vec_set_Returns {A : Type} (l l' : list A) (i : Z) (x : A) :
  vec_set l i x = Returns l' ->
  0 <= i < Z.of_nat (length l) /\ l' = <[Z.to_nat i := x]> l.
Proof.
  intros H. destruct (decide (0 <= i < Z.of_nat (length l))) as [Hi|Hi].
  - rewrite vec_set_in in H by assumption. injection H as <-. auto.
  - rewrite vec_set_out in H by assumption. discriminate.
Qed.

Lemma vec_get_set {A : Type} (l : list A) (i j : Z) (x : A) :
  0 <= i < Z.of_nat (length l) -> 0 <= j ->
  vec_get (<[Z.to_nat i := x]> l) j = if decide (j = i) then Returns x else vec_get l j.
Proof.
  intros Hi Hj. case_decide as E.
  - subst j. apply vec_get_Returns. split; [lia|].
    apply list_lookup_insert_eq. lia.
  - unfold vec_get. destruct (Z.ltb_spec j 0); [lia|].
    rewrite list_lookup_insert_ne by lia. reflexivity.
Qed.

Lemma rd_in (l : list Z) (i : Z) :
  0 <= i < Z.of_nat (length l) -> vec_get l i = Returns (rd l i).
Proof.
  intros Hi. destruct (vec_get_in l i Hi) as [x Hx]. unfold rd. rewrite Hx. reflexivity.
Qed.

Lemma rd_out (l : list Z) (i : Z) :
  ~ (0 <= i < Z.of_nat (length l)) -> rd l i = 0.
Proof. intros Hi. unfold rd. rewrite vec_get_out by assumption. reflexivity. Qed.

Lemma rd_set (l : list Z) (i j x : Z) :
  0 <= i < Z.of_nat (length l) ->
  rd (<[Z.to_nat i := x]> l) j = if decide (j = i) then x else rd l j.
Proof.
  intros Hi. unfold rd. destruct (Z.ltb_spec j 0) as [Hj|Hj].
  - rewrite !vec_get_out by (rewrite ?length_insert; lia).
    case_decide; [lia | reflexivity].
  - rewrite vec_get_set by assumption. case_decide; reflexivity.
Qed.

Lemma rd_replicate (n : nat) (x i : Z) :
  rd (replicate n x) i = if decide (0 <= i < Z.of_nat n) then x else 0.
Proof.
  case_decide as Hi.
  - unfold rd. replace (vec_get (replicate n x) i) with (Returns x); [reflexivity|].
    symmetry. apply vec_get_Returns. split; [lia|].
    apply lookup_replicate_2. lia.
  - apply rd_out. rewrite length_replicate. exact Hi.
Qed.

(** ** Matrices: shape and entries *)

Lemma shape_row (n k : Z) (m : list (list Z)) (u : Z) :
  shape n k m -> 0 <= u < n ->
  exists row, vec_get m u = Returns row /\ Z.of_nat (length row) = k.
Proof.
  intros [Hn Hk] Hu. destruct (vec_get_in m u) as [row Hrow]; [lia|].
  exists row. split; [exact Hrow|].
  apply vec_get_Returns in Hrow as [_ Hrow].
  rewrite Forall_lookup in Hk. exact (Hk _ _ Hrow).
Qed.

Lemma mat_get_in (n k : Z) (m : list (list Z)) (u v : Z) :
  shape n k m -> 0 <= u < n -> 0 <= v < k ->
  mat_get m u v = Returns (entry m u v).
Proof.
  intros Hm Hu Hv. destruct (shape_row n k m u Hm Hu) as (row & Hrow & Hlen).
  destruct (vec_get_in row v) as [x Hx]; [lia|].
  unfold entry, mat_get. rewrite Hrow. simpl. rewrite Hx. reflexivity.
Qed.

Lemma entry_out (n k : Z) (m : list (list Z)) (u v : Z) :
  shape n k m -> ~ (0 <= u < n /\ 0 <= v < k) -> entry m u v = 0.
Proof.
  intros Hm Hout. unfold entry, mat_get.
  destruct (decide (0 <= u < n)) as [Hu|Hu].
  - destruct (shape_row n k m u Hm Hu) as (row & Hrow & Hlen).
    rewrite Hrow. simpl. rewrite vec_get_out; [reflexivity | lia].
  - rewrite vec_get_out; [reflexivity | destruct Hm; lia].
Qed.

Lemma mat_set_in (n k : Z) (m : list (list Z)) (u v x : Z) :
  shape n k m -> 0 <= u < n -> 0 <= v < k ->
  exists m', mat_set m u v x = Returns m' /\ shape n k m' /\
    forall a b, entry m' a b = if decide (a = u /\ b = v) then x else entry m a b.
Proof.
  intros Hm Hu Hv. destruct (shape_row n k m u Hm Hu) as (row & Hrow & Hlen).
  destruct Hm as [Hn Hk].
  exists (<[Z.to_nat u := <[Z.to_nat v := x]> row]> m). split; [|split].
  - unfold mat_set. rewrite Hrow. simpl. rewrite vec_set_in by lia. simpl.
    apply vec_set_in. lia.
  - split; [rewrite length_insert; exact Hn|].
    apply Forall_insert; [exact Hk|]. rewrite length_insert. exact Hlen.
  - intros a b. unfold entry, mat_get.
    destruct (Z.ltb_spec a 0) as [Ha|Ha].
    + rewrite !vec_get_out by (rewrite ?length_insert; lia). simpl.
      case_decide; [lia | reflexivity].
    + rewrite vec_get_set by lia. destruct (decide (a = u)) as [->|Hau].
      * simpl. rewrite Hrow. simpl. fold (rd (<[Z.to_nat v := x]> row) b). fold (rd row b).
        rewrite rd_set by lia. repeat case_decide; try reflexivity; lia || tauto.
      * case_decide; [tauto | reflexivity].
Qed.

Lemma mat_set_out (n k : Z) (m : list (list Z)) (u v x : Z) :
  shape n k m -> ~ (0 <= u < n /\ 0 <= v < k) -> mat_set m u v x = Undefined.
Proof.
  intros Hm Hout. unfold mat_set.
  destruct (decide (0 <= u < n)) as [Hu|Hu].
  - destruct (shape_row n k m u Hm Hu) as (row & Hrow & Hlen).
    rewrite Hrow. simpl. rewrite vec_set_out; [reflexivity | lia].
  - rewrite vec_get_out; [reflexivity | destruct Hm; lia].
Qed.

Lemma shape_replicate (n k : Z) :
  0 <= n -> 0 <= k ->
  shape n k (replicate (Z.to_nat n) (replicate (Z.to_nat k) 0)).
Proof.
  intros Hn Hk. split.
  - rewrite length_replicate. lia.
  - apply Forall_replicate. rewrite length_replicate. lia.
Qed.

Lemma entry_replicate (n k : nat) (u v : Z) :
  entry (replicate n (replicate k 0)) u v = 0.
Proof.
  unfold entry, mat_get.
  destruct (vec_get (replicate n (replicate k 0)) u) as [row| | |] eqn:E; try reflexivity.
  apply vec_get_Returns in E as [_ E]. apply lookup_replicate in E as [-> _].
  simpl. fold (rd (replicate k 0) v). rewrite rd_replicate. case_decide; reflexivity.
Qed.

Lemma for_loop_inv {St : Type} (P : Z -> St -> Prop) (body : Z -> St -> outcome St)
    (n : nat) (i : Z) (s : St) :
  P i s ->
  (forall j t, i <= j < i + Z.of_nat n -> P j t ->
     exists t', body j t = Returns t' /\ P (j + 1) t') ->
  exists s', for_loop n i body s = Returns s' /\ P (i + Z.of_nat n) s'.
Proof.
  revert i s. induction n as [|n IH]; intros i s Hs Hbody.
  - exists s. split; [reflexivity|]. replace (i + Z.of_nat 0) with i by lia. exact Hs.
  - destruct (Hbody i s) as (t & Ht & HP); [lia | exact Hs |].
    destruct (IH (i + 1) t HP) as (s' & Hs' & HP').
    + intros j t' Hj. apply Hbody. lia.
    + exists s'. split; [simpl; rewrite Ht; exact Hs'|].
      replace (i + Z.of_nat (S n)) with (i + 1 + Z.of_nat n) by lia. exact HP'.
Qed.

(** ** The Graph class *)

Lemma vec_new_in {A : Type} (n : Z) (x : A) :
  0 <= n -> vec_new n x = Returns (replicate (Z.to_nat n) x).
Proof. intros Hn. unfold vec_new. destruct (Z.ltb_spec n 0); [lia | reflexivity]. Qed.

Lemma Graph_new_spec (n : Z) (d : bool) :
  0 <= n ->
  exists g, Graph_new n d = Returns g /\ wf_graph g /\
    vertices_ g = n /\ directed_ g = d /\ edges_ g = [] /\ inc_matrix_ g = [] /\
    forall a b, entry (adj_matrix_ g) a b = 0.
Proof.
  intros Hn. unfold Graph_new. repeat (rewrite vec_new_in by assumption; simpl).
  eexists. split; [reflexivity|]. simpl. split; [|repeat split].
  - constructor; simpl.
    + exact Hn.
    + apply shape_replicate; assumption.
    + rewrite length_replicate. lia.
    + constructor.
  - intros a b. apply entry_replicate.
Qed.

Lemma Graph_new_negative (n : Z) (d : bool) :
  n < 0 -> Graph_new n d = Throws LengthError.
Proof.
  intros Hn. unfold Graph_new, vec_new. destruct (Z.ltb_spec n 0); [reflexivity | lia].
Qed.

(** The effect of [add_edge] on a well-formed graph, for indices in range. *)
Lemma add_edge_spec (g : Graph) (u v w : Z) :
  wf_graph g -> in_range g u -> in_range g v ->
  exists g' lu,
    add_edge g u v w = Returns g' /\ wf_graph g' /\
    vertices_ g' = vertices_ g /\ directed_ g' = directed_ g /\
    inc_matrix_ g' = inc_matrix_ g /\
    edges_ g' = edges_ g ++ [(u, v)] /\
    vec_get (adj_list_ g) u = Returns lu /\
    adj_list_ g' = <[Z.to_nat u := lu ++ [(v, w)]]> (adj_list_ g) /\
    forall a b, entry (adj_matrix_ g') a b =
      if decide ((a = u /\ b = v) \/ (directed_ g = false /\ a = v /\ b = u))
      then w else entry (adj_matrix_ g) a b.
Proof.
  intros [HN Hadj Hal Hed] Hu Hv. unfold in_range in Hu, Hv.
  destruct (mat_set_in _ _ _ u v w Hadj Hu Hv) as (adj1 & E1 & S1 & R1).
  destruct (vec_get_in (adj_list_ g) u) as [lu Elu]; [lia|].
  assert (forall adj2,
    shape (vertices_ g) (vertices_ g) adj2 ->
    wf_graph {| vertices_ := vertices_ g; directed_ := directed_ g;
                adj_matrix_ := adj2;
                adj_list_ := <[Z.to_nat u := lu ++ [(v, w)]]> (adj_list_ g);
                edges_ := edges_ g ++ [(u, v)]; inc_matrix_ := inc_matrix_ g |}) as Hwf.
  { intros adj2 S2. constructor; simpl; try assumption.
    - rewrite length_insert. exact Hal.
    - apply Forall_app. split; [exact Hed|]. constructor; [|constructor].
      unfold in_range. simpl. lia. }
  unfold add_edge. rewrite E1. simpl. rewrite Elu. simpl.
  rewrite vec_set_in by lia. simpl.
  destruct (directed_ g) eqn:Hd.
  - destruct (mat_set_in _ _ _ u v w S1 Hu Hv) as (adj2 & E2 & S2 & R2).
    rewrite E2. simpl. eexists _, lu. split; [reflexivity|]. simpl.
    split; [exact (Hwf adj2 S2)|]. repeat split; try assumption.
    intros a b. rewrite R2, R1.
    repeat case_decide; try reflexivity; exfalso; intuition congruence.
  - destruct (mat_set_in _ _ _ v u w S1 Hv Hu) as (adj2 & E2 & S2 & R2).
    destruct (mat_set_in _ _ _ u v w S2 Hu Hv) as (adj3 & E3 & S3 & R3).
    rewrite E2. simpl. rewrite E3. simpl. eexists _, lu. split; [reflexivity|]. simpl.
    split; [exact (Hwf adj3 S3)|]. repeat split; try assumption.
    intros a b. rewrite R3, R2, R1.
    repeat case_decide; try reflexivity; exfalso; intuition congruence.
Qed.

(** With an index out of range the first statement of [add_edge] already
    writes out of bounds. *)
Lemma add_edge_out (g : Graph) (u v w : Z) :
  wf_graph g -> ~ (in_range g u /\ in_range g v) -> add_edge g u v w = Undefined.
Proof.
  intros Hg Hout. unfold add_edge.
  rewrite (mat_set_out _ _ _ u v w (wf_adj g Hg)); [reflexivity | exact Hout].
Qed.

Lemma add_edges_wf (es : list (Z * Z * Z)) (g g' : Graph) :
  wf_graph g -> add_edges g es = Returns g' ->
  wf_graph g' /\ vertices_ g' = vertices_ g /\ directed_ g' = directed_ g /\
  inc_matrix_ g' = inc_matrix_ g.
Proof.
  revert g. induction es as [|[[u v] w] es IH]; intros g Hg H; simpl in H.
  - injection H as <-. auto.
  - bind_inv H. destruct (decide (in_range g u /\ in_range g v)) as [[Hu Hv]|Hout].
    + destruct (add_edge_spec g u v w Hg Hu Hv) as (g1 & lu & E & Hg1 & HN & Hd & Hi & _).
      rewrite E in Ha. injection Ha as <-.
      destruct (IH g1 Hg1 H) as (? & ? & ? & ?).
      split; [assumption|]. repeat split; congruence.
    + rewrite add_edge_out in Ha by assumption. discriminate.
Qed.

(** ** The incidence matrix *)

Lemma int_abs_in_range (x : Z) :
  INT_MIN < x <= INT_MAX -> int_abs x = Z.abs x /\ int_neg (int_abs x) = - Z.abs x.
Proof.
  unfold INT_MIN, INT_MAX, int_abs, int_neg, wrap32. intros Hx.
  assert (0 <= Z.abs x < 2 ^ 31) as Ha by lia.
  assert ((Z.abs x + 2 ^ 31) mod 2 ^ 32 = Z.abs x + 2 ^ 31) as E1
    by (apply Z.mod_small; lia).
  rewrite E1. replace (Z.abs x + 2 ^ 31 - 2 ^ 31) with (Z.abs x) by lia.
  split; [reflexivity|].
  rewrite Z.mod_small by lia. lia.
Qed.

Lemma inc_entry_out (g : Graph) (r i : Z) :
  wf_graph g -> ~ in_range g r -> inc_entry g r i = 0.
Proof.
  intros Hg Hr. unfold inc_entry.
  destruct (vec_get (edges_ g) i) as [[u v]| | |] eqn:E; try reflexivity.
  apply vec_get_Returns in E as [_ E].
  pose proof (wf_edges g Hg) as Hed. rewrite Forall_lookup in Hed.
  destruct (Hed _ _ E) as [Hu Hv]. simpl in Hu, Hv.
  repeat case_decide; try reflexivity; subst; tauto.
Qed.

Lemma inc_column_inv (g : Graph) (i : Z) (inc : list (list Z)) :
  wf_graph g -> 0 <= i < Z.of_nat (length (edges_ g)) -> inc_inv g i inc ->
  exists inc', inc_column g i inc = Returns inc' /\ inc_inv g (i + 1) inc'.
Proof.
  intros Hg Hi [Hsh Hent].
  destruct (vec_get_in (edges_ g) i Hi) as [[u v] He].
  pose proof He as He'. apply vec_get_Returns in He' as [_ He'].
  pose proof (wf_edges g Hg) as Hed. rewrite Forall_lookup in Hed.
  destruct (Hed _ _ He') as [Hu Hv]. simpl in Hu, Hv. unfold in_range in Hu, Hv.
  unfold inc_column. rewrite He. simpl.
  rewrite (mat_get_in _ _ _ u v (wf_adj g Hg) Hu Hv). simpl.
  destruct (mat_set_in _ _ _ u i (int_abs (entry (adj_matrix_ g) u v)) Hsh Hu Hi)
    as (inc1 & E1 & S1 & R1).
  rewrite E1. simpl.
  destruct (mat_set_in _ _ _ v i
              (if directed_ g then int_neg (int_abs (entry (adj_matrix_ g) u v))
               else int_abs (entry (adj_matrix_ g) u v)) S1 Hv Hi)
    as (inc2 & E2 & S2 & R2).
  exists inc2. split; [exact E2|]. split; [exact S2|].
  intros r j. rewrite R2, R1, Hent.
  destruct (decide (j = i)) as [->|Hji].
  - unfold inc_entry. rewrite He.
    repeat case_decide; try reflexivity; exfalso; lia || tauto.
  - repeat case_decide; try reflexivity; exfalso; lia || tauto.
Qed.

(** The first call of [get_inc_matrix] on a well-formed graph. *)
Lemma get_inc_matrix_first (g : Graph) :
  wf_graph g -> inc_matrix_ g = [] ->
  exists m,
    get_inc_matrix g =
      Returns ({| vertices_ := vertices_ g; directed_ := directed_ g;
                  adj_matrix_ := adj_matrix_ g; adj_list_ := adj_list_ g;
                  edges_ := edges_ g; inc_matrix_ := m |}, m) /\
    shape (vertices_ g) (Z.of_nat (length (edges_ g))) m /\
    forall r i, 0 <= i < Z.of_nat (length (edges_ g)) -> entry m r i = inc_entry g r i.
Proof.
  intros Hg Hempty. unfold get_inc_matrix. rewrite Hempty.
  rewrite vec_new_in by lia. simpl.
  rewrite vec_new_in by exact (wf_vertices g Hg). simpl.
  destruct (for_loop_inv (inc_inv g) (inc_column g) (length (edges_ g)) 0
              (replicate (Z.to_nat (vertices_ g))
                 (replicate (Z.to_nat (Z.of_nat (length (edges_ g)))) 0)))
    as (m & Em & Sm & Rm).
  - split.
    + apply shape_replicate; [exact (wf_vertices g Hg) | lia].
    + intros r j. rewrite entry_replicate. case_decide; [lia | reflexivity].
  - intros j t Hj Ht. apply inc_column_inv; [exact Hg | lia | exact Ht].
  - exists m. rewrite Em. simpl. split; [reflexivity|]. split; [exact Sm|].
    intros r i Hi. rewrite Rm. case_decide; [reflexivity | lia].
Qed.

Lemma entry_lookup (m : list (list Z)) (row : list Z) (i j : nat) (x : Z) :
  m !! i = Some row -> row !! j = Some x -> entry m (Z.of_nat i) (Z.of_nat j) = x.
Proof.
  intros Hrow Hx. unfold entry, mat_get.
  replace (vec_get m (Z.of_nat i)) with (Returns row).
  - simpl. replace (vec_get row (Z.of_nat j)) with (Returns x); [reflexivity|].
    symmetry. apply vec_get_Returns. rewrite Nat2Z.id. split; [lia | exact Hx].
  - symmetry. apply vec_get_Returns. rewrite Nat2Z.id. split; [lia | exact Hrow].
Qed.

(** Matrices of one shape with the same entries are equal. *)
Lemma shape_ext (n k : Z) (m m' : list (list Z)) :
  shape n k m -> shape n k m' ->
  (forall a b, 0 <= a < n -> 0 <= b < k -> entry m a b = entry m' a b) ->
  m = m'.
Proof.
  intros [Hn Hk] [Hn' Hk'] Hent. rewrite Forall_lookup in Hk, Hk'.
  apply list_eq_same_length with (length m); [lia | reflexivity |].
  intros i row row' Hi Hrow Hrow'.
  pose proof (Hk _ _ Hrow) as Hl. pose proof (Hk' _ _ Hrow') as Hl'.
  apply list_eq_same_length with (length row); [lia | reflexivity |].
  intros j x x' Hj Hx Hx'.
  rewrite <- (entry_lookup m row i j x Hrow Hx).
  rewrite <- (entry_lookup m' row' i j x' Hrow' Hx').
  apply Hent; lia.
Qed.

Lemma wf_no_vertices (g : Graph) :
  wf_graph g -> vertices_ g = 0 -> edges_ g = [].
Proof.
  intros Hg H0. pose proof (wf_edges g Hg) as Hed.
  destruct (edges_ g) as [|e es]; [reflexivity|].
  apply Forall_cons in Hed as [[He _] _]. unfold in_range in He. lia.
Qed.

Lemma wf_graph_inc (g : Graph) (m : list (list Z)) :
  wf_graph g ->
  wf_graph {| vertices_ := vertices_ g; directed_ := directed_ g;
              adj_matrix_ := adj_matrix_ g; adj_list_ := adj_list_ g;
              edges_ := edges_ g; inc_matrix_ := m |}.
Proof. intros [H1 H2 H3 H4]. constructor; assumption. Qed.

(** ** The cache of the incidence matrix *)

Lemma get_inc_matrix_cached (m : list (list Z)) (g : Graph) :
  cached m g -> exists g', get_inc_matrix g = Returns (g', m) /\ cached m g'.
Proof.
  intros (Hg & Hm & H0). destruct m as [|row m].
  - destruct (get_inc_matrix_first g Hg Hm) as (m' & E & [Hlen _] & _).
    rewrite (H0 eq_refl) in Hlen. destruct m' as [|? ?]; [|simpl in Hlen; lia].
    eexists. split; [exact E|]. split; [apply wf_graph_inc; exact Hg|].
    simpl. auto.
  - exists g. split; [|split; [exact Hg | split; [exact Hm | discriminate]]].
    unfold get_inc_matrix. rewrite Hm. reflexivity.
Qed.

Lemma add_edge_cached (m : list (list Z)) (g g' : Graph) (u v w : Z) :
  cached m g -> add_edge g u v w = Returns g' -> cached m g'.
Proof.
  intros (Hg & Hm & H0) E.
  destruct (decide (in_range g u /\ in_range g v)) as [[Hu Hv]|Hout].
  - destruct (add_edge_spec g u v w Hg Hu Hv) as (g1 & lu & E1 & Hg1 & HN & _ & Hi & _).
    rewrite E1 in E. injection E as <-.
    split; [exact Hg1|]. split; [congruence|]. intros ->. rewrite HN. auto.
  - rewrite add_edge_out in E by assumption. discriminate.
Qed.

Lemma get_inc_matrix_caches (g g1 : Graph) (m1 : list (list Z)) :
  wf_graph g -> get_inc_matrix g = Returns (g1, m1) -> cached m1 g1.
Proof.
  intros Hg E. destruct (inc_matrix_ g) as [|row m] eqn:Hm.
  - destruct (get_inc_matrix_first g Hg Hm) as (m' & E' & [Hlen _] & _).
    rewrite E' in E. injection E as <- <-.
    split; [apply wf_graph_inc; exact Hg|]. split; [reflexivity|].
    simpl. intros ->. simpl in Hlen. lia.
  - unfold get_inc_matrix in E. rewrite Hm in E. injection E as <- <-.
    split; [exact Hg|]. split; [exact Hm | discriminate].
Qed.

Lemma run_calls_cached (m : list (list Z)) (cs : list call) (g g' : Graph) :
  cached m g -> run_calls g cs = Returns g' -> cached m g'.
Proof.
  revert g. induction cs as [|c cs IH]; intros g Hc H; simpl in H.
  - injection H as <-. exact Hc.
  - bind_inv H. apply (IH a); [|exact H]. destruct c as [u v w|]; simpl in Ha.
    + exact (add_edge_cached m g a u v w Hc Ha).
    + destruct (get_inc_matrix_cached m g Hc) as (g1 & E1 & Hc1).
      rewrite E1 in Ha. simpl in Ha. injection Ha as <-. exact Hc1.
Qed.

(** ** Sequences of add_edge calls *)

Lemma add_edge_Returns (g g' : Graph) (u v w : Z) :
  wf_graph g -> add_edge g u v w = Returns g' -> in_range g u /\ in_range g v.
Proof.
  intros Hg E. destruct (decide (in_range g u /\ in_range g v)) as [H|H]; [exact H|].
  rewrite add_edge_out in E by assumption. discriminate.
Qed.

Lemma add_edges_edges (es : list (Z * Z * Z)) (g g' : Graph) :
  wf_graph g -> add_edges g es = Returns g' ->
  edges_ g' = edges_ g ++ map edge_of es.
Proof.
  revert g. induction es as [|[[u v] w] es IH]; intros g Hg H; simpl in H.
  - injection H as <-. simpl. rewrite app_nil_r. reflexivity.
  - bind_inv H. destruct (add_edge_Returns g a u v w Hg Ha) as [Hu Hv].
    destruct (add_edge_spec g u v w Hg Hu Hv) as (g1 & lu & E & Hg1 & _ & _ & _ & Hed & _).
    rewrite E in Ha. injection Ha as <-.
    rewrite (IH g1 Hg1 H), Hed. simpl. rewrite <- app_assoc. reflexivity.
Qed.

Lemma add_edge_adj_list (g g' : Graph) (u v w x : Z) (l : list (Z * Z)) :
  wf_graph g -> add_edge g u v w = Returns g' ->
  vec_get (adj_list_ g) x = Returns l ->
  vec_get (adj_list_ g') x = Returns (if decide (x = u) then l ++ [(v, w)] else l).
Proof.
  intros Hg E Hl. destruct (add_edge_Returns g g' u v w Hg E) as [Hu Hv].
  destruct (add_edge_spec g u v w Hg Hu Hv) as (g1 & lu & E1 & _ & _ & _ & _ & _ & Elu & Hal & _).
  rewrite E1 in E. injection E as <-. rewrite Hal.
  pose proof Hl as Hx. apply vec_get_Returns in Hx as [Hx _].
  unfold in_range in Hu. rewrite vec_get_set; [|rewrite (wf_adj_list g Hg); lia | exact Hx].
  case_decide as Hxu; [|exact Hl]. subst x. congruence.
Qed.

Lemma add_edges_adj_list (es : list (Z * Z * Z)) (g g' : Graph) (x : Z) (l : list (Z * Z)) :
  wf_graph g -> add_edges g es = Returns g' ->
  vec_get (adj_list_ g) x = Returns l ->
  exists l', vec_get (adj_list_ g') x = Returns (l ++ l').
Proof.
  revert g l. induction es as [|[[u v] w] es IH]; intros g l Hg H Hl; simpl in H.
  - injection H as <-. exists []. rewrite app_nil_r. exact Hl.
  - bind_inv H. pose proof (add_edge_adj_list g a u v w x l Hg Ha Hl) as Hl1.
    destruct (add_edge_Returns g a u v w Hg Ha) as [Hu Hv].
    destruct (add_edge_spec g u v w Hg Hu Hv) as (g1 & lu & E & Hg1 & _).
    rewrite E in Ha. injection Ha as <-.
    destruct (IH g1 _ Hg1 H Hl1) as [l' Hl'].
    case_decide.
    + exists ((v, w) :: l'). rewrite Hl'. rewrite <- app_assoc. reflexivity.
    + exists l'. exact Hl'.
Qed.

Lemma same_but_add_edge (u v : Z) (g g' g1 : Graph) (a b w : Z) :
  same_but u v g g' -> add_edge g a b w = Returns g1 ->
  exists g1', add_edge g' a b w = Returns g1' /\ same_but u v g1 g1'.
Proof.
  intros (Hg & Hg' & HN & Hd & He & Hi & Hent) E.
  destruct (add_edge_Returns g g1 a b w Hg E) as [Ha Hb].
  destruct (add_edge_spec g a b w Hg Ha Hb)
    as (h & lu & E1 & Hh & HN1 & Hd1 & Hi1 & He1 & _ & _ & R1).
  rewrite E1 in E. injection E as <-.
  destruct (add_edge_spec g' a b w Hg') as (h' & lu' & E2 & Hh' & HN2 & Hd2 & Hi2 & He2 & _ & _ & R2).
  { unfold in_range in *. lia. }
  { unfold in_range in *. lia. }
  exists h'. split; [exact E2|].
  split; [exact Hh|]. split; [exact Hh'|].
  repeat split; try congruence.
  intros x y Hxy. rewrite R1, R2, Hd. rewrite Hd1 in Hxy. clear R1 R2.
  repeat case_decide; try reflexivity; try tauto; apply Hent; exact Hxy.
Qed.

Lemma same_but_add_edges (u v : Z) (es : list (Z * Z * Z)) (g g' g1 : Graph) :
  same_but u v g g' -> add_edges g es = Returns g1 ->
  exists g1', add_edges g' es = Returns g1' /\ same_but u v g1 g1'.
Proof.
  revert g g'. induction es as [|[[a b] w] es IH]; intros g g' Hs H; simpl in H.
  - injection H as <-. exists g'. split; [reflexivity | exact Hs].
  - bind_inv H. destruct (same_but_add_edge u v g g' a0 a b w Hs Ha) as (h' & E' & Hs').
    destruct (IH a0 h' Hs' H) as (g1' & E1 & Hs1).
    exists g1'. split; [simpl; rewrite E'; exact E1 | exact Hs1].
Qed.

(** Writing the pair [(u, v)] again makes the adjacency matrices equal. *)
Lemma same_but_overwrite (u v w : Z) (g g' g3 : Graph) :
  same_but u v g g' -> add_edge g u v w = Returns g3 ->
  exists g3', add_edge g' u v w = Returns g3' /\ wf_graph g3' /\
    vertices_ g3' = vertices_ g3 /\ directed_ g3' = directed_ g3 /\
    edges_ g3' = edges_ g3 /\ inc_matrix_ g3' = inc_matrix_ g3 /\
    adj_matrix_ g3' = adj_matrix_ g3.
Proof.
  intros Hs E. destruct (same_but_add_edge u v g g' g3 u v w Hs E)
    as (g3' & E' & Hg3 & Hg3' & HN & Hd & He & Hi & Hent).
  exists g3'. split; [exact E'|]. split; [exact Hg3'|]. repeat split; try assumption.
  destruct Hs as (Hg & Hg' & HN0 & Hd0 & _ & _ & Hent0).
  destruct (add_edge_Returns g g3 u v w Hg E) as [Hu Hv].
  destruct (add_edge_spec g u v w Hg Hu Hv)
    as (h & lu & E1 & _ & HN1 & Hd1 & _ & _ & _ & _ & R1).
  rewrite E1 in E. injection E as <-.
  destruct (add_edge_spec g' u v w Hg') as (h' & lu' & E2 & _ & HN2 & _ & _ & _ & _ & _ & R2).
  { unfold in_range in *. lia. }
  { unfold in_range in *. lia. }
  rewrite E2 in E'. injection E' as <-.
  apply (shape_ext (vertices_ h) (vertices_ h)).
  - rewrite <- HN. exact (wf_adj h' Hg3').
  - exact (wf_adj h Hg3).
  - intros a b _ _. rewrite R1, R2, Hd0. clear R1 R2.
    repeat case_decide; try reflexivity; try tauto; apply Hent0; assumption.
Qed.

Lemma same_but_first (u v w1 w1' : Z) (g g1 : Graph) :
  wf_graph g -> add_edge g u v w1 = Returns g1 ->
  exists g1', add_edge g u v w1' = Returns g1' /\ same_but u v g1 g1'.
Proof.
  intros Hg E. destruct (add_edge_Returns g g1 u v w1 Hg E) as [Hu Hv].
  destruct (add_edge_spec g u v w1 Hg Hu Hv)
    as (h & lu & E1 & Hh & HN1 & Hd1 & Hi1 & He1 & _ & _ & R1).
  rewrite E1 in E. injection E as <-.
  destruct (add_edge_spec g u v w1' Hg Hu Hv)
    as (h' & lu' & E2 & Hh' & HN2 & Hd2 & Hi2 & He2 & _ & _ & R2).
  exists h'. split; [exact E2|]. split; [exact Hh|]. split; [exact Hh'|].
  repeat split; try congruence.
  intros a b Hab. rewrite R1, R2. rewrite Hd1 in Hab. clear R1 R2.
  repeat case_decide; try reflexivity; tauto.
Qed.

(** The matrix built by a first call depends on the vertex count, the
    directedness, the adjacency matrix and the edge list only. *)
Lemma get_inc_matrix_first_ext (g g' : Graph) :
  wf_graph g -> wf_graph g' -> inc_matrix_ g = [] -> inc_matrix_ g' = [] ->
  vertices_ g' = vertices_ g -> directed_ g' = directed_ g ->
  edges_ g' = edges_ g -> adj_matrix_ g' = adj_matrix_ g ->
  exists h h' m, get_inc_matrix g = Returns (h, m) /\ get_inc_matrix g' = Returns (h', m).
Proof.
  intros Hg Hg' Hi Hi' HN Hd He Ha.
  destruct (get_inc_matrix_first g Hg Hi) as (m & E & Sm & Rm).
  destruct (get_inc_matrix_first g' Hg' Hi') as (m' & E' & Sm' & Rm').
  assert (m' = m) as ->.
  { rewrite HN, He in Sm'. apply (shape_ext _ _ _ _ Sm' Sm).
    intros a b _ Hb. rewrite Rm, Rm' by (rewrite ?He; exact Hb).
    unfold inc_entry. rewrite He, Ha, Hd. reflexivity. }
  eauto.
Qed.

(** Every graph obtained from the constructor by [add_edge] calls is
    well formed. *)
Lemma constructed_wf (n : Z) (d : bool) (es : list (Z * Z * Z)) (g : Graph) :
  (let* g0 := Graph_new n d in add_edges g0 es) = Returns g -> wf_graph g.
Proof.
  intros H. bind_inv H. destruct (Z.ltb_spec n 0) as [Hn|Hn].
  - rewrite Graph_new_negative in Ha by assumption. discriminate.
  - destruct (Graph_new_spec n d Hn) as (g0 & E0 & Hg0 & _).
    rewrite E0 in Ha. injection Ha as <-.
    exact (proj1 (add_edges_wf es g0 g Hg0 H)).
Qed.

Lemma scenario_graph_built :
  (let* g0 := Graph_new 3 false in add_edges g0 [(0, 1, 2); (1, 2, 3)])
  = Returns scenario_graph.
Proof. reflexivity. Qed.

Lemma loop_graph_built :
  (let* g0 := Graph_new 1 true in add_edges g0 [(0, 0, 5)]) = Returns loop_graph.
Proof. reflexivity. Qed.

Lemma empty2_directed_built :
  (let* g0 := Graph_new 2 true in add_edges g0 []) = Returns empty2_directed.
Proof. reflexivity. Qed.

(** ** Paths *)

Lemma edge_in_range (g : Graph) (x y : Z) :
  wf_graph g -> edge g x y -> in_range g x /\ in_range g y.
Proof.
  intros Hg He. unfold edge in He.
  destruct (decide (0 <= x < vertices_ g /\ 0 <= y < vertices_ g)) as [H|H]; [exact H|].
  rewrite (entry_out _ _ _ x y (wf_adj g Hg) H) in He. congruence.
Qed.

Lemma chain_cons (g : Graph) (x y : Z) (p : list Z) :
  chain g (x :: y :: p) = true <-> edge g x y /\ chain g (y :: p) = true.
Proof.
  change (chain g (x :: y :: p))
    with (negb (entry (adj_matrix_ g) x y =? 0) && chain g (y :: p)).
  unfold edge. rewrite andb_true_iff, negb_true_iff, Z.eqb_neq. reflexivity.
Qed.

Lemma chain_snoc (g : Graph) (p : list Z) (x y : Z) :
  chain g p = true -> last p = Some x -> edge g x y -> chain g (p ++ [y]) = true.
Proof.
  induction p as [|a p IH]; intros Hc Hl He; [discriminate|].
  destruct p as [|b p].
  - simpl in Hl. injection Hl as ->. apply chain_cons. split; [exact He | reflexivity].
  - apply chain_cons in Hc as [Hab Hc].
    change ((a :: b :: p) ++ [y]) with (a :: b :: (p ++ [y])).
    apply chain_cons. split; [exact Hab|]. apply IH; [exact Hc | exact Hl | exact He].
Qed.

(** A set of vertices closed under edges, with a depth that grows by at
    most one along an edge, holds every path that starts in it. *)
Lemma path_closed (g : Graph) (V : Z -> Prop) (d : Z -> nat) :
  (forall x y, V x -> edge g x y -> V y /\ (d y <= S (d x))%nat) ->
  forall p x t, head p = Some x -> last p = Some t -> chain g p = true -> V x ->
    V t /\ (S (d t) <= d x + length p)%nat.
Proof.
  intros Hcl p. induction p as [|a p IH]; intros x t Hh Hl Hc Hx; [discriminate|].
  simpl in Hh. injection Hh as ->. destruct p as [|b p].
  - simpl in Hl. injection Hl as ->. split; [exact Hx | simpl; lia].
  - apply chain_cons in Hc as [Hab Hc].
    destruct (Hcl x b Hx Hab) as [Hb Hdb].
    destruct (IH b t eq_refl Hl Hc Hb) as [Ht Hdt].
    split; [exact Ht|]. simpl in *. lia.
Qed.

(** ** The tree of parent links *)

Lemma zeros_le (l : list Z) : (zeros l <= length l)%nat.
Proof. induction l as [|x l IH]; simpl; [lia|]. destruct (Z.eqb x 0); lia. Qed.

Lemma zeros_replicate (n : nat) : zeros (replicate n 0) = n.
Proof. induction n as [|n IH]; simpl; [reflexivity | rewrite IH; reflexivity]. Qed.

Lemma zeros_insert (l : list Z) (i : nat) (x : Z) :
  l !! i = Some 0 -> x <> 0 -> S (zeros (<[i := x]> l)) = zeros l.
Proof.
  revert i. induction l as [|a l IH]; intros i Hi Hx; [discriminate|].
  destruct i as [|i]; simpl in *.
  - injection Hi as ->. simpl. destruct (Z.eqb_spec x 0); [congruence | reflexivity].
  - rewrite <- (IH i Hi Hx). lia.
Qed.

Lemma zeros_set (l : list Z) (i x : Z) :
  0 <= i < Z.of_nat (length l) -> rd l i = 0 -> x <> 0 ->
  S (zeros (<[Z.to_nat i := x]> l)) = zeros l.
Proof.
  intros Hi Hrd Hx. apply zeros_insert; [|exact Hx].
  pose proof (rd_in l i Hi) as H. rewrite Hrd in H.
  apply vec_get_Returns in H as [_ H]. exact H.
Qed.

Section Tree.
Variable g : Graph.
Variable s : Z.
Hypothesis Hg : wf_graph g.

Lemma visited_in_range (st : search) (d : Z -> nat) (x : Z) :
  tree_inv g s st d -> rd (visited st) x <> 0 -> in_range g x.
Proof.
  intros HT Hx. unfold in_range.
  destruct (decide (0 <= x < vertices_ g)) as [H|H]; [exact H|].
  rewrite rd_out in Hx; [congruence|]. rewrite (ti_visited_len _ _ _ _ HT). exact H.
Qed.

(** Marking the unvisited neighbour [v] of the visited [u]. *)
Lemma tree_inv_discover (st : search) (d : Z -> nat) (u v : Z) (fr : list Z) :
  tree_inv g s st d ->
  rd (visited st) u <> 0 -> in_range g v -> rd (visited st) v = 0 -> edge g u v ->
  (forall x, x ∈ fr -> x ∈ frontier st \/ x = v) ->
  tree_inv g s
    {| visited := <[Z.to_nat v := 1]> (visited st);
       parent := <[Z.to_nat v := u]> (parent st);
       frontier := fr |}
    (upd d v (S (d u))).
Proof.
  intros HT Hu Hv Hv0 He Hfr. unfold in_range in Hv.
  pose proof (ti_visited_len _ _ _ _ HT) as Hlv.
  pose proof (ti_parent_len _ _ _ _ HT) as Hlp.
  assert (v <> s) as Hvs.
  { intros ->. apply (ti_source_visited _ _ _ _ HT). exact Hv0. }
  assert (v <> u) as Hvu by congruence.
  constructor; simpl.
  - rewrite length_insert. exact Hlv.
  - rewrite length_insert. exact Hlp.
  - exact (ti_source_range _ _ _ _ HT).
  - rewrite rd_set by lia. goal_decide; [lia | exact (ti_source_visited _ _ _ _ HT)].
  - rewrite rd_set by lia. goal_decide; [congruence | exact (ti_source_parent _ _ _ _ HT)].
  - unfold upd. goal_decide; [congruence | exact (ti_source_depth _ _ _ _ HT)].
  - intros x Hx Hxs. rewrite rd_set in Hx by lia. unfold upd.
    rewrite !(rd_set (parent st)) by lia. destruct (decide (x = v)) as [->|Hxv].
    + rewrite rd_set by lia. repeat goal_decide; try congruence; auto.
    + destruct (ti_parent _ _ _ _ HT x Hx Hxs) as (Hp & Hpe & Hpd).
      rewrite rd_set by lia.
      repeat goal_decide; try congruence; auto; try lia.
  - intros x Hx. rewrite rd_set in Hx by lia.
    pose proof (zeros_set (visited st) v 1 ltac:(lia) Hv0 ltac:(lia)) as Hz.
    unfold upd. destruct (decide (x = v)) as [->|Hxv].
    + pose proof (ti_depth _ _ _ _ HT u Hu). lia.
    + pose proof (ti_depth _ _ _ _ HT x Hx). lia.
  - intros x Hx. rewrite rd_set by lia. goal_decide; [lia|].
    destruct (Hfr x Hx) as [H|H]; [|congruence].
    exact (ti_frontier _ _ _ _ HT x H).
Qed.

(** Following the parent links from a visited vertex. *)
Lemma build_path_spec (st : search) (d : Z -> nat) :
  tree_inv g s st d ->
  forall (k : nat) (x : Z) (fuel : nat) (acc : list Z),
    rd (visited st) x <> 0 -> d x = k -> (S k < fuel)%nat ->
    exists l, build_path fuel (parent st) x acc = Returns (acc ++ l) /\
      length l = S k /\ is_path g s x (rev l).
Proof.
  intros HT k. induction k as [|k IH]; intros x fuel acc Hx Hd Hf.
  - assert (x = s) as ->.
    { destruct (decide (x = s)) as [E|E]; [exact E|].
      destruct (ti_parent _ _ _ _ HT x Hx E) as (_ & _ & H). lia. }
    pose proof (ti_source_range _ _ _ _ HT) as Hs. unfold in_range in Hs.
    destruct fuel as [|[|fuel]]; try lia. exists [s]. simpl.
    destruct (Z.eqb_spec s (-1)); [lia|].
    rewrite rd_in by (rewrite (ti_parent_len _ _ _ _ HT); exact Hs).
    rewrite (ti_source_parent _ _ _ _ HT). simpl.
    split; [reflexivity|]. split; [reflexivity|]. repeat split.
  - assert (x <> s) as Hxs.
    { intros ->. rewrite (ti_source_depth _ _ _ _ HT) in Hd. lia. }
    destruct (ti_parent _ _ _ _ HT x Hx Hxs) as (Hp & Hpe & Hpd).
    pose proof (visited_in_range st d x HT Hx) as Hxr. unfold in_range in Hxr.
    destruct fuel as [|fuel]; [lia|].
    destruct (IH (rd (parent st) x) fuel (acc ++ [x]) Hp ltac:(lia) ltac:(lia))
      as (l & El & Hl & Hhead & Hlast & Hchain).
    exists (x :: l). simpl. destruct (Z.eqb_spec x (-1)); [lia|].
    rewrite rd_in by (rewrite (ti_parent_len _ _ _ _ HT); exact Hxr). simpl.
    rewrite El, <- app_assoc. split; [reflexivity|]. split; [lia|].
    repeat split.
    + destruct (rev l) as [|a l'] eqn:E; [discriminate|]. exact Hhead.
    + apply last_snoc.
    + apply chain_snoc with (rd (parent st) x); assumption.
Qed.

(** The end of both searches. *)
Lemma reconstruct_spec (st : search) (d : Z -> nat) (t : Z) (fuel : nat) :
  tree_inv g s st d -> in_range g t -> (Z.to_nat (vertices_ g) < fuel)%nat ->
  exists path, reconstruct fuel st t = Returns path /\
    (rd (visited st) t = 0 -> path = []) /\
    (rd (visited st) t <> 0 -> length path = S (d t) /\ is_path g s t path).
Proof.
  intros HT Ht Hf. unfold reconstruct. unfold in_range in Ht.
  rewrite rd_in by (rewrite (ti_visited_len _ _ _ _ HT); exact Ht). simpl.
  destruct (Z.eqb_spec (rd (visited st) t) 0) as [E|E].
  - exists []. split; [reflexivity|]. split; [reflexivity | congruence].
  - pose proof (ti_depth _ _ _ _ HT t E) as Hd.
    destruct (build_path_spec st d HT (d t) t fuel [] E eq_refl ltac:(lia))
      as (l & El & Hl & Hp).
    rewrite El. simpl. exists (rev l). split; [reflexivity|].
    split; [congruence|]. intros _. rewrite length_rev. auto.
Qed.
End Tree.

Lemma upd_eq (d : Z -> nat) (v : Z) (k : nat) : upd d v k v = k.
Proof. unfold upd. goal_decide; [reflexivity | congruence]. Qed.

Lemma upd_ne (d : Z -> nat) (v : Z) (k : nat) (x : Z) : x <> v -> upd d v k x = d x.
Proof. intros H. unfold upd. goal_decide; [congruence | reflexivity]. Qed.

Lemma visited_set (vis : list Z) (v x : Z) :
  0 <= v < Z.of_nat (length vis) ->
  rd (<[Z.to_nat v := 1]> vis) x <> 0 <-> x = v \/ rd vis x <> 0.
Proof.
  intros Hv. rewrite rd_set by exact Hv. goal_decide; split; intros H; auto; try lia.
Qed.

(** ** Breadth-first search *)

Section Bfs.
Variable g : Graph.
Variable s : Z.
Hypothesis Hg : wf_graph g.

(** One column of the inner loop. *)
Lemma bfs_visit_inv (u : Z) (M : nat) (i : Z) (st : search) :
  0 <= i < vertices_ g -> bfs_scan_inv g s u M i st ->
  exists st', bfs_visit g u i st = Returns st' /\ bfs_scan_inv g s u M (i + 1) st'.
Proof.
  intros Hi (d & HT & Hu & Hlev & Hmax & Hcl & Hpart & HM).
  pose proof (visited_in_range g s st d u HT Hu) as Hur.
  pose proof (ti_visited_len _ _ _ _ HT) as Hlv.
  pose proof (ti_parent_len _ _ _ _ HT) as Hlp.
  unfold bfs_visit, get_adj_matrix.
  rewrite (mat_get_in _ _ _ u i (wf_adj g Hg) Hur Hi). simpl.
  destruct (Z.eqb_spec (entry (adj_matrix_ g) u i) 0) as [Ea|Ea].
  { exists st. split; [reflexivity|]. exists d.
    repeat (split; [assumption|]). split; [|exact HM].
    intros y Hy He. destruct (decide (y = i)) as [->|Hyi]; [contradiction|].
    apply Hpart; [lia | exact He]. }
  rewrite rd_in by lia. simpl.
  destruct (Z.eqb_spec (rd (visited st) i) 0) as [Ev|Ev].
  2:{ exists st. split; [reflexivity|]. exists d.
      repeat (split; [assumption|]). split; [|exact HM].
      intros y Hy He. destruct (decide (y = i)) as [->|Hyi].
      - split; [exact Ev | apply Hmax; exact Ev].
      - apply Hpart; [lia | exact He]. }
  rewrite !vec_set_in by lia. simpl. eexists. split; [reflexivity|].
  assert (u <> i) as Hui by congruence.
  exists (upd d i (S (d u))). rewrite (upd_ne d i _ u Hui). simpl.
  split; [|split; [|split; [|split; [|split; [|split]]]]].
  - apply tree_inv_discover; try assumption.
    intros x Hx. apply elem_of_app in Hx as [Hx|Hx]; [left; exact Hx|].
    right. apply list_elem_of_singleton in Hx. exact Hx.
  - apply visited_set; [lia | right; exact Hu].
  - destruct Hlev as (A & B & EAB & HA & HB). exists A, (B ++ [i]).
    split; [rewrite EAB, app_assoc; reflexivity|]. split.
    + intros x Hx. rewrite upd_ne; [apply HA; exact Hx|].
      assert (rd (visited st) x <> 0) as Hvx.
      { apply (ti_frontier _ _ _ _ HT). rewrite EAB. apply elem_of_app. left. exact Hx. }
      congruence.
    + intros x Hx. apply elem_of_app in Hx as [Hx|Hx].
      * rewrite upd_ne; [apply HB; exact Hx|].
        assert (rd (visited st) x <> 0) as Hvx.
        { apply (ti_frontier _ _ _ _ HT). rewrite EAB. apply elem_of_app. right. exact Hx. }
        congruence.
      * apply list_elem_of_singleton in Hx. subst x. apply upd_eq.
  - intros x Hx. apply visited_set in Hx; [|lia]. destruct Hx as [->|Hx].
    + rewrite upd_eq. lia.
    + rewrite upd_ne by congruence. apply Hmax. exact Hx.
  - intros x Hx Hnf Hxu.
    assert (x <> i) as Hxi.
    { intros ->. apply Hnf. apply elem_of_app. right. apply list_elem_of_singleton. reflexivity. }
    apply visited_set in Hx; [|lia]. destruct Hx as [Hx|Hx]; [congruence|].
    assert (x ∉ frontier st) as Hnf'.
    { intros H. apply Hnf. apply elem_of_app. left. exact H. }
    intros y Hy. destruct (Hcl x Hx Hnf' Hxu y Hy) as [Hvy Hdy]. simpl.
    split; [apply visited_set; [lia | right; exact Hvy]|].
    rewrite !upd_ne by congruence. exact Hdy.
  - intros y Hy He. destruct (decide (y = i)) as [->|Hyi].
    + split; [apply visited_set; [lia | left; reflexivity]|]. rewrite upd_eq. lia.
    + destruct (Hpart y ltac:(lia) He) as [Hvy Hdy].
      split; [apply visited_set; [lia | right; exact Hvy]|].
      rewrite upd_ne by congruence. exact Hdy.
  - pose proof (zeros_set (visited st) i 1 ltac:(lia) Ev ltac:(lia)) as Hz.
    rewrite length_app. simpl. lia.
Qed.

(** One iteration of the outer loop: the whole row of the vertex popped. *)
Lemma bfs_scan_spec (st : search) (u : Z) (q : list Z) :
  bfs_inv g s st -> frontier st = u :: q ->
  exists st',
    for_loop (Z.to_nat (vertices_ g)) 0 (bfs_visit g u)
      {| visited := visited st; parent := parent st; frontier := q |} = Returns st' /\
    bfs_inv g s st' /\
    (zeros (visited st') + length (frontier st') = zeros (visited st) + length q)%nat.
Proof.
  intros (d & L & HT & Hlev & Hmax & Hcl) Hfr.
  assert (rd (visited st) u <> 0) as Hu.
  { apply (ti_frontier _ _ _ _ HT). rewrite Hfr. apply list_elem_of_here. }
  assert ((d u = L \/ d u = S L) /\ levels d (d u) q) as [HdL Hlev'].
  { destruct Hlev as (A & B & EAB & HA & HB). rewrite Hfr in EAB.
    destruct A as [|a A]; simpl in EAB.
    - destruct B as [|b B]; [discriminate|]. injection EAB as <- ->.
      assert (d u = S L) as Hd by (apply HB; apply list_elem_of_here).
      split; [right; exact Hd|]. exists B, []. rewrite app_nil_r, Hd.
      split; [reflexivity|]. split.
      + intros x Hx. apply HB. apply list_elem_of_further. exact Hx.
      + intros x Hx. apply elem_of_nil in Hx. contradiction.
    - injection EAB as <- ->.
      assert (d u = L) as Hd by (apply HA; apply list_elem_of_here).
      split; [left; exact Hd|]. exists A, B. rewrite Hd.
      split; [reflexivity|]. split.
      + intros x Hx. apply HA. apply list_elem_of_further. exact Hx.
      + exact HB. }
  destruct (for_loop_inv
              (bfs_scan_inv g s u (zeros (visited st) + length q))
              (bfs_visit g u) (Z.to_nat (vertices_ g)) 0
              {| visited := visited st; parent := parent st; frontier := q |})
    as (st' & E' & d' & HT' & Hu' & Hlev2 & Hmax' & Hcl' & Hpart' & HM').
  - exists d. split; [|split; [exact Hu|split; [exact Hlev'|split; [|split; [|split]]]]].
    + destruct HT. constructor; simpl; try assumption.
      intros x Hx. apply ti_frontier0. rewrite Hfr. apply list_elem_of_further. exact Hx.
    + intros x Hx. specialize (Hmax x Hx). lia.
    + intros x Hx Hnq Hxu. simpl in *. intros y Hy. apply (Hcl x Hx); [|exact Hy].
      rewrite Hfr. intros H. apply elem_of_cons in H as [H|H]; [congruence | exact (Hnq H)].
    + intros y Hy. lia.
    + reflexivity.
  - intros j t Hj Ht. apply bfs_visit_inv; [|exact Ht].
    pose proof (wf_vertices g Hg). lia.
  - exists st'. split; [exact E'|]. split; [|exact HM'].
    exists d', (d' u). split; [exact HT'|]. split; [exact Hlev2|]. split; [exact Hmax'|].
    intros x Hx Hnf. destruct (decide (x = u)) as [->|Hxu].
    + intros y Hy. apply Hpart'; [|exact Hy].
      destruct (edge_in_range g u y Hg Hy) as [_ Hyr]. unfold in_range in Hyr.
      pose proof (wf_vertices g Hg). lia.
    + apply Hcl'; assumption.
Qed.

(** The outer loop returns with an empty queue, given enough fuel. *)
Lemma bfs_loop_spec (fuel : nat) (st : search) :
  bfs_inv g s st -> (zeros (visited st) + length (frontier st) < fuel)%nat ->
  exists st', bfs_loop fuel g (vertices_ g) st = Returns st' /\
    bfs_inv g s st' /\ frontier st' = [].
Proof.
  revert st. induction fuel as [|fuel IH]; intros st Hinv Hf; [lia|].
  simpl. destruct (frontier st) as [|u q] eqn:Hfr.
  - exists st. split; [reflexivity|]. split; [exact Hinv | exact Hfr].
  - destruct (bfs_scan_spec st u q Hinv Hfr) as (st1 & E1 & Hinv1 & HM).
    rewrite E1. simpl. apply IH; [exact Hinv1|]. simpl in Hf. lia.
Qed.

(** The state before the outer loop. *)
Lemma search_init :
  in_range g s ->
  tree_inv g s
    {| visited := <[Z.to_nat s := 1]> (replicate (Z.to_nat (vertices_ g)) 0);
       parent := replicate (Z.to_nat (vertices_ g)) (-1);
       frontier := [s] |}
    (fun _ => O) /\
  forall x, rd (<[Z.to_nat s := 1]> (replicate (Z.to_nat (vertices_ g)) 0)) x <> 0 -> x = s.
Proof.
  intros Hs. unfold in_range in Hs.
  assert (forall x, rd (<[Z.to_nat s := 1]> (replicate (Z.to_nat (vertices_ g)) 0)) x <> 0 ->
                    x = s) as Honly.
  { intros x Hx. apply visited_set in Hx; [|rewrite length_replicate; lia].
    destruct Hx as [Hx|Hx]; [exact Hx|]. rewrite rd_replicate in Hx.
    destruct (decide _); congruence. }
  split; [|exact Honly]. constructor; simpl.
  - rewrite length_insert, length_replicate. lia.
  - rewrite length_replicate. lia.
  - exact Hs.
  - apply visited_set; [rewrite length_replicate; lia | left; reflexivity].
  - rewrite rd_replicate. goal_decide; [reflexivity | lia].
  - reflexivity.
  - intros x Hx Hxs. apply Honly in Hx. congruence.
  - intros x Hx.
    pose proof (zeros_set (replicate (Z.to_nat (vertices_ g)) 0) s 1) as Hz.
    rewrite length_replicate, rd_replicate, zeros_replicate in Hz.
    destruct (decide (0 <= s < Z.of_nat (Z.to_nat (vertices_ g)))); [|lia].
    specialize (Hz ltac:(lia) eq_refl ltac:(lia)). lia.
  - intros x Hx. apply list_elem_of_singleton in Hx. subst x.
    apply visited_set; [rewrite length_replicate; lia | left; reflexivity].
Qed.
End Bfs.

(** ** Depth-first search *)

Lemma for_loop_break_inv {St : Type} (P : Z -> St -> Prop) (Q : St -> Prop)
    (body : Z -> St -> outcome (St * bool)) (n : nat) (i : Z) (s : St) :
  P i s ->
  (forall j t, i <= j < i + Z.of_nat n -> P j t ->
     exists t' b, body j t = Returns (t', b) /\ if b then Q t' else P (j + 1) t') ->
  exists s', for_loop_break n i body s = Returns s' /\ (P (i + Z.of_nat n) s' \/ Q s').
Proof.
  revert i s. induction n as [|n IH]; intros i s Hs Hbody.
  - exists s. split; [reflexivity|]. left. replace (i + Z.of_nat 0) with i by lia. exact Hs.
  - destruct (Hbody i s) as (t & b & Ht & HP); [lia | exact Hs |].
    simpl. rewrite Ht. simpl. destruct b.
    + exists t. split; [reflexivity | right; exact HP].
    + destruct (IH (i + 1) t HP) as (s' & Hs' & HP').
      * intros j t' Hj. apply Hbody. lia.
      * exists s'. split; [exact Hs'|].
        replace (i + Z.of_nat (S n)) with (i + 1 + Z.of_nat n) by lia. exact HP'.
Qed.

Section Dfs.
Variable g : Graph.
Variable s t : Z.
Hypothesis Hg : wf_graph g.

(** One column of the inner loop. *)
Lemma dfs_visit_inv (u : Z) (M : nat) (i : Z) (st : search) :
  0 <= i < vertices_ g -> dfs_scan_inv g s t u M i st ->
  exists st' b, dfs_visit g u t i st = Returns (st', b) /\
    if b then dfs_found g s t M st' else dfs_scan_inv g s t u M (i + 1) st'.
Proof.
  intros Hi (d & HT & Hu & Hdone & HM).
  pose proof (visited_in_range g s st d u HT Hu) as Hur.
  pose proof (ti_visited_len _ _ _ _ HT) as Hlv.
  pose proof (ti_parent_len _ _ _ _ HT) as Hlp.
  unfold dfs_visit, get_adj_matrix.
  rewrite (mat_get_in _ _ _ u i (wf_adj g Hg) Hur Hi). simpl.
  destruct (Z.eqb_spec (entry (adj_matrix_ g) u i) 0) as [Ea|Ea].
  { exists st, false. split; [reflexivity|]. exists d.
    repeat (split; [assumption|]). split; [|exact HM].
    destruct Hdone as [Hdone|[Hex Hpart]]; [left; exact Hdone|]. right.
    split; [exact Hex|]. intros y Hy He.
    destruct (decide (y = i)) as [->|Hyi]; [contradiction|].
    apply Hpart; [lia | exact He]. }
  rewrite rd_in by lia. simpl.
  destruct (Z.eqb_spec (rd (visited st) i) 0) as [Ev|Ev].
  2:{ exists st, false. split; [reflexivity|]. exists d.
      repeat (split; [assumption|]). split; [|exact HM].
      destruct Hdone as [Hdone|[Hex Hpart]]; [left; exact Hdone|]. right.
      split; [exact Hex|]. intros y Hy He.
      destruct (decide (y = i)) as [->|Hyi]; [exact Ev|].
      apply Hpart; [lia | exact He]. }
  rewrite !vec_set_in by lia. simpl. eexists _, _. split; [reflexivity|].
  assert (u <> i) as Hui by congruence.
  assert (tree_inv g s
            {| visited := <[Z.to_nat i := 1]> (visited st);
               parent := <[Z.to_nat i := u]> (parent st);
               frontier := i :: frontier st |} (upd d i (S (d u)))) as HT'.
  { apply tree_inv_discover; try assumption.
    intros x Hx. apply elem_of_cons in Hx as [Hx|Hx]; [right | left]; exact Hx. }
  assert (zeros (<[Z.to_nat i := 1%Z]> (visited st)) + length (i :: frontier st) = M)%nat
    as HM'.
  { pose proof (zeros_set (visited st) i 1 ltac:(lia) Ev ltac:(lia)) as Hz.
    simpl. lia. }
  destruct (Z.eqb_spec i t) as [Eit|Eit].
  - exists (upd d i (S (d u))). split; [exact HT'|]. split; [|exact HM'].
    simpl. apply visited_set; [lia | left; congruence].
  - exists (upd d i (S (d u))). split; [exact HT'|]. simpl.
    split; [apply visited_set; [lia | right; exact Hu]|]. split; [|exact HM'].
    destruct Hdone as [Hdone|[Hex Hpart]].
    { left. apply visited_set; [lia | right; exact Hdone]. }
    right. split.
    + intros x Hx Hnf Hxu y Hy. simpl in *.
      assert (x <> i) as Hxi.
      { intros ->. apply Hnf. apply list_elem_of_here. }
      apply visited_set in Hx; [|lia]. destruct Hx as [Hx|Hx]; [congruence|].
      apply visited_set; [lia|]. right. apply (Hex x Hx); [|exact Hxu|exact Hy].
      intros H. apply Hnf. apply list_elem_of_further. exact H.
    + intros y Hy He. apply visited_set; [lia|].
      destruct (decide (y = i)) as [->|Hyi]; [left; reflexivity|].
      right. apply Hpart; [lia | exact He].
Qed.

(** One iteration of the outer loop. *)
Lemma dfs_scan_spec (st : search) (u : Z) (rest : list Z) :
  dfs_inv g s t st -> frontier st = u :: rest ->
  exists st',
    for_loop_break (Z.to_nat (vertices_ g)) 0 (dfs_visit g u t)
      {| visited := visited st; parent := parent st; frontier := rest |} = Returns st' /\
    dfs_inv g s t st' /\
    (zeros (visited st') + length (frontier st') = zeros (visited st) + length rest)%nat.
Proof.
  intros (d & HT & Hdone) Hfr.
  assert (rd (visited st) u <> 0) as Hu.
  { apply (ti_frontier _ _ _ _ HT). rewrite Hfr. apply list_elem_of_here. }
  destruct (for_loop_break_inv
              (dfs_scan_inv g s t u (zeros (visited st) + length rest))
              (dfs_found g s t (zeros (visited st) + length rest))
              (dfs_visit g u t) (Z.to_nat (vertices_ g)) 0
              {| visited := visited st; parent := parent st; frontier := rest |})
    as (st' & E' & Hpost).
  - exists d. split; [|split; [exact Hu|split; [|reflexivity]]].
    + destruct HT. constructor; simpl; try assumption.
      intros x Hx. apply ti_frontier0. rewrite Hfr. apply list_elem_of_further. exact Hx.
    + destruct Hdone as [Hdone|Hex]; [left; exact Hdone|]. right. split.
      * intros x Hx Hnf Hxu y Hy. simpl in *. apply (Hex x Hx); [|tauto|exact Hy].
        rewrite Hfr. intros H.
        apply elem_of_cons in H as [H|H]; [congruence | exact (Hnf H)].
      * intros y Hy. lia.
  - intros j st1 Hj Hst1. apply dfs_visit_inv; [|exact Hst1].
    pose proof (wf_vertices g Hg). lia.
  - exists st'. split; [exact E'|].
    destruct Hpost as [(d' & HT' & Hu' & Hdone' & HM')|(d' & HT' & Hdone' & HM')].
    + split; [|exact HM']. exists d'. split; [exact HT'|].
      destruct Hdone' as [Hdone'|[Hex Hpart]]; [left; exact Hdone'|]. right.
      intros x Hx Hnf _ y Hy. destruct (decide (x = u)) as [->|Hxu].
      * apply Hpart; [|exact Hy].
        destruct (edge_in_range g u y Hg Hy) as [_ Hyr]. unfold in_range in Hyr.
        pose proof (wf_vertices g Hg). lia.
      * apply (Hex x Hx Hnf Hxu y Hy).
    + split; [|exact HM']. exists d'. split; [exact HT' | left; exact Hdone'].
Qed.

(** The outer loop returns with an empty stack, given enough fuel. *)
Lemma dfs_loop_spec (fuel : nat) (st : search) :
  dfs_inv g s t st -> (zeros (visited st) + length (frontier st) < fuel)%nat ->
  exists st', dfs_loop fuel g (vertices_ g) t st = Returns st' /\
    dfs_inv g s t st' /\ frontier st' = [].
Proof.
  revert st. induction fuel as [|fuel IH]; intros st Hinv Hf; [lia|].
  simpl. destruct (frontier st) as [|u rest] eqn:Hfr.
  - exists st. split; [reflexivity|]. split; [exact Hinv | exact Hfr].
  - destruct (dfs_scan_spec st u rest Hinv Hfr) as (st1 & E1 & Hinv1 & HM).
    rewrite E1. simpl. apply IH; [exact Hinv1|]. simpl in Hf. lia.
Qed.
End Dfs.

(** ** More fuel does not change a result *)

Lemma bfs_loop_mono (g : Graph) (N : Z) (f f' : nat) (st r : search) :
  (f <= f')%nat -> bfs_loop f g N st = Returns r -> bfs_loop f' g N st = Returns r.
Proof.
  revert f' st. induction f as [|f IH]; intros f' st Hle H; [discriminate|].
  destruct f' as [|f']; [lia|]. simpl in *.
  destruct (frontier st) as [|u q]; [exact H|].
  bind_inv H. rewrite Ha. simpl. apply IH; [lia | exact H].
Qed.

Lemma dfs_loop_mono (g : Graph) (N t : Z) (f f' : nat) (st r : search) :
  (f <= f')%nat -> dfs_loop f g N t st = Returns r -> dfs_loop f' g N t st = Returns r.
Proof.
  revert f' st. induction f as [|f IH]; intros f' st Hle H; [discriminate|].
  destruct f' as [|f']; [lia|]. simpl in *.
  destruct (frontier st) as [|u q]; [exact H|].
  bind_inv H. rewrite Ha. simpl. apply IH; [lia | exact H].
Qed.

Lemma build_path_mono (par : list Z) (f f' : nat) (u : Z) (acc r : list Z) :
  (f <= f')%nat -> build_path f par u acc = Returns r -> build_path f' par u acc = Returns r.
Proof.
  revert f' u acc. induction f as [|f IH]; intros f' u acc Hle H; [discriminate|].
  destruct f' as [|f']; [lia|]. simpl in *.
  destruct (u =? -1); [exact H|].
  bind_inv H. rewrite Ha. simpl. apply IH; [lia | exact H].
Qed.

Lemma reconstruct_mono (f f' : nat) (st : search) (t : Z) (r : list Z) :
  (f <= f')%nat -> reconstruct f st t = Returns r -> reconstruct f' st t = Returns r.
Proof.
  intros Hle H. unfold reconstruct in *. bind_inv H. rewrite Ha. simpl.
  destruct (a =? 0); [exact H|]. bind_inv H.
  rewrite (build_path_mono _ f f' _ _ _ Hle Ha0). exact H.
Qed.

Lemma bfs_shortest_path_mono (g : Graph) (f f' : nat) (s t : Z) (r : list Z) :
  (f <= f')%nat ->
  bfs_shortest_path f g s t = Returns r -> bfs_shortest_path f' g s t = Returns r.
Proof.
  intros Hle H. unfold bfs_shortest_path in *.
  bind_inv H. rewrite Ha. simpl. bind_inv H. rewrite Ha0. simpl.
  bind_inv H. rewrite Ha1. simpl. bind_inv H.
  rewrite (bfs_loop_mono _ _ f f' _ _ Hle Ha2). simpl.
  exact (reconstruct_mono f f' _ _ _ Hle H).
Qed.

Lemma dfs_shortest_path_mono (g : Graph) (f f' : nat) (s t : Z) (r : list Z) :
  (f <= f')%nat ->
  dfs_shortest_path f g s t = Returns r -> dfs_shortest_path f' g s t = Returns r.
Proof.
  intros Hle H. unfold dfs_shortest_path in *.
  bind_inv H. rewrite Ha. simpl. bind_inv H. rewrite Ha0. simpl.
  bind_inv H. rewrite Ha1. simpl. bind_inv H.
  rewrite (dfs_loop_mono _ _ _ f f' _ _ Hle Ha2). simpl.
  exact (reconstruct_mono f f' _ _ _ Hle H).
Qed.

(** ** The searches as a whole *)

Lemma num_vertices_eq (g : Graph) :
  wf_graph g -> Z.of_nat (length (get_adj_matrix g)) = vertices_ g.
Proof. intros Hg. exact (proj1 (wf_adj g Hg)). Qed.

(** With the source in range BFS runs its loop to an empty queue and ends
    in [reconstruct]. *)
Lemma bfs_search (g : Graph) (s t : Z) (fuel : nat) :
  wf_graph g -> in_range g s -> (Z.to_nat (vertices_ g) < fuel)%nat ->
  exists st, bfs_shortest_path fuel g s t = reconstruct fuel st t /\
    bfs_inv g s st /\ frontier st = [].
Proof.
  intros Hg Hs Hf. pose proof (wf_vertices g Hg) as HN. unfold in_range in Hs.
  unfold bfs_shortest_path. rewrite (num_vertices_eq g Hg).
  rewrite !vec_new_in by exact HN. simpl.
  rewrite vec_set_in by (rewrite length_replicate; lia). simpl.
  destruct (search_init g s Hs) as [HT Honly].
  destruct (bfs_loop_spec g s Hg fuel
              {| visited := <[Z.to_nat s := 1]> (replicate (Z.to_nat (vertices_ g)) 0);
                 parent := replicate (Z.to_nat (vertices_ g)) (-1);
                 frontier := [s] |}) as (st & E & Hinv & Hfr).
  - exists (fun _ => O), O. split; [exact HT|]. split; [|split].
    + exists [s], []. split; [reflexivity|]. split; [reflexivity|].
      intros x Hx. apply elem_of_nil in Hx. contradiction.
    + intros x _. lia.
    + intros x Hx Hnf. simpl in *. apply Honly in Hx. subst x.
      exfalso. apply Hnf. apply list_elem_of_here.
  - pose proof (ti_depth _ _ _ _ HT s (ti_source_visited _ _ _ _ HT)) as Hd.
    simpl in *. lia.
  - exists st. rewrite E. simpl. auto.
Qed.

(** With the source in range DFS runs its loop to an empty stack and ends
    in [reconstruct]. *)
Lemma dfs_search (g : Graph) (s t : Z) (fuel : nat) :
  wf_graph g -> in_range g s -> (Z.to_nat (vertices_ g) < fuel)%nat ->
  exists st, dfs_shortest_path fuel g s t = reconstruct fuel st t /\
    dfs_inv g s t st /\ frontier st = [].
Proof.
  intros Hg Hs Hf. pose proof (wf_vertices g Hg) as HN. unfold in_range in Hs.
  unfold dfs_shortest_path. rewrite (num_vertices_eq g Hg).
  rewrite !vec_new_in by exact HN. simpl.
  rewrite vec_set_in by (rewrite length_replicate; lia). simpl.
  destruct (search_init g s Hs) as [HT Honly].
  destruct (dfs_loop_spec g s t Hg fuel
              {| visited := <[Z.to_nat s := 1]> (replicate (Z.to_nat (vertices_ g)) 0);
                 parent := replicate (Z.to_nat (vertices_ g)) (-1);
                 frontier := [s] |}) as (st & E & Hinv & Hfr).
  - exists (fun _ => O). split; [exact HT|]. right.
    intros x Hx Hnf _. simpl in *. apply Honly in Hx. subst x.
    exfalso. apply Hnf. apply list_elem_of_here.
  - pose proof (ti_depth _ _ _ _ HT s (ti_source_visited _ _ _ _ HT)) as Hd.
    simpl in *. lia.
  - exists st. rewrite E. simpl. auto.
Qed.

(** With the source out of range both searches write [visited[source]]
    out of bounds before anything else. *)
Lemma search_source_out (g : Graph) (s t : Z) (fuel : nat) :
  wf_graph g -> ~ in_range g s ->
  bfs_shortest_path fuel g s t = Undefined /\ dfs_shortest_path fuel g s t = Undefined.
Proof.
  intros Hg Hs. pose proof (wf_vertices g Hg) as HN. unfold in_range in Hs.
  unfold bfs_shortest_path, dfs_shortest_path. rewrite (num_vertices_eq g Hg).
  rewrite !vec_new_in by exact HN. simpl.
  rewrite vec_set_out by (rewrite length_replicate; lia). simpl. auto.
Qed.

(** With the target out of range [visited[target]] is read out of bounds. *)
Lemma reconstruct_target_out (g : Graph) (s t : Z) (st : search) (d : Z -> nat) (fuel : nat) :
  tree_inv g s st d -> ~ in_range g t -> reconstruct fuel st t = Undefined.
Proof.
  intros HT Ht. unfold reconstruct. unfold in_range in Ht.
  rewrite vec_get_out; [reflexivity|]. rewrite (ti_visited_len _ _ _ _ HT). exact Ht.
Qed.

Lemma is_path_nonempty (g : Graph) (s t : Z) (p : list Z) : is_path g s t p -> p <> [].
Proof. intros [H _] ->. discriminate. Qed.

(** BFS for a sufficient fuel. *)
Lemma bfs_run (g : Graph) (s t : Z) (fuel : nat) :
  wf_graph g -> in_range g s -> in_range g t -> (Z.to_nat (vertices_ g) < fuel)%nat ->
  exists path, bfs_shortest_path fuel g s t = Returns path /\
    (path <> [] <-> reachable g s t) /\
    (path <> [] ->
       is_path g s t path /\
       forall p, is_path g s t p -> (length path <= length p)%nat).
Proof.
  intros Hg Hs Ht Hf.
  destruct (bfs_search g s t fuel Hg Hs Hf) as (st & E & (d & L & HT & _ & _ & Hcl) & Hfr).
  destruct (reconstruct_spec g s st d t fuel HT Ht Hf) as (path & Ep & Hno & Hyes).
  assert (forall p, is_path g s t p ->
            rd (visited st) t <> 0 /\ (S (d t) <= length p)%nat) as Hreach.
  { intros p (Hh & Hl & Hc).
    destruct (path_closed g (fun x => rd (visited st) x <> 0) d) with (p := p) (x := s) (t := t)
      as [Hvt Hdt]; try assumption.
    - intros x y Hx Hxy. apply (Hcl x Hx); [|exact Hxy].
      rewrite Hfr. apply not_elem_of_nil.
    - exact (ti_source_visited _ _ _ _ HT).
    - split; [exact Hvt|]. rewrite (ti_source_depth _ _ _ _ HT) in Hdt. exact Hdt. }
  exists path. split; [rewrite E; exact Ep|].
  destruct (decide (rd (visited st) t = 0)) as [Hv|Hv].
  - rewrite (Hno Hv). split; [|congruence]. split; [congruence|].
    intros [p Hp]. destruct (Hreach p Hp) as [H _]. congruence.
  - destruct (Hyes Hv) as [Hlen Hpath]. split; [split|].
    + intros _. exists path. exact Hpath.
    + intros _. exact (is_path_nonempty g s t path Hpath).
    + intros _. split; [exact Hpath|]. intros p Hp.
      destruct (Hreach p Hp) as [_ H]. lia.
Qed.

(** DFS for a sufficient fuel. *)
Lemma dfs_run (g : Graph) (s t : Z) (fuel : nat) :
  wf_graph g -> in_range g s -> in_range g t -> (Z.to_nat (vertices_ g) < fuel)%nat ->
  exists path, dfs_shortest_path fuel g s t = Returns path /\
    (path <> [] <-> reachable g s t) /\
    (path <> [] -> is_path g s t path).
Proof.
  intros Hg Hs Ht Hf.
  destruct (dfs_search g s t fuel Hg Hs Hf) as (st & E & (d & HT & Hdone) & Hfr).
  destruct (reconstruct_spec g s st d t fuel HT Ht Hf) as (path & Ep & Hno & Hyes).
  assert (forall p, is_path g s t p -> rd (visited st) t <> 0) as Hreach.
  { intros p (Hh & Hl & Hc). destruct Hdone as [Hdone|Hex]; [exact Hdone|].
    destruct (path_closed g (fun x => rd (visited st) x <> 0) (fun _ => O))
      with (p := p) (x := s) (t := t) as [Hvt _]; try assumption.
    - intros x y Hx Hxy. split; [|lia]. apply (Hex x Hx); [|tauto|exact Hxy].
      rewrite Hfr. apply not_elem_of_nil.
    - exact (ti_source_visited _ _ _ _ HT). }
  exists path. split; [rewrite E; exact Ep|].
  destruct (decide (rd (visited st) t = 0)) as [Hv|Hv].
  - rewrite (Hno Hv). split; [|congruence]. split; [congruence|].
    intros [p Hp]. specialize (Hreach p Hp). congruence.
  - destruct (Hyes Hv) as [Hlen Hpath]. split; [split|].
    + intros _. exists path. exact Hpath.
    + intros _. exact (is_path_nonempty g s t path Hpath).
    + intros _. exact Hpath.
Qed.

Lemma square_graph_built :
  (let* g0 := Graph_new 4 false in
   add_edges g0 [(0, 1, 5); (1, 2, 3); (0, 2, 1); (2, 3, 4)]) = Returns square_graph.
Proof. reflexivity. Qed.

Lemma pentagon_graph_built :
  (let* g0 := Graph_new 5 false in
   add_edges g0 [(0, 1, 1); (0, 2, 1); (2, 3, 1); (1, 4, 1); (3, 4, 1)])
  = Returns pentagon_graph.
Proof. reflexivity. Qed.

(** ** The generator *)

Lemma add_edge_directed (g g' : Graph) (u v w : Z) :
  add_edge g u v w = Returns g' -> directed_ g' = directed_ g.
Proof.
  intros H. unfold add_edge in H. repeat bind_inv H. injection H as <-. reflexivity.
Qed.

Lemma gen_step_directed (rand : nat -> Z) (directed : bool) (mi mo N cap : Z)
    (st st' : gen) (b : bool) :
  gen_step rand directed mi mo N cap st = Returns (st', b) ->
  directed_ (gen_g st') = directed_ (gen_g st).
Proof.
  intros H. unfold gen_step in H. repeat bind_inv H.
  repeat match type of H with
         | (if ?c then _ else _) = _ => destruct c
         | bind _ _ = _ => bind_inv H
         end;
    try (injection H as <- _; reflexivity).
  simpl in *. injection H as <- _. simpl. eapply add_edge_directed. eassumption.
Qed.

Lemma gen_loop_directed (fuel : nat) (rand : nat -> Z) (directed : bool) (mi mo N cap : Z)
    (st st' : gen) :
  gen_loop fuel rand directed mi mo N cap st = Returns st' ->
  directed_ (gen_g st') = directed_ (gen_g st).
Proof.
  revert st. induction fuel as [|fuel IH]; intros st H; [discriminate|].
  simpl in H. destruct (0 <? num_edges st); [|injection H as <-; reflexivity].
  bind_inv H. destruct a as [st1 b]. simpl in H.
  pose proof (gen_step_directed _ _ _ _ _ _ _ _ _ Ha) as Hd.
  destruct b; [injection H as <-; exact Hd|].
  rewrite (IH st1 H). exact Hd.
Qed.

(** ** int arithmetic *)

Lemma wrap32_range (x : Z) : INT_MIN <= wrap32 x <= INT_MAX.
Proof.
  unfold INT_MIN, INT_MAX, wrap32.
  pose proof (Z.mod_pos_bound (x + 2 ^ 31) (2 ^ 32) ltac:(lia)). lia.
Qed.

Lemma wrap32_small (x : Z) : INT_MIN <= x <= INT_MAX -> wrap32 x = x.
Proof.
  unfold INT_MIN, INT_MAX, wrap32. intros Hx.
  rewrite Z.mod_small by lia. lia.
Qed.

(** A value drawn by [rand() % (hi - lo + 1) + lo] is an int. *)
Lemma rand_between_Returns (r lo hi n : Z) :
  rand_between r lo hi = Returns n -> INT_MIN <= n <= INT_MAX.
Proof.
  intros H. unfold rand_between in H. bind_inv H. injection H as <-.
  apply wrap32_range.
Qed.

(** Without overflow the value drawn is the mathematical one. *)
Lemma rand_between_in_range (r lo hi : Z) :
  INT_MIN <= hi - lo -> hi - lo + 1 <= INT_MAX -> hi - lo + 1 <> 0 ->
  INT_MIN <= Z.rem r (hi - lo + 1) + lo <= INT_MAX ->
  rand_between r lo hi = Returns (Z.rem r (hi - lo + 1) + lo).
Proof.
  intros H1 H2 H3 H4. unfold rand_between, int_add, int_sub, int_rem.
  rewrite (wrap32_small (hi - lo)) by lia.
  rewrite (wrap32_small (hi - lo + 1)) by lia.
  destruct (Z.eqb_spec (hi - lo + 1) 0); [contradiction|]. simpl.
  rewrite wrap32_small by exact H4. reflexivity.
Qed.

Lemma int_sub_pred (n : Z) : 0 <= n <= INT_MAX -> int_sub n 1 = n - 1.
Proof. intros Hn. unfold int_sub. apply wrap32_small. unfold INT_MIN, INT_MAX in *. lia. Qed.

(** [generate_graph] once its two numbers are drawn. *)
Lemma generate_graph_drawn (fuel : nat) (rand : nat -> Z)
    (min_v max_v min_e max_e mepv : Z) (directed : bool) (mi mo N E : Z) :
  rand_between (rand 0%nat) min_v max_v = Returns N ->
  rand_between (rand 1%nat) min_e max_e = Returns E ->
  0 <= N ->
  generate_graph fuel rand min_v max_v min_e max_e mepv directed mi mo
  = bind (Graph_new N false) (fun g =>
      bind (gen_loop fuel rand directed mi mo N (N - 1)
              {| gen_g := g; num_edges := E;
                 edges_per_vertex := replicate (Z.to_nat N) 0;
                 incoming_edges_per_vertex := replicate (Z.to_nat N) 0;
                 outgoing_edges_per_vertex := replicate (Z.to_nat N) 0;
                 calls := 2 |})
           (fun st => Returns (gen_g st))).
Proof.
  intros HN HE Hpos. unfold generate_graph. rewrite HN. cbn [bind].
  destruct (Graph_new N false) as [g| | |]; cbn [bind]; try reflexivity.
  rewrite HE. cbn [bind]. rewrite !vec_new_in by exact Hpos. cbn [bind].
  rewrite int_sub_pred; [reflexivity|].
  pose proof (rand_between_Returns _ _ _ _ HN). lia.
Qed.

(** What a call of [generate_graph] that returns has done. *)
Lemma generate_graph_Returns (fuel : nat) (rand : nat -> Z)
    (min_v max_v min_e max_e mepv : Z) (directed : bool) (mi mo : Z) (g : Graph) :
  generate_graph fuel rand min_v max_v min_e max_e mepv directed mi mo = Returns g ->
  exists N E g0 stf,
    rand_between (rand 0%nat) min_v max_v = Returns N /\
    rand_between (rand 1%nat) min_e max_e = Returns E /\
    0 <= N /\
    Graph_new N false = Returns g0 /\
    gen_loop fuel rand directed mi mo N (N - 1)
      {| gen_g := g0; num_edges := E;
         edges_per_vertex := replicate (Z.to_nat N) 0;
         incoming_edges_per_vertex := replicate (Z.to_nat N) 0;
         outgoing_edges_per_vertex := replicate (Z.to_nat N) 0;
         calls := 2 |} = Returns stf /\
    g = gen_g stf.
Proof.
  intros H. pose proof H as H'. unfold generate_graph in H'.
  bind_inv_as H' nv HN. bind_inv_as H' g0 Hg0. bind_inv_as H' ne HE.
  clear H'.
  assert (0 <= nv) as Hpos.
  { destruct (Z.ltb_spec nv 0) as [Hneg|]; [|assumption].
    rewrite Graph_new_negative in Hg0 by exact Hneg. discriminate. }
  rewrite (generate_graph_drawn _ _ _ _ _ _ _ _ _ _ nv ne HN HE Hpos) in H.
  rewrite Hg0 in H. cbn [bind] in H. bind_inv_as H stf Hloop. injection H as <-.
  exists nv, ne, g0, stf. repeat split; assumption.
Qed.

(** Whatever [directed] is, the graph returned is undirected. *)
Lemma generate_graph_undirected (fuel : nat) (rand : nat -> Z)
    (min_v max_v min_e max_e mepv : Z) (directed : bool) (mi mo : Z) (g : Graph) :
  generate_graph fuel rand min_v max_v min_e max_e mepv directed mi mo = Returns g ->
  directed_ g = false.
Proof.
  intros H.
  destruct (generate_graph_Returns _ _ _ _ _ _ _ _ _ _ _ H)
    as (N & E & g0 & stf & _ & _ & _ & Hg0 & Hloop & ->).
  rewrite (gen_loop_directed _ _ _ _ _ _ _ _ _ Hloop). simpl.
  unfold Graph_new in Hg0. repeat bind_inv Hg0. injection Hg0 as <-. reflexivity.
Qed.

Lemma sumZ_insert (l : list Z) (i : nat) (x y : Z) :
  l !! i = Some x -> sumZ (<[i := y]> l) = sumZ l - x + y.
Proof.
  revert i. induction l as [|a l IH]; intros i Hi; [discriminate|].
  destruct i as [|i]; simpl in *.
  - injection Hi as ->. lia.
  - rewrite (IH i Hi). lia.
Qed.

Lemma sumZ_bound (l : list Z) (c : Z) :
  Forall (fun x => x <= c) l -> sumZ l <= Z.of_nat (length l) * c.
Proof.
  induction 1 as [|x l Hx Hl IH]; simpl; [lia|].
  replace (Z.of_nat (S (length l)) * c) with (c + Z.of_nat (length l) * c) by lia. lia.
Qed.

Lemma sumZ_replicate (n : nat) : sumZ (replicate n 0) = 0.
Proof. induction n as [|n IH]; simpl; [reflexivity | exact IH]. Qed.

Lemma vec_incr_in (l : list Z) (i : Z) :
  0 <= i < Z.of_nat (length l) ->
  vec_incr l i = Returns (<[Z.to_nat i := rd l i + 1]> l).
Proof.
  intros Hi. unfold vec_incr. rewrite rd_in by exact Hi. simpl.
  apply vec_set_in. exact Hi.
Qed.

Lemma int_rem_in (a b : Z) :
  0 <= a -> 0 < b -> exists r, int_rem a b = Returns r /\ 0 <= r < b.
Proof.
  intros Ha Hb. exists (Z.rem a b). unfold int_rem.
  destruct (Z.eqb_spec b 0); [lia|]. split; [reflexivity|].
  apply Z.rem_bound_pos; lia.
Qed.

Section Generator.
Variable rand : nat -> Z.
Variable directed : bool.
Variables max_incoming_edges max_outgoing_edges : Z.
Variables N E : Z.
Hypothesis Hrand : forall k, 0 <= rand k.
Hypothesis HN : 1 <= N.
Hypothesis HE : N * (N - 1) / 2 < E.

Lemma gen_inv_pending (st : gen) : gen_inv N E st -> 0 < num_edges st.
Proof.
  intros [_ _ Hl _ _ Hcap Hsum]. pose proof (sumZ_bound _ _ Hcap) as Hb.
  rewrite Hl in Hb. revert HE Hb. generalize (N * (N - 1)). intros a HE Hb.
  pose proof (Z.div_mod a 2 ltac:(lia)) as Hdm.
  pose proof (Z.mod_pos_bound a 2 ltac:(lia)) as Hm. lia.
Qed.

Lemma degree_capped_returns (st : gen) (u v : Z) :
  gen_inv N E st -> 0 <= u < N -> 0 <= v < N ->
  exists b, degree_capped directed max_incoming_edges max_outgoing_edges st u v = Returns b.
Proof.
  intros HI Hu Hv. unfold degree_capped. destruct directed; [|eauto].
  rewrite rd_in by (rewrite (gi_len_in _ _ _ HI); exact Hv). simpl.
  destruct (_ <=? _); [eauto|].
  rewrite rd_in by (rewrite (gi_len_out _ _ _ HI); exact Hu). simpl. eauto.
Qed.

(** An iteration keeps the invariant and does not leave the loop. *)
Lemma gen_step_inv (st : gen) :
  gen_inv N E st ->
  exists st', gen_step rand directed max_incoming_edges max_outgoing_edges N (N - 1) st
              = Returns (st', false) /\ gen_inv N E st'.
Proof.
  intros HI.
  destruct (int_rem_in (rand (calls st)) N (Hrand _) ltac:(lia)) as (u & Eu & Hu).
  destruct (int_rem_in (rand (S (calls st))) N (Hrand _) ltac:(lia)) as (v & Ev & Hv).
  unfold gen_step. rewrite Eu. simpl. rewrite Ev. simpl.
  set (st0 := {| gen_g := gen_g st; num_edges := num_edges st;
                 edges_per_vertex := edges_per_vertex st;
                 incoming_edges_per_vertex := incoming_edges_per_vertex st;
                 outgoing_edges_per_vertex := outgoing_edges_per_vertex st;
                 calls := S (S (calls st)) |}).
  assert (gen_inv N E st0) as HI0 by (destruct HI; constructor; assumption).
  destruct HI as [Hwf Hvert Hl Hli Hlo Hcap Hsum].
  destruct (Z.eqb_spec u v) as [Euv|Euv]; [eauto|].
  rewrite rd_in by lia. simpl.
  destruct (Z.leb_spec (N - 1) (rd (edges_per_vertex st) u)) as [Hcu|Hcu]; [eauto|].
  rewrite rd_in by lia. simpl.
  destruct (Z.leb_spec (N - 1) (rd (edges_per_vertex st) v)) as [Hcv|Hcv]; [eauto|].
  destruct (degree_capped_returns st0 u v HI0 Hu Hv) as [b Eb].
  rewrite Eb. simpl. destruct b; [eauto|].
  unfold get_adj_matrix. simpl.
  rewrite (mat_get_in N N) by (rewrite <- ?Hvert; try apply (wf_adj _ Hwf); lia). simpl.
  destruct (entry (adj_matrix_ (gen_g st)) u v =? 0); simpl; [|eauto].
  destruct (add_edge_spec (gen_g st) u v (Z.rem (rand (S (S (calls st)))) 100 + 1) Hwf)
    as (g' & lu & Eg' & Hwf' & Hvert' & _).
  { unfold in_range. lia. }
  { unfold in_range. lia. }
  rewrite Eg'. simpl.
  rewrite vec_incr_in by lia. simpl.
  rewrite vec_incr_in by (rewrite length_insert; lia). simpl.
  assert (exists inc', (if directed then vec_incr (incoming_edges_per_vertex st) v
                        else Returns (incoming_edges_per_vertex st)) = Returns inc' /\
                       Z.of_nat (length inc') = N) as (inc' & Einc & Hlinc).
  { destruct directed; [|eauto]. rewrite vec_incr_in by lia.
    eexists. split; [reflexivity|]. rewrite length_insert. exact Hli. }
  assert (exists out', (if directed then vec_incr (outgoing_edges_per_vertex st) u
                        else Returns (outgoing_edges_per_vertex st)) = Returns out' /\
                       Z.of_nat (length out') = N) as (out' & Eout & Hlout).
  { destruct directed; [|eauto]. rewrite vec_incr_in by lia.
    eexists. split; [reflexivity|]. rewrite length_insert. exact Hlo. }
  rewrite Einc. simpl. rewrite Eout. simpl.
  assert (rd (<[Z.to_nat u := rd (edges_per_vertex st) u + 1]> (edges_per_vertex st)) v
          = rd (edges_per_vertex st) v) as Hrv.
  { rewrite rd_set by lia. goal_decide; [congruence | reflexivity]. }
  rewrite Hrv.
  assert (gen_inv N E
            {| gen_g := g'; num_edges := num_edges st - 1;
               edges_per_vertex :=
                 <[Z.to_nat v := rd (edges_per_vertex st) v + 1]>
                   (<[Z.to_nat u := rd (edges_per_vertex st) u + 1]> (edges_per_vertex st));
               incoming_edges_per_vertex := inc';
               outgoing_edges_per_vertex := out';
               calls := S (S (S (calls st))) |}) as HI'.
  { constructor; simpl; try assumption.
    - congruence.
    - rewrite !length_insert. exact Hl.
    - apply Forall_insert; [apply Forall_insert; [exact Hcap|]|]; lia.
    - assert (edges_per_vertex st !! Z.to_nat u = Some (rd (edges_per_vertex st) u)) as Lu.
      { apply (vec_get_Returns (edges_per_vertex st) u). apply rd_in. lia. }
      assert (<[Z.to_nat u := rd (edges_per_vertex st) u + 1]> (edges_per_vertex st)
                !! Z.to_nat v = Some (rd (edges_per_vertex st) v)) as Lv.
      { rewrite list_lookup_insert_ne by lia.
        apply (vec_get_Returns (edges_per_vertex st) v). apply rd_in. lia. }
      rewrite (sumZ_insert _ _ _ _ Lv), (sumZ_insert _ _ _ _ Lu). lia. }
  pose proof (gen_inv_pending _ HI') as Hpos. simpl in Hpos.
  destruct (Z.eqb_spec (num_edges st - 1) 0); [lia|]. eauto.
Qed.

(** The loop never ends. *)
Lemma gen_loop_diverges (fuel : nat) (st : gen) :
  gen_inv N E st ->
  gen_loop fuel rand directed max_incoming_edges max_outgoing_edges N (N - 1) st
  = OutOfFuel.
Proof.
  revert st. induction fuel as [|fuel IH]; intros st HI; [reflexivity|].
  simpl. pose proof (gen_inv_pending st HI) as Hpos.
  destruct (Z.ltb_spec 0 (num_edges st)); [|lia].
  destruct (gen_step_inv st HI) as (st' & E' & HI').
  rewrite E'. simpl. exact (IH st' HI').
Qed.
End Generator.

(** When more edges are requested than [num_vertices * (num_vertices - 1) / 2],
    [generate_graph] never returns. *)
Lemma generate_graph_never_returns (rand : nat -> Z)
    (min_v max_v min_e max_e mepv : Z) (directed : bool) (mi mo N E : Z) :
  (forall k, 0 <= rand k) ->
  rand_between (rand 0%nat) min_v max_v = Returns N ->
  rand_between (rand 1%nat) min_e max_e = Returns E ->
  1 <= N -> N * (N - 1) / 2 < E ->
  diverges (fun fuel =>
    generate_graph fuel rand min_v max_v min_e max_e mepv directed mi mo).
Proof.
  intros Hrand Hv He HN HE fuel.
  rewrite (generate_graph_drawn _ _ _ _ _ _ _ _ _ _ N E Hv He) by lia.
  destruct (Graph_new_spec N false ltac:(lia)) as (g & Eg & Hwf & Hvert & _ & _).
  rewrite Eg. cbn [bind].
  rewrite (gen_loop_diverges rand directed mi mo N E Hrand HN HE); [reflexivity|].
  constructor; simpl; try assumption; try (rewrite length_replicate; lia).
  - apply Forall_replicate. lia.
  - rewrite sumZ_replicate. lia.
Qed.

Lemma rand_example_nonneg (k : nat) : 0 <= rand_example k.
Proof.
  unfold rand_example. do 5 (destruct k as [|k]; [simpl; lia|]).
  destruct k; simpl; lia.
Qed.

Lemma rand_of_nat_nonneg (k : nat) : 0 <= Z.of_nat k.
Proof. lia. Qed.

(** ** More on the Graph class *)

Lemma add_edge_symmetric (g g' : Graph) (u v w : Z) :
  wf_graph g -> directed_ g = false -> symmetric (adj_matrix_ g) ->
  add_edge g u v w = Returns g' -> symmetric (adj_matrix_ g').
Proof.
  intros Hg Hd Hsym E. destruct (add_edge_Returns g g' u v w Hg E) as [Hu Hv].
  destruct (add_edge_spec g u v w Hg Hu Hv) as (h & lu & E1 & _ & _ & _ & _ & _ & _ & _ & R).
  rewrite E1 in E. injection E as <-.
  intros a b. rewrite !R, (Hsym a b). clear R.
  repeat goal_decide; try reflexivity; exfalso; intuition congruence.
Qed.

Lemma add_edges_symmetric (es : list (Z * Z * Z)) (g g' : Graph) :
  wf_graph g -> directed_ g = false -> symmetric (adj_matrix_ g) ->
  add_edges g es = Returns g' -> symmetric (adj_matrix_ g').
Proof.
  revert g. induction es as [|[[u v] w] es IH]; intros g Hg Hd Hsym H; simpl in H.
  - injection H as <-. exact Hsym.
  - bind_inv H. destruct (add_edge_Returns g a u v w Hg Ha) as [Hu Hv].
    destruct (add_edge_spec g u v w Hg Hu Hv) as (h & lu & E1 & Hh & _ & Hdh & _).
    pose proof (add_edge_symmetric g a u v w Hg Hd Hsym Ha) as Hs.
    rewrite E1 in Ha. injection Ha as <-.
    apply (IH h Hh); [congruence | exact Hs | exact H].
Qed.

(** An undirected graph built by the constructor and [add_edge] has a
    symmetric adjacency matrix. *)
Lemma constructed_symmetric (n : Z) (es : list (Z * Z * Z)) (g : Graph) :
  (let* g0 := Graph_new n false in add_edges g0 es) = Returns g ->
  symmetric (adj_matrix_ g).
Proof.
  intros H. bind_inv H. destruct (Z.ltb_spec n 0) as [Hn|Hn].
  - rewrite Graph_new_negative in Ha by assumption. discriminate.
  - destruct (Graph_new_spec n false Hn) as (g0 & E0 & Hg0 & _ & Hd & _ & _ & Hz).
    rewrite E0 in Ha. injection Ha as <-.
    apply (add_edges_symmetric es g0 g Hg0 Hd); [|exact H].
    intros x y. rewrite !Hz. reflexivity.
Qed.

Lemma add_edges_adj_list_exact (es : list (Z * Z * Z)) (g g' : Graph) (x : Z)
    (l : list (Z * Z)) :
  wf_graph g -> add_edges g es = Returns g' ->
  vec_get (adj_list_ g) x = Returns l ->
  vec_get (adj_list_ g') x = Returns (l ++ calls_from x es).
Proof.
  revert g l. induction es as [|[[u v] w] es IH]; intros g l Hg H Hl; simpl in H.
  - injection H as <-. simpl. rewrite app_nil_r. exact Hl.
  - bind_inv H. pose proof (add_edge_adj_list g a u v w x l Hg Ha Hl) as Hl1.
    destruct (add_edge_Returns g a u v w Hg Ha) as [Hu Hv].
    destruct (add_edge_spec g u v w Hg Hu Hv) as (g1 & lu & E & Hg1 & _).
    rewrite E in Ha. injection Ha as <-.
    rewrite (IH g1 _ Hg1 H Hl1). simpl.
    destruct (Z.eqb_spec u x) as [->|Hux].
    + destruct (decide (x = x)); [|congruence]. rewrite <- app_assoc. reflexivity.
    + destruct (decide (x = u)); [congruence | reflexivity].
Qed.

Lemma add_edges_app (es1 es2 : list (Z * Z * Z)) (g : Graph) :
  add_edges g (es1 ++ es2) = (let* g1 := add_edges g es1 in add_edges g1 es2).
Proof.
  revert g. induction es1 as [|[[u v] w] es1 IH]; intros g; simpl; [reflexivity|].
  destruct (add_edge g u v w) as [g1| | |]; simpl; [apply IH | reflexivity..].
Qed.

Lemma Graph_new_Returns (n : Z) (d : bool) (g : Graph) :
  Graph_new n d = Returns g ->
  0 <= n /\
  g = {| vertices_ := n; directed_ := d;
         adj_matrix_ := replicate (Z.to_nat n) (replicate (Z.to_nat n) 0);
         adj_list_ := replicate (Z.to_nat n) [];
         edges_ := []; inc_matrix_ := [] |}.
Proof.
  intros H. destruct (Z.ltb_spec n 0) as [Hn|Hn].
  - rewrite Graph_new_negative in H by assumption. discriminate.
  - split; [exact Hn|]. unfold Graph_new in H.
    repeat (rewrite vec_new_in in H by assumption; simpl in H).
    injection H as <-. reflexivity.
Qed.

(** ** More on the searches *)

(** The vertices met when following the parent links from [x] have the
    depths [d x], [d x - 1], ..., 0. *)
Lemma build_path_depths (g : Graph) (s : Z) (st : search) (d : Z -> nat) :
  tree_inv g s st d ->
  forall (k : nat) (x : Z) (fuel : nat) (acc : list Z),
    rd (visited st) x <> 0 -> d x = k -> (S k < fuel)%nat ->
    exists l, build_path fuel (parent st) x acc = Returns (acc ++ l) /\
      length l = S k /\
      forall i y, l !! i = Some y -> rd (visited st) y <> 0 /\ (d y + i = k)%nat.
Proof.
  intros HT k. induction k as [|k IH]; intros x fuel acc Hx Hd Hf.
  - assert (x = s) as ->.
    { destruct (decide (x = s)) as [E|E]; [exact E|].
      destruct (ti_parent _ _ _ _ HT x Hx E) as (_ & _ & H). lia. }
    pose proof (ti_source_range _ _ _ _ HT) as Hs. unfold in_range in Hs.
    destruct fuel as [|[|fuel]]; try lia. exists [s]. simpl.
    destruct (Z.eqb_spec s (-1)); [lia|].
    rewrite rd_in by (rewrite (ti_parent_len _ _ _ _ HT); exact Hs).
    rewrite (ti_source_parent _ _ _ _ HT). simpl.
    split; [reflexivity|]. split; [reflexivity|].
    intros i y Hi. destruct i as [|i]; [|discriminate].
    injection Hi as <-. split; [exact Hx | lia].
  - assert (x <> s) as Hxs.
    { intros ->. rewrite (ti_source_depth _ _ _ _ HT) in Hd. lia. }
    destruct (ti_parent _ _ _ _ HT x Hx Hxs) as (Hp & Hpe & Hpd).
    pose proof (visited_in_range g s st d x HT Hx) as Hxr. unfold in_range in Hxr.
    destruct fuel as [|fuel]; [lia|].
    destruct (IH (rd (parent st) x) fuel (acc ++ [x]) Hp ltac:(lia) ltac:(lia))
      as (l & El & Hl & Hdepth).
    exists (x :: l). simpl. destruct (Z.eqb_spec x (-1)); [lia|].
    rewrite rd_in by (rewrite (ti_parent_len _ _ _ _ HT); exact Hxr). simpl.
    rewrite El, <- app_assoc. split; [reflexivity|]. split; [lia|].
    intros i y Hi. destruct i as [|i]; simpl in Hi.
    + injection Hi as <-. split; [exact Hx | lia].
    + destruct (Hdepth i y Hi) as [Hy Hdy]. split; [exact Hy | lia].
Qed.

(** The sequence [reconstruct] returns repeats no vertex. *)
Lemma reconstruct_simple (g : Graph) (s : Z) (st : search) (d : Z -> nat) (t : Z)
    (fuel : nat) :
  tree_inv g s st d -> in_range g t -> (Z.to_nat (vertices_ g) < fuel)%nat ->
  exists path, reconstruct fuel st t = Returns path /\
    NoDup path /\ Forall (in_range g) path /\
    (length path <= Z.to_nat (vertices_ g))%nat.
Proof.
  intros HT Ht Hf. unfold reconstruct. unfold in_range in Ht.
  rewrite rd_in by (rewrite (ti_visited_len _ _ _ _ HT); exact Ht). simpl.
  destruct (Z.eqb_spec (rd (visited st) t) 0) as [E|E].
  - exists []. split; [reflexivity|]. split; [constructor|]. split; [constructor|simpl; lia].
  - pose proof (ti_depth _ _ _ _ HT t E) as Hd.
    destruct (build_path_depths g s st d HT (d t) t fuel [] E eq_refl ltac:(lia))
      as (l & El & Hl & Hdepth).
    rewrite El. simpl. exists (rev l). split; [reflexivity|]. split; [|split].
    + rewrite <- (Permutation_rev l). apply NoDup_alt. intros i j y Hi Hj.
      destruct (Hdepth i y Hi) as [_ H1]. destruct (Hdepth j y Hj) as [_ H2]. lia.
    + apply Forall_forall. intros y Hy. apply list_elem_of_In in Hy.
      apply in_rev in Hy. apply list_elem_of_In in Hy.
      apply list_elem_of_lookup in Hy as [i Hi].
      destruct (Hdepth i y Hi) as [Hvy _].
      exact (visited_in_range g s st d y HT Hvy).
    + rewrite length_rev. lia.
Qed.

Lemma is_path_single (g : Graph) (s t : Z) (p : list Z) :
  is_path g s t p -> length p = 1%nat -> s = t /\ p = [s].
Proof.
  intros (Hh & Hl & _) Hlen. destruct p as [|a [|b p]]; try discriminate.
  simpl in Hh, Hl. injection Hh as ->. injection Hl as ->. auto.
Qed.

Lemma is_path_pair (g : Graph) (s t : Z) (p : list Z) :
  is_path g s t p -> s <> t -> (length p <= 2)%nat -> p = [s; t].
Proof.
  intros (Hh & Hl & _) Hst Hlen. destruct p as [|a [|b [|c p]]]; simpl in *; try lia.
  - discriminate.
  - injection Hh as ->. injection Hl as ->. congruence.
  - injection Hh as ->. injection Hl as ->. reflexivity.
Qed.

Lemma is_path_edge (g : Graph) (s t : Z) : edge g s t -> is_path g s t [s; t].
Proof.
  intros He. split; [reflexivity|]. split; [reflexivity|].
  apply chain_cons. split; [exact He | reflexivity].
Qed.

(** A path of a graph with a symmetric matrix, read backwards. *)
Lemma chain_rev (g : Graph) (p : list Z) :
  symmetric (adj_matrix_ g) -> chain g p = true -> chain g (rev p) = true.
Proof.
  intros Hsym. induction p as [|x p IH]; intros Hc; [reflexivity|].
  destruct p as [|y p]; [reflexivity|].
  apply chain_cons in Hc as [Hxy Hc]. simpl rev at 1.
  change (rev (x :: y :: p)) with (rev (y :: p) ++ [x]).
  apply chain_snoc with y; [exact (IH Hc)| |].
  - simpl. apply last_snoc.
  - unfold edge. rewrite Hsym. exact Hxy.
Qed.

Lemma is_path_rev (g : Graph) (s t : Z) (p : list Z) :
  symmetric (adj_matrix_ g) -> is_path g s t p -> is_path g t s (rev p).
Proof.
  intros Hsym (Hh & Hl & Hc). split; [|split].
  - rewrite <- (rev_involutive p) in Hl.
    destruct (rev p) as [|a q] eqn:E; [discriminate|].
    simpl in Hl. rewrite last_snoc in Hl. exact Hl.
  - destruct p as [|a q]; [discriminate|]. simpl in Hh. injection Hh as ->.
    simpl. apply last_snoc.
  - exact (chain_rev g p Hsym Hc).
Qed.

(** ** The searches read the zero pattern only *)

Lemma vec_get_Forall2 {A B : Type} (P : A -> B -> Prop) (l : list A) (k : list B) (i : Z) :
  Forall2 P l k ->
  (vec_get l i = Undefined /\ vec_get k i = Undefined) \/
  (exists x y, vec_get l i = Returns x /\ vec_get k i = Returns y /\ P x y).
Proof.
  intros H. pose proof (Forall2_length _ _ _ H) as Hlen.
  destruct (decide (0 <= i < Z.of_nat (length l))) as [Hi|Hi].
  - right. destruct (vec_get_in l i Hi) as [x Hx].
    destruct (vec_get_in k i ltac:(lia)) as [y Hy].
    exists x, y. split; [exact Hx|]. split; [exact Hy|].
    apply vec_get_Returns in Hx as [_ Hx]. apply vec_get_Returns in Hy as [_ Hy].
    exact (Forall2_lookup_lr _ _ _ _ _ _ H Hx Hy).
  - left. split; apply vec_get_out; lia.
Qed.

Lemma mat_get_pattern (m m' : list (list Z)) (u v : Z) :
  same_pattern m m' ->
  (mat_get m u v = Undefined /\ mat_get m' u v = Undefined) \/
  (exists a b, mat_get m u v = Returns a /\ mat_get m' u v = Returns b /\
     (a =? 0) = (b =? 0)).
Proof.
  intros H. unfold mat_get.
  destruct (vec_get_Forall2 _ m m' u H) as [[E1 E2]|(row & row' & E1 & E2 & Hrow)];
    rewrite E1, E2; simpl; [left; auto|].
  exact (vec_get_Forall2 _ row row' v Hrow).
Qed.

Lemma bfs_visit_pattern (g g' : Graph) (u v : Z) (st : search) :
  same_pattern (adj_matrix_ g) (adj_matrix_ g') ->
  bfs_visit g u v st = bfs_visit g' u v st.
Proof.
  intros H. unfold bfs_visit, get_adj_matrix.
  destruct (mat_get_pattern _ _ u v H) as [[E1 E2]|(a & b & E1 & E2 & Hab)];
    rewrite E1, E2; simpl; [reflexivity|]. rewrite Hab. reflexivity.
Qed.

Lemma dfs_visit_pattern (g g' : Graph) (u t v : Z) (st : search) :
  same_pattern (adj_matrix_ g) (adj_matrix_ g') ->
  dfs_visit g u t v st = dfs_visit g' u t v st.
Proof.
  intros H. unfold dfs_visit, get_adj_matrix.
  destruct (mat_get_pattern _ _ u v H) as [[E1 E2]|(a & b & E1 & E2 & Hab)];
    rewrite E1, E2; simpl; [reflexivity|]. rewrite Hab. reflexivity.
Qed.

Lemma for_loop_ext {St : Type} (body body' : Z -> St -> outcome St) (n : nat) (i : Z) (s : St) :
  (forall j t, body j t = body' j t) -> for_loop n i body s = for_loop n i body' s.
Proof.
  intros H. revert i s. induction n as [|n IH]; intros i s; [reflexivity|].
  simpl. rewrite H. destruct (body' i s); simpl; [apply IH | reflexivity..].
Qed.

Lemma for_loop_break_ext {St : Type} (body body' : Z -> St -> outcome (St * bool))
    (n : nat) (i : Z) (s : St) :
  (forall j t, body j t = body' j t) ->
  for_loop_break n i body s = for_loop_break n i body' s.
Proof.
  intros H. revert i s. induction n as [|n IH]; intros i s; [reflexivity|].
  simpl. rewrite H. destruct (body' i s) as [[t b]| | |]; simpl; [|reflexivity..].
  destruct b; [reflexivity | apply IH].
Qed.

Lemma bfs_loop_pattern (g g' : Graph) (N : Z) (fuel : nat) (st : search) :
  same_pattern (adj_matrix_ g) (adj_matrix_ g') ->
  bfs_loop fuel g N st = bfs_loop fuel g' N st.
Proof.
  intros H. revert st. induction fuel as [|fuel IH]; intros st; [reflexivity|].
  simpl. destruct (frontier st) as [|u q]; [reflexivity|].
  rewrite (for_loop_ext (bfs_visit g u) (bfs_visit g' u))
    by (intros j t; apply bfs_visit_pattern; exact H).
  destruct (for_loop _ _ _ _); simpl; [apply IH | reflexivity..].
Qed.

Lemma dfs_loop_pattern (g g' : Graph) (N t : Z) (fuel : nat) (st : search) :
  same_pattern (adj_matrix_ g) (adj_matrix_ g') ->
  dfs_loop fuel g N t st = dfs_loop fuel g' N t st.
Proof.
  intros H. revert st. induction fuel as [|fuel IH]; intros st; [reflexivity|].
  simpl. destruct (frontier st) as [|u q]; [reflexivity|].
  rewrite (for_loop_break_ext (dfs_visit g u t) (dfs_visit g' u t))
    by (intros j t'; apply dfs_visit_pattern; exact H).
  destruct (for_loop_break _ _ _ _); simpl; [apply IH | reflexivity..].
Qed.

(** ** A vertex once visited keeps its parent *)

Lemma dfs_visit_keeps (g : Graph) (u t v : Z) (st st' : search) (b : bool) (x p : Z) :
  dfs_visit g u t v st = Returns (st', b) ->
  rd (visited st) x <> 0 /\ rd (parent st) x = p ->
  rd (visited st') x <> 0 /\ rd (parent st') x = p.
Proof.
  intros H [Hx Hp]. unfold dfs_visit in H. bind_inv H.
  destruct (a =? 0); [injection H as <- _; auto|].
  bind_inv H. destruct (Z.eqb_spec a0 0) as [E0|E0]; [|injection H as <- _; auto].
  bind_inv H. bind_inv H. injection H as <- _. simpl.
  apply vec_set_Returns in Ha1 as [Hr1 ->]. apply vec_set_Returns in Ha2 as [Hr2 ->].
  assert (x <> v) as Hxv.
  { intros ->. apply Hx. unfold rd. rewrite Ha0. exact E0. }
  rewrite !rd_set by assumption.
  destruct (decide (x = v)); [congruence | auto].
Qed.

Lemma for_loop_break_keeps (g : Graph) (u t : Z) (n : nat) (i : Z) (st st' : search)
    (x p : Z) :
  for_loop_break n i (dfs_visit g u t) st = Returns st' ->
  rd (visited st) x <> 0 /\ rd (parent st) x = p ->
  rd (visited st') x <> 0 /\ rd (parent st') x = p.
Proof.
  revert i st. induction n as [|n IH]; intros i st H Hx; simpl in H.
  - injection H as <-. exact Hx.
  - bind_inv H. destruct a as [st1 b]. simpl in H.
    pose proof (dfs_visit_keeps _ _ _ _ _ _ _ _ _ Ha Hx) as Hx1.
    destruct b; [injection H as <-; exact Hx1 | exact (IH _ _ H Hx1)].
Qed.

Lemma dfs_loop_keeps (g : Graph) (N t : Z) (fuel : nat) (st st' : search) (x p : Z) :
  dfs_loop fuel g N t st = Returns st' ->
  rd (visited st) x <> 0 /\ rd (parent st) x = p ->
  rd (visited st') x <> 0 /\ rd (parent st') x = p.
Proof.
  revert st. induction fuel as [|fuel IH]; intros st H Hx; [discriminate|].
  simpl in H. destruct (frontier st) as [|u q]; [injection H as <-; exact Hx|].
  bind_inv H. apply (IH a H).
  exact (for_loop_break_keeps _ _ _ _ _ _ _ _ _ Ha Hx).
Qed.

(** The first row DFS scans, the row of the source, reaches a neighbour
    [t] of the source and gives it the source as parent. *)
Lemma dfs_first_scan (g : Graph) (s t : Z) (vis par : list Z) :
  wf_graph g -> in_range g s -> in_range g t -> edge g s t ->
  Z.of_nat (length vis) = vertices_ g -> Z.of_nat (length par) = vertices_ g ->
  rd vis t = 0 ->
  exists st1,
    for_loop_break (Z.to_nat (vertices_ g)) 0 (dfs_visit g s t)
      {| visited := vis; parent := par; frontier := [] |} = Returns st1 /\
    rd (visited st1) t <> 0 /\ rd (parent st1) t = s.
Proof.
  intros Hg Hs Ht He Hlv Hlp Hvt. unfold in_range in Hs, Ht.
  destruct (for_loop_break_inv
              (fun i st => i <= t /\ Z.of_nat (length (visited st)) = vertices_ g /\
                           Z.of_nat (length (parent st)) = vertices_ g /\
                           rd (visited st) t = 0)
              (fun st => rd (visited st) t <> 0 /\ rd (parent st) t = s)
              (dfs_visit g s t) (Z.to_nat (vertices_ g)) 0
              {| visited := vis; parent := par; frontier := [] |})
    as (st1 & E1 & Hpost).
  - simpl. repeat split; try assumption; lia.
  - intros j st Hj (Hjt & Hl1 & Hl2 & Hz).
    unfold dfs_visit, get_adj_matrix.
    rewrite (mat_get_in _ _ _ s j (wf_adj g Hg)) by lia. simpl.
    destruct (Z.eqb_spec (entry (adj_matrix_ g) s j) 0) as [Ea|Ea].
    { exists st, false. split; [reflexivity|].
      assert (j <> t) by (intros ->; exact (He Ea)). repeat split; try assumption; lia. }
    rewrite rd_in by lia. simpl.
    destruct (Z.eqb_spec (rd (visited st) j) 0) as [Ev|Ev].
    2:{ exists st, false. split; [reflexivity|].
        assert (j <> t) by congruence. repeat split; try assumption; lia. }
    rewrite !vec_set_in by lia. simpl. eexists _, _. split; [reflexivity|].
    destruct (Z.eqb_spec j t) as [->|Hjt'].
    + simpl. rewrite !rd_set by lia.
      destruct (decide (t = t)); [|congruence]. split; [lia | reflexivity].
    + simpl. rewrite !length_insert, rd_set by lia.
      destruct (decide (t = j)); [congruence|]. repeat split; try assumption; lia.
  - exists st1. split; [exact E1|]. destruct Hpost as [(Hle & _)|HQ]; [lia | exact HQ].
Qed.

(** With an edge from the source to a different target, DFS returns the
    two of them. *)
Lemma dfs_direct_edge (g : Graph) (s t : Z) (fuel : nat) :
  wf_graph g -> in_range g s -> in_range g t -> s <> t -> edge g s t ->
  (Z.to_nat (vertices_ g) < fuel)%nat ->
  dfs_shortest_path fuel g s t = Returns [s; t].
Proof.
  intros Hg Hs Ht Hst He Hf. pose proof (wf_vertices g Hg) as HN.
  pose proof Hs as Hs'. pose proof Ht as Ht'. unfold in_range in Hs', Ht'.
  destruct (search_init g s Hs) as [HT Honly].
  set (vis0 := <[Z.to_nat s := 1]> (replicate (Z.to_nat (vertices_ g)) 0)) in *.
  set (par0 := replicate (Z.to_nat (vertices_ g)) (-1)) in *.
  assert (dfs_inv g s t {| visited := vis0; parent := par0; frontier := [s] |}) as Hinv0.
  { exists (fun _ => O). split; [exact HT|]. right.
    intros x Hx Hnf _. simpl in *. apply Honly in Hx. subst x.
    exfalso. apply Hnf. apply list_elem_of_here. }
  destruct (dfs_scan_spec g s t Hg _ s [] Hinv0 eq_refl) as (st1 & E1 & Hinv1 & HM1).
  simpl in E1, HM1.
  destruct (dfs_first_scan g s t vis0 par0 Hg Hs Ht He) as (st1' & E1' & Hkeep1).
  { exact (ti_visited_len _ _ _ _ HT). }
  { exact (ti_parent_len _ _ _ _ HT). }
  { destruct (decide (rd vis0 t = 0)) as [E|E]; [exact E|].
    apply Honly in E. congruence. }
  rewrite E1 in E1'. injection E1' as <-.
  destruct fuel as [|fuel]; [lia|].
  pose proof (ti_depth _ _ _ _ HT s (ti_source_visited _ _ _ _ HT)) as Hd. simpl in Hd.
  destruct (dfs_loop_spec g s t Hg fuel st1 Hinv1 ltac:(lia)) as (st2 & E2 & (d & HT2 & _) & _).
  destruct (dfs_loop_keeps _ _ _ _ _ _ _ _ E2 Hkeep1) as [Hvt Hpt].
  unfold dfs_shortest_path. rewrite (num_vertices_eq g Hg).
  rewrite !vec_new_in by exact HN. simpl bind.
  rewrite vec_set_in by (rewrite length_replicate; lia). simpl bind.
  fold vis0 par0. simpl dfs_loop. rewrite E1. simpl bind. rewrite E2. simpl bind.
  unfold reconstruct.
  rewrite rd_in by (rewrite (ti_visited_len _ _ _ _ HT2); exact Ht'). simpl bind.
  destruct (Z.eqb_spec (rd (visited st2) t) 0) as [E|_]; [congruence|].
  destruct fuel as [|[|fuel]]; try lia. simpl build_path.
  destruct (Z.eqb_spec t (-1)); [lia|].
  rewrite rd_in by (rewrite (ti_parent_len _ _ _ _ HT2); exact Ht'). simpl bind.
  rewrite Hpt. destruct (Z.eqb_spec s (-1)); [lia|].
  rewrite rd_in by (rewrite (ti_parent_len _ _ _ _ HT2); exact Hs'). simpl bind.
  rewrite (ti_source_parent _ _ _ _ HT2). simpl. reflexivity.
Qed.

(** With an edge from the source to a different target, BFS returns the
    two of them. *)
Lemma bfs_direct_edge (g : Graph) (s t : Z) (fuel : nat) :
  wf_graph g -> s <> t -> edge g s t ->
  (Z.to_nat (vertices_ g) < fuel)%nat ->
  bfs_shortest_path fuel g s t = Returns [s; t].
Proof.
  intros Hg Hst He Hf. destruct (edge_in_range g s t Hg He) as [Hs Ht].
  destruct (bfs_run g s t fuel Hg Hs Ht Hf) as (path & E & Hiff & Hpath).
  pose proof (is_path_edge g s t He) as Hp.
  assert (path <> []) as Hne by (apply Hiff; exists [s; t]; exact Hp).
  destruct (Hpath Hne) as [Hpp Hmin]. specialize (Hmin _ Hp).
  rewrite E, (is_path_pair g s t path Hpp Hst Hmin). reflexivity.
Qed.

Lemma constructed_vertices (n : Z) (d : bool) (es : list (Z * Z * Z)) (g : Graph) :
  (let* g0 := Graph_new n d in add_edges g0 es) = Returns g -> vertices_ g = n.
Proof.
  intros H. bind_inv H. destruct (Graph_new_Returns n d a Ha) as [Hn ->].
  destruct (Graph_new_spec n d Hn) as (g0 & E0 & Hg0 & HN0 & _).
  destruct (Graph_new_Returns n d g0 E0) as [_ ->].
  destruct (add_edges_wf es _ g Hg0 H) as (_ & HN & _). rewrite HN. reflexivity.
Qed.

Lemma square_graph_unit_built :
  (let* g0 := Graph_new 4 false in
   add_edges g0 [(0, 1, 1); (1, 2, 1); (0, 2, 1); (2, 3, 1)]) = Returns square_graph_unit.
Proof. reflexivity. Qed.

(** ** More on the generator *)

Lemma degree_capped_false (directed : bool) (mi mo : Z) (st : gen) (u v : Z) :
  degree_capped directed mi mo st u v = Returns false ->
  directed = true ->
  rd (incoming_edges_per_vertex st) v < mi /\ rd (outgoing_edges_per_vertex st) u < mo.
Proof.
  intros H ->. unfold degree_capped in H. bind_inv H.
  destruct (Z.leb_spec mi a) as [Hle|Hlt]; [discriminate|].
  bind_inv H. injection H as H. apply Z.leb_gt in H.
  unfold rd. rewrite Ha, Ha0. auto.
Qed.

(** What an iteration of the loop of [generate_graph] that returns has
    done: nothing but two calls of [rand()], or it has placed an edge. *)
Lemma gen_step_cases (rand : nat -> Z) (directed : bool) (mi mo N cap : Z)
    (st st' : gen) (b : bool) :
  gen_step rand directed mi mo N cap st = Returns (st', b) ->
  (gen_g st' = gen_g st /\ num_edges st' = num_edges st /\
   edges_per_vertex st' = edges_per_vertex st /\
   incoming_edges_per_vertex st' = incoming_edges_per_vertex st /\
   outgoing_edges_per_vertex st' = outgoing_edges_per_vertex st /\
   calls st' = S (S (calls st)) /\ b = false) \/
  (exists u v e1,
     u <> v /\
     rd (edges_per_vertex st) u < cap /\ rd (edges_per_vertex st) v < cap /\
     (directed = true ->
        rd (incoming_edges_per_vertex st) v < mi /\
        rd (outgoing_edges_per_vertex st) u < mo) /\
     mat_get (adj_matrix_ (gen_g st)) u v = Returns 0 /\
     add_edge (gen_g st) u v (Z.rem (rand (S (S (calls st)))) 100 + 1)
       = Returns (gen_g st') /\
     num_edges st' = num_edges st - 1 /\
     vec_incr (edges_per_vertex st) u = Returns e1 /\
     vec_incr e1 v = Returns (edges_per_vertex st') /\
     (if directed
      then vec_incr (incoming_edges_per_vertex st) v
           = Returns (incoming_edges_per_vertex st') /\
           vec_incr (outgoing_edges_per_vertex st) u
           = Returns (outgoing_edges_per_vertex st')
      else incoming_edges_per_vertex st' = incoming_edges_per_vertex st /\
           outgoing_edges_per_vertex st' = outgoing_edges_per_vertex st) /\
     calls st' = S (S (S (calls st))) /\
     b = (num_edges st - 1 =? 0)).
Proof.
  intros H. unfold gen_step in H. bind_inv H. rename a into u. bind_inv H. rename a into v.
  destruct (Z.eqb_spec u v) as [Euv|Euv].
  { injection H as <- <-. left. simpl. repeat split. }
  bind_inv H. simpl in Ha1.
  destruct (Z.leb_spec cap a) as [Hcu|Hcu].
  { injection H as <- <-. left. simpl. repeat split. }
  bind_inv H. simpl in Ha2.
  destruct (Z.leb_spec cap a0) as [Hcv|Hcv].
  { injection H as <- <-. left. simpl. repeat split. }
  bind_inv H. destruct a1.
  { injection H as <- <-. left. simpl. repeat split. }
  bind_inv H. unfold get_adj_matrix in Ha4. simpl in Ha4.
  destruct (Z.eqb_spec a1 0) as [Ea|Ea]; simpl in H.
  2:{ injection H as <- <-. left. simpl. repeat split. }
  subst a1. bind_inv H. simpl in Ha5. bind_inv H. simpl in Ha6. bind_inv H.
  bind_inv H. bind_inv H. injection H as <- <-. simpl.
  right. exists u, v, a2. split; [exact Euv|].
  split; [unfold rd; rewrite Ha1; exact Hcu|].
  split; [unfold rd; rewrite Ha2; exact Hcv|].
  split.
  { intros Hd. apply (degree_capped_false _ _ _ _ _ _ Ha3 Hd). }
  split; [exact Ha4|]. split; [exact Ha5|]. split; [reflexivity|].
  split; [exact Ha6|]. split; [exact Ha7|]. split; [|split; reflexivity].
  destruct directed; simpl in *.
  - split; assumption.
  - injection Ha8 as <-. injection Ha9 as <-. split; reflexivity.
Qed.

Lemma simple_graph_new (n : Z) (g : Graph) :
  Graph_new n false = Returns g -> simple_graph g.
Proof.
  intros H. destruct (Graph_new_Returns n false g H) as [Hn _].
  destruct (Graph_new_spec n false Hn) as (g0 & E0 & Hg0 & _ & Hd & He & _ & Hz).
  rewrite E0 in H. injection H as <-.
  constructor; try assumption.
  - intros a b. rewrite !Hz. reflexivity.
  - intros a b. rewrite Hz. lia.
  - intros u v Huv. rewrite He in Huv. apply elem_of_nil in Huv. contradiction.
  - intros a b Hab. rewrite Hz in Hab. congruence.
  - rewrite He. constructor.
  - intros u v Huv. rewrite He in Huv. apply elem_of_nil in Huv. contradiction.
Qed.

(** Placing an edge between two different vertices that have none keeps
    the graph simple. *)
Lemma simple_graph_add (g g' : Graph) (u v w : Z) :
  simple_graph g -> u <> v -> entry (adj_matrix_ g) u v = 0 -> 1 <= w <= 100 ->
  add_edge g u v w = Returns g' -> simple_graph g'.
Proof.
  intros [Hg Hd Hsym Hw He Hm Hnd Hnf] Huv H0 Hwr E.
  destruct (add_edge_Returns g g' u v w Hg E) as [Hu Hv].
  pose proof (add_edge_symmetric g g' u v w Hg Hd Hsym E) as Hsym'.
  destruct (add_edge_spec g u v w Hg Hu Hv)
    as (h & lu & E1 & Hh & HN & Hdh & _ & Hed & _ & _ & R).
  rewrite E1 in E. injection E as <-.
  assert ((u, v) ∉ edges_ g) as Hfresh.
  { intros Hin. destruct (He u v Hin) as [_ Hne]. congruence. }
  assert ((v, u) ∉ edges_ g) as Hfresh'.
  { intros Hin. destruct (He v u Hin) as [_ Hne]. rewrite Hsym in Hne. congruence. }
  constructor; try assumption.
  - congruence.
  - intros a b. rewrite R. destruct (decide _); [lia | apply Hw].
  - intros x y Hxy. rewrite Hed in Hxy. rewrite R.
    apply elem_of_app in Hxy as [Hxy|Hxy].
    + destruct (He x y Hxy) as [Hne Hent]. split; [exact Hne|].
      destruct (decide _); [lia | exact Hent].
    + apply list_elem_of_singleton in Hxy. injection Hxy as -> ->.
      split; [exact Huv|]. destruct (decide _) as [_|Hn]; [lia | tauto].
  - intros a b Hab. rewrite R in Hab. rewrite Hed.
    destruct (decide _) as [[[-> ->]|(_ & -> & ->)]|_].
    + left. apply elem_of_app. right. apply list_elem_of_singleton. reflexivity.
    + right. apply elem_of_app. right. apply list_elem_of_singleton. reflexivity.
    + destruct (Hm a b Hab) as [H|H]; [left | right]; apply elem_of_app; left; exact H.
  - rewrite Hed. apply NoDup_app. split; [exact Hnd|]. split.
    + intros x Hx Hx'. apply list_elem_of_singleton in Hx'. subst x. exact (Hfresh Hx).
    + apply NoDup_singleton.
  - intros x y Hxy Hyx. rewrite Hed in Hxy, Hyx.
    apply elem_of_app in Hxy as [Hxy|Hxy]; apply elem_of_app in Hyx as [Hyx|Hyx].
    + exact (Hnf x y Hxy Hyx).
    + apply list_elem_of_singleton in Hyx. injection Hyx as -> ->. exact (Hfresh' Hxy).
    + apply list_elem_of_singleton in Hxy. injection Hxy as -> ->. exact (Hfresh' Hyx).
    + apply list_elem_of_singleton in Hxy. apply list_elem_of_singleton in Hyx.
      injection Hxy as -> ->. injection Hyx as ->. congruence.
Qed.

Lemma rand_weight (r : Z) : 0 <= r -> 1 <= Z.rem r 100 + 1 <= 100.
Proof. intros Hr. pose proof (Z.rem_bound_pos r 100 Hr ltac:(lia)). lia. Qed.

Lemma mat_get_entry (m : list (list Z)) (u v x : Z) :
  mat_get m u v = Returns x -> entry m u v = x.
Proof. intros H. unfold entry. rewrite H. reflexivity. Qed.

Section Generated.
Variable rand : nat -> Z.
Variable directed : bool.
Variables mi mo N cap : Z.
Hypothesis Hrand : forall k, 0 <= rand k.

(** An iteration keeps the graph simple and the count of what is placed
    and what is left. *)
Lemma gen_step_simple (E : Z) (st st' : gen) (b : bool) :
  gen_step rand directed mi mo N cap st = Returns (st', b) ->
  simple_graph (gen_g st) ->
  Z.of_nat (length (edges_ (gen_g st))) + num_edges st = E ->
  simple_graph (gen_g st') /\
  Z.of_nat (length (edges_ (gen_g st'))) + num_edges st' = E /\
  vertices_ (gen_g st') = vertices_ (gen_g st) /\
  (num_edges st' = num_edges st \/ num_edges st' = num_edges st - 1) /\
  (b = true -> num_edges st' = 0) /\
  (b = false -> 0 < num_edges st -> 0 < num_edges st').
Proof.
  intros H Hsg Hcount.
  destruct (gen_step_cases _ _ _ _ _ _ _ _ _ H)
    as [(Eg & En & _ & _ & _ & _ & ->)
       |(u & v & e1 & Huv & _ & _ & _ & Hz & Eadd & En & _ & _ & _ & _ & ->)].
  - rewrite Eg, En. split; [exact Hsg|]. split; [exact Hcount|].
    split; [reflexivity|]. split; [left; reflexivity|].
    split; [discriminate | auto].
  - pose proof (simple_graph_add _ _ u v _ Hsg Huv (mat_get_entry _ _ _ _ Hz)
                  (rand_weight _ (Hrand _)) Eadd) as Hsg'.
    destruct (add_edge_Returns _ _ _ _ _ (sg_wf _ Hsg) Eadd) as [Hu Hv].
    destruct (add_edge_spec (gen_g st) u v (Z.rem (rand (S (S (calls st)))) 100 + 1)
                (sg_wf _ Hsg) Hu Hv) as (h & lu & E1 & _ & HN & _ & _ & Hed & _).
    rewrite E1 in Eadd. injection Eadd as Eh. rewrite <- Eh, En.
    split; [rewrite Eh; exact Hsg'|]. rewrite Hed, length_app. simpl.
    split; [lia|]. split; [exact HN|]. split; [right; reflexivity|]. split.
    + intros Hb. apply Z.eqb_eq in Hb. exact Hb.
    + intros Hb Hpos. apply Z.eqb_neq in Hb. lia.
Qed.

(** When the loop returns, either it did not run, or every edge
    requested is placed. *)
Lemma gen_loop_simple (E : Z) (fuel : nat) (st st' : gen) :
  gen_loop fuel rand directed mi mo N cap st = Returns st' ->
  simple_graph (gen_g st) ->
  Z.of_nat (length (edges_ (gen_g st))) + num_edges st = E ->
  simple_graph (gen_g st') /\
  vertices_ (gen_g st') = vertices_ (gen_g st) /\
  Z.of_nat (length (edges_ (gen_g st'))) + num_edges st' = E /\
  ((num_edges st <= 0 /\ st' = st) \/ (0 < num_edges st /\ num_edges st' = 0)).
Proof.
  revert st. induction fuel as [|fuel IH]; intros st H Hsg Hc; [discriminate|].
  simpl in H. destruct (Z.ltb_spec 0 (num_edges st)) as [Hpos|Hle].
  2:{ injection H as <-. split; [exact Hsg|]. split; [reflexivity|].
      split; [exact Hc|]. left. auto. }
  bind_inv H. destruct a as [st1 b]. simpl in H.
  destruct (gen_step_simple E st st1 b Ha Hsg Hc) as (Hsg1 & Hc1 & HN1 & _ & Hbt & Hbf).
  destruct b.
  - injection H as <-. split; [exact Hsg1|]. split; [exact HN1|].
    split; [exact Hc1|]. right. auto.
  - destruct (IH st1 H Hsg1 Hc1) as (Hsg' & HN' & Hc' & Hend).
    split; [exact Hsg'|]. split; [congruence|]. split; [exact Hc'|]. right.
    split; [exact Hpos|]. specialize (Hbf eq_refl Hpos).
    destruct Hend as [[Hle _]|[_ H0]]; [lia | exact H0].
Qed.
End Generated.

(** What [generate_graph] returns, when it returns. *)
Lemma generate_graph_simple (fuel : nat) (rand : nat -> Z)
    (min_v max_v min_e max_e mepv : Z) (directed : bool) (mi mo : Z) (g : Graph) :
  (forall k, 0 <= rand k) ->
  generate_graph fuel rand min_v max_v min_e max_e mepv directed mi mo = Returns g ->
  exists N E,
    rand_between (rand 0%nat) min_v max_v = Returns N /\
    rand_between (rand 1%nat) min_e max_e = Returns E /\
    simple_graph g /\
    vertices_ g = N /\
    Z.of_nat (length (edges_ g)) = Z.max 0 E.
Proof.
  intros Hrand H.
  destruct (generate_graph_Returns _ _ _ _ _ _ _ _ _ _ _ H)
    as (N & E & g0 & stf & HN & HE & Hpos & Ha & Ha4 & ->).
  exists N, E. split; [exact HN|]. split; [exact HE|].
  pose proof (simple_graph_new _ _ Ha) as Hsg0.
  destruct (Graph_new_Returns _ _ _ Ha) as [Hn Eg0].
  assert (edges_ g0 = [] /\ vertices_ g0 = N) as [He0 HN0] by (rewrite Eg0; auto).
  destruct (gen_loop_simple rand directed mi mo _ _ Hrand E fuel _ _ Ha4)
    as (Hsg & HNf & Hc & Hend); simpl.
  - exact Hsg0.
  - rewrite He0. simpl. lia.
  - simpl in *. split; [exact Hsg|]. split; [congruence|].
    destruct Hend as [[Hle ->]|[Hpos' H0]]; simpl in *.
    + rewrite He0. simpl. lia.
    + lia.
Qed.

Lemma vec_incr_Returns (l l' : list Z) (i : Z) :
  vec_incr l i = Returns l' ->
  0 <= i < Z.of_nat (length l) /\ l' = <[Z.to_nat i := rd l i + 1]> l.
Proof.
  intros H. unfold vec_incr in H. bind_inv H.
  apply vec_set_Returns in H as [Hi ->]. split; [exact Hi|].
  unfold rd. rewrite Ha. reflexivity.
Qed.

Lemma count_in_snoc (x u v : Z) (es : list (Z * Z)) :
  count_in x (es ++ [(u, v)]) = count_in x es + (if decide (x = v) then 1 else 0).
Proof.
  unfold count_in. rewrite filter_app, length_app.
  destruct (decide (x = v)) as [->|Hne].
  - rewrite filter_cons_True by reflexivity. simpl. lia.
  - rewrite filter_cons_False by (simpl; congruence). simpl. lia.
Qed.

Lemma count_out_snoc (x u v : Z) (es : list (Z * Z)) :
  count_out x (es ++ [(u, v)]) = count_out x es + (if decide (x = u) then 1 else 0).
Proof.
  unfold count_out. rewrite filter_app, length_app.
  destruct (decide (x = u)) as [->|Hne].
  - rewrite filter_cons_True by reflexivity. simpl. lia.
  - rewrite filter_cons_False by (simpl; congruence). simpl. lia.
Qed.

(** With [directed = true] an iteration keeps the counters equal to the
    numbers of edges placed, within the caps. *)
Lemma gen_step_caps (rand : nat -> Z) (mi mo N cap : Z) (st st' : gen) (b : bool) :
  gen_step rand true mi mo N cap st = Returns (st', b) ->
  gen_caps mi mo st -> gen_caps mi mo st'.
Proof.
  intros H [Hwf Hin Hout Hicap Hocap].
  destruct (gen_step_cases _ _ _ _ _ _ _ _ _ H)
    as [(Eg & _ & _ & Ei & Eo & _ & _)
       |(u & v & e1 & Huv & _ & _ & Hcap & _ & Eadd & _ & _ & _ & [Ei Eo] & _ & _)].
  - constructor; rewrite ?Eg, ?Ei, ?Eo; assumption.
  - destruct (Hcap eq_refl) as [Hiv Hou].
    destruct (add_edge_Returns _ _ _ _ _ Hwf Eadd) as [Hu Hv].
    destruct (add_edge_spec (gen_g st) u v (Z.rem (rand (S (S (calls st)))) 100 + 1)
                Hwf Hu Hv) as (h & lu & E1 & Hwf' & HN & _ & _ & Hed & _).
    rewrite E1 in Eadd. injection Eadd as Eh.
    apply vec_incr_Returns in Ei as [Hri Ei]. apply vec_incr_Returns in Eo as [Hro Eo].
    constructor; rewrite <- ?Eh, ?Hed, ?Ei, ?Eo; try exact Hwf'.
    + intros x Hx. unfold in_range in Hx. rewrite HN in Hx.
      rewrite rd_set by exact Hri. rewrite count_in_snoc. pose proof (Hin x Hx) as Hx'.
      destruct (decide (x = v)) as [Exv|_]; [subst x|]; lia.
    + intros x Hx. unfold in_range in Hx. rewrite HN in Hx.
      rewrite rd_set by exact Hro. rewrite count_out_snoc. pose proof (Hout x Hx) as Hx'.
      destruct (decide (x = u)) as [Exu|_]; [subst x|]; lia.
    + intros x. rewrite count_in_snoc. destruct (decide (x = v)) as [->|_].
      * rewrite <- (Hin v Hv). lia.
      * specialize (Hicap x). lia.
    + intros x. rewrite count_out_snoc. destruct (decide (x = u)) as [->|_].
      * rewrite <- (Hout u Hu). lia.
      * specialize (Hocap x). lia.
Qed.

Lemma gen_loop_caps (rand : nat -> Z) (mi mo N cap : Z) (fuel : nat) (st st' : gen) :
  gen_loop fuel rand true mi mo N cap st = Returns st' ->
  gen_caps mi mo st -> gen_caps mi mo st'.
Proof.
  revert st. induction fuel as [|fuel IH]; intros st H Hc; [discriminate|].
  simpl in H. destruct (0 <? num_edges st); [|injection H as <-; exact Hc].
  bind_inv H. destruct a as [st1 b]. simpl in H.
  pose proof (gen_step_caps _ _ _ _ _ _ _ _ Ha Hc) as Hc1.
  destruct b; [injection H as <-; exact Hc1 | exact (IH st1 H Hc1)].
Qed.

Lemma generate_graph_caps (fuel : nat) (rand : nat -> Z)
    (min_v max_v min_e max_e mepv mi mo : Z) (g : Graph) :
  generate_graph fuel rand min_v max_v min_e max_e mepv true mi mo = Returns g ->
  forall x, count_in x (edges_ g) <= Z.max 0 mi /\ count_out x (edges_ g) <= Z.max 0 mo.
Proof.
  intros H.
  destruct (generate_graph_Returns _ _ _ _ _ _ _ _ _ _ _ H)
    as (N & E & g0 & stf & _ & _ & Hn & Hg0 & Hloop & ->).
  destruct (Graph_new_spec _ false Hn) as (g0' & E0 & Hwf0 & HN0 & _ & Hed0 & _).
  rewrite E0 in Hg0. injection Hg0 as ->.
  assert (gen_caps mi mo stf) as [_ _ _ Hic Hoc].
  { apply (gen_loop_caps _ _ _ _ _ _ _ _ Hloop). constructor; simpl.
    - exact Hwf0.
    - intros x _. rewrite Hed0, rd_replicate. unfold count_in. simpl.
      destruct (decide _); reflexivity.
    - intros x _. rewrite Hed0, rd_replicate. unfold count_out. simpl.
      destruct (decide _); reflexivity.
    - intros x. rewrite Hed0. unfold count_in. simpl. lia.
    - intros x. rewrite Hed0. unfold count_out. simpl. lia. }
  intros x. split; [apply Hic | apply Hoc].
Qed.

Lemma rand_both_ways_nonneg (k : nat) : 0 <= rand_both_ways k.
Proof.
  unfold rand_both_ways. do 10 (destruct k as [|k]; [simpl; lia|]).
  destruct k; simpl; lia.
Qed.

Lemma generated_example_run :
  generate_graph 10 rand_both_ways 3 3 2 2 5 true 5 5 = Returns generated_example.
Proof. reflexivity. Qed.

(** With [directed = true] and a cap that is not positive every pair is
    rejected. *)
Lemma gen_step_stuck (rand : nat -> Z) (mi mo N : Z) (st : gen) :
  (forall k, 0 <= rand k) -> 1 <= N -> mi <= 0 \/ mo <= 0 ->
  gen_stuck N st ->
  exists st', gen_step rand true mi mo N (N - 1) st = Returns (st', false) /\
    gen_stuck N st'.
Proof.
  intros Hrand HN Hcap HS.
  destruct (int_rem_in (rand (calls st)) N (Hrand _) ltac:(lia)) as (u & Eu & Hu).
  destruct (int_rem_in (rand (S (calls st))) N (Hrand _) ltac:(lia)) as (v & Ev & Hv).
  unfold gen_step. rewrite Eu. simpl. rewrite Ev. simpl.
  set (st0 := {| gen_g := gen_g st; num_edges := num_edges st;
                 edges_per_vertex := edges_per_vertex st;
                 incoming_edges_per_vertex := incoming_edges_per_vertex st;
                 outgoing_edges_per_vertex := outgoing_edges_per_vertex st;
                 calls := S (S (calls st)) |}).
  assert (gen_stuck N st0) as HS0 by (destruct HS; constructor; assumption).
  destruct HS as [Hwf Hvert Hl Hli Hlo Hin Hout Hpos].
  destruct (u =? v); [eauto|].
  rewrite rd_in by lia. simpl.
  destruct (N - 1 <=? rd (edges_per_vertex st) u); [eauto|].
  rewrite rd_in by lia. simpl.
  destruct (N - 1 <=? rd (edges_per_vertex st) v); [eauto|].
  unfold degree_capped. simpl.
  rewrite rd_in by lia. simpl.
  destruct (Z.leb_spec mi (rd (incoming_edges_per_vertex st) v)) as [Hiv|Hiv]; simpl; [eauto|].
  rewrite rd_in by lia. simpl.
  destruct (Z.leb_spec mo (rd (outgoing_edges_per_vertex st) u)) as [Hou|Hou]; simpl; [eauto|].
  exfalso. specialize (Hin v). specialize (Hout u). lia.
Qed.

Lemma gen_loop_stuck (rand : nat -> Z) (mi mo N : Z) (fuel : nat) (st : gen) :
  (forall k, 0 <= rand k) -> 1 <= N -> mi <= 0 \/ mo <= 0 ->
  gen_stuck N st ->
  gen_loop fuel rand true mi mo N (N - 1) st = OutOfFuel.
Proof.
  intros Hrand HN Hcap. revert st. induction fuel as [|fuel IH]; intros st HS; [reflexivity|].
  simpl. pose proof (gs_pending _ _ HS) as Hpos.
  destruct (Z.ltb_spec 0 (num_edges st)); [|lia].
  destruct (gen_step_stuck rand mi mo N st Hrand HN Hcap HS) as (st' & E' & HS').
  rewrite E'. simpl. exact (IH st' HS').
Qed.

(** ** Sums *)

Lemma sum_from_snoc (f : Z -> Z) (lo : Z) (n : nat) :
  sum_from f lo (S n) = sum_from f lo n + f (lo + Z.of_nat n).
Proof.
  revert lo. induction n as [|n IH]; intros lo.
  - cbn [sum_from]. replace (lo + Z.of_nat 0) with lo by lia. lia.
  - change (sum_from f lo (S (S n))) with (f lo + sum_from f (lo + 1) (S n)).
    rewrite IH. cbn [sum_from].
    replace (lo + 1 + Z.of_nat n) with (lo + Z.of_nat (S n)) by lia. lia.
Qed.

Lemma sum_from_ext (f f' : Z -> Z) (lo : Z) (n : nat) :
  (forall x, lo <= x < lo + Z.of_nat n -> f' x = f x) ->
  sum_from f' lo n = sum_from f lo n.
Proof.
  revert lo. induction n as [|n IH]; intros lo H; [reflexivity|].
  simpl. rewrite (H lo) by lia. rewrite IH; [reflexivity|]. intros x Hx. apply H. lia.
Qed.

Lemma sum_from_mono (f : Z -> Z) (lo : Z) (n m : nat) :
  (forall x, 0 <= f x) -> (n <= m)%nat -> sum_from f lo n <= sum_from f lo m.
Proof.
  intros Hf Hnm. induction Hnm as [|m Hnm IH]; [lia|].
  rewrite sum_from_snoc. specialize (Hf (lo + Z.of_nat m)). lia.
Qed.

(** Changing one term by at most one changes the sum by at most one. *)
Lemma sum_from_change (f f' : Z -> Z) (lo : Z) (n : nat) (c : Z) :
  (forall x, lo <= x < lo + Z.of_nat n -> x <> c -> f' x = f x) ->
  f' c <= f c + 1 ->
  sum_from f' lo n <= sum_from f lo n + 1.
Proof.
  revert lo. induction n as [|n IH]; intros lo H Hc; [simpl; lia|].
  simpl. destruct (decide (lo = c)) as [->|Hne].
  - rewrite (sum_from_ext f f' (c + 1) n); [lia|]. intros x Hx. apply H; lia.
  - rewrite (H lo) by lia. specialize (IH (lo + 1)).
    assert (sum_from f' (lo + 1) n <= sum_from f (lo + 1) n + 1); [|lia].
    apply IH; [|exact Hc]. intros x Hx. apply H. lia.
Qed.

(** ** The entries right of the diagonal *)

Lemma nz_range (g : Graph) (i j : Z) : 0 <= nz g i j <= 1.
Proof. unfold nz. destruct (_ =? 0); lia. Qed.

Lemma row_count_nonneg (g : Graph) (i j : Z) : 0 <= row_count g i j.
Proof.
  unfold row_count.
  pose proof (sum_from_mono (nz g i) (i + 1) 0 (Z.to_nat (j - (i + 1)))
                (fun x => proj1 (nz_range g i x)) ltac:(lia)) as H.
  exact H.
Qed.

Lemma row_count_step (g : Graph) (i j : Z) :
  i + 1 <= j -> row_count g i (j + 1) = row_count g i j + nz g i j.
Proof.
  intros Hj. unfold row_count.
  replace (Z.to_nat (j + 1 - (i + 1))) with (S (Z.to_nat (j - (i + 1)))) by lia.
  rewrite sum_from_snoc. f_equal. f_equal. lia.
Qed.

Lemma row_count_le (g : Graph) (i j j' : Z) :
  j <= j' -> row_count g i j <= row_count g i j'.
Proof.
  intros Hj. unfold row_count. apply sum_from_mono; [|lia].
  intros x. apply nz_range.
Qed.

Lemma rows_count_step (g : Graph) (i : Z) :
  0 <= i -> rows_count g (i + 1) = rows_count g i + row_count g i (vertices_ g).
Proof.
  intros Hi. unfold rows_count.
  replace (Z.to_nat (i + 1)) with (S (Z.to_nat i)) by lia.
  rewrite sum_from_snoc. f_equal. f_equal. lia.
Qed.

Lemma rows_count_le (g : Graph) (i i' : Z) :
  i <= i' -> rows_count g i <= rows_count g i'.
Proof.
  intros Hi. unfold rows_count. apply sum_from_mono; [|lia].
  intros x. apply row_count_nonneg.
Qed.

Lemma upper_count_new (n : Z) (d : bool) (g : Graph) :
  Graph_new n d = Returns g -> upper_count g = 0.
Proof.
  intros H. destruct (Graph_new_Returns n d g H) as [Hn _].
  destruct (Graph_new_spec n d Hn) as (g0 & E0 & _ & _ & _ & _ & _ & Hz).
  rewrite E0 in H. injection H as <-.
  unfold upper_count, rows_count.
  rewrite (sum_from_ext (fun _ => 0)).
  - generalize (Z.to_nat (vertices_ g0)). generalize 0 at 2.
    intros lo k. revert lo. induction k as [|k IH]; intros lo; simpl; [reflexivity|].
    rewrite IH. reflexivity.
  - intros r _. unfold row_count. rewrite (sum_from_ext (fun _ => 0)).
    + generalize (Z.to_nat (vertices_ g0 - (r + 1))). generalize (r + 1).
      intros lo k. revert lo. induction k as [|k IH]; intros lo; simpl; [reflexivity|].
      rewrite IH. reflexivity.
    + intros c _. unfold nz. rewrite Hz. reflexivity.
Qed.

(** [add_edge] makes at most one more entry right of the diagonal
    non-zero. *)
Lemma upper_count_add_edge (g g' : Graph) (u v w : Z) :
  wf_graph g -> add_edge g u v w = Returns g' ->
  upper_count g' <= upper_count g + 1.
Proof.
  intros Hg E. destruct (add_edge_Returns g g' u v w Hg E) as [Hu Hv].
  destruct (add_edge_spec g u v w Hg Hu Hv)
    as (h & lu & E1 & _ & HN & _ & _ & _ & _ & _ & R).
  rewrite E1 in E. injection E as <-.
  assert (forall r c, r < c -> r <> Z.min u v \/ c <> Z.max u v -> nz h r c = nz g r c)
    as Hsame.
  { intros r c Hrc Hne. unfold nz. rewrite R.
    destruct (decide _) as [[[-> ->]|(_ & -> & ->)]|_]; [lia | lia | reflexivity]. }
  unfold upper_count, rows_count. rewrite HN.
  apply (sum_from_change _ _ 0 _ (Z.min u v)).
  - intros r Hr Hne. unfold row_count. rewrite ?HN. apply sum_from_ext.
    intros c Hc. apply Hsame; [lia | left; exact Hne].
  - unfold row_count. rewrite ?HN. apply (sum_from_change _ _ _ _ (Z.max u v)).
    + intros c Hc Hne. apply Hsame; [lia | right; exact Hne].
    + pose proof (nz_range h (Z.min u v) (Z.max u v)).
      pose proof (nz_range g (Z.min u v) (Z.max u v)). lia.
Qed.

Lemma upper_count_add_edges (es : list (Z * Z * Z)) (g g' : Graph) :
  wf_graph g -> add_edges g es = Returns g' ->
  upper_count g <= Z.of_nat (length (edges_ g)) ->
  upper_count g' <= Z.of_nat (length (edges_ g')).
Proof.
  revert g. induction es as [|[[u v] w] es IH]; intros g Hg H Hc; simpl in H.
  - injection H as <-. exact Hc.
  - bind_inv H. pose proof (upper_count_add_edge g a u v w Hg Ha) as Hup.
    destruct (add_edge_Returns g a u v w Hg Ha) as [Hu Hv].
    destruct (add_edge_spec g u v w Hg Hu Hv) as (h & lu & E1 & Hh & _ & _ & _ & Hed & _).
    rewrite E1 in Ha. injection Ha as <-.
    apply (IH h Hh H). rewrite Hed, length_app. simpl. lia.
Qed.

(** In a graph built by the constructor and [add_edge], the non-zero
    entries right of the diagonal are at most as many as the edges. *)
Lemma constructed_upper (n : Z) (d : bool) (es : list (Z * Z * Z)) (g : Graph) :
  (let* g0 := Graph_new n d in add_edges g0 es) = Returns g ->
  upper_count g <= Z.of_nat (length (edges_ g)).
Proof.
  intros H. bind_inv H. pose proof (upper_count_new n d a Ha) as H0.
  destruct (Graph_new_Returns n d a Ha) as [Hn _].
  destruct (Graph_new_spec n d Hn) as (g0 & E0 & Hg0 & _).
  rewrite E0 in Ha. injection Ha as <-.
  apply (upper_count_add_edges es g0 g Hg0 H). lia.
Qed.

(** ** The print functions stay in bounds *)

Lemma for_loop_returns {St : Type} (body : Z -> St -> outcome St) (n : nat) (lo : Z) (s : St) :
  (forall j t, lo <= j < lo + Z.of_nat n -> exists t', body j t = Returns t') ->
  exists s', for_loop n lo body s = Returns s'.
Proof.
  intros H. destruct (for_loop_inv (fun _ _ => True) body n lo s I) as (s' & E & _).
  - intros j t Hj _. destruct (H j t Hj) as [t' Ht']. eauto.
  - eauto.
Qed.

Lemma for_loop_ext_range {St : Type} (body body' : Z -> St -> outcome St)
    (n : nat) (lo : Z) (s : St) :
  (forall j t, lo <= j < lo + Z.of_nat n -> body j t = body' j t) ->
  for_loop n lo body s = for_loop n lo body' s.
Proof.
  revert lo s. induction n as [|n IH]; intros lo s H; [reflexivity|].
  simpl. rewrite H by lia. destruct (body' lo s); simpl; [|reflexivity..].
  apply IH. intros j t Hj. apply H. lia.
Qed.

Lemma print_head_returns (g : Graph) : exists out, print_head g = Returns out.
Proof. unfold print_head. apply for_loop_returns. intros j t _. eauto. Qed.

Section PrintInc.
Variable g : Graph.
Variable E : Z.
Hypothesis Hg : wf_graph g.
Hypothesis Hup : upper_count g <= E.

(** One pair of the scan of [print_inc_matrix]: [edge_idx] counts the
    non-zero entries met so far, and stays below the number of rows. *)
Lemma inc_scan_cell_inv (i j : Z) (st : list (list Z) * Z) :
  0 <= i -> i + 1 <= j < vertices_ g ->
  shape E (vertices_ g) st.1 /\ st.2 = rows_count g i + row_count g i j ->
  exists st', inc_scan_cell g i j st = Returns st' /\
    shape E (vertices_ g) st'.1 /\ st'.2 = rows_count g i + row_count g i (j + 1).
Proof.
  intros Hi Hj [Hsh Hk]. destruct st as [inc k]. simpl in *.
  unfold inc_scan_cell. simpl.
  rewrite (mat_get_in _ _ _ i j (wf_adj g Hg)) by lia. simpl.
  rewrite row_count_step by lia. unfold nz.
  destruct (Z.eqb_spec (entry (adj_matrix_ g) i j) 0) as [Ea|Ea].
  - exists (inc, k). split; [reflexivity|]. simpl. split; [exact Hsh | lia].
  - assert (0 <= k < E) as Hkr.
    { pose proof (row_count_nonneg g i j).
      pose proof (rows_count_le g 0 i Hi) as H0. unfold rows_count at 1 in H0. simpl in H0.
      pose proof (row_count_step g i j ltac:(lia)) as Hs. unfold nz in Hs.
      destruct (Z.eqb_spec (entry (adj_matrix_ g) i j) 0); [contradiction|].
      pose proof (row_count_le g i (j + 1) (vertices_ g) ltac:(lia)).
      pose proof (rows_count_step g i Hi).
      pose proof (rows_count_le g (i + 1) (vertices_ g) ltac:(lia)).
      unfold upper_count in Hup. lia. }
    destruct (mat_set_in _ _ _ k i (entry (adj_matrix_ g) i j) Hsh Hkr ltac:(lia))
      as (m1 & E1 & S1 & _).
    destruct (mat_set_in _ _ _ k j (int_neg (entry (adj_matrix_ g) i j)) S1 Hkr ltac:(lia))
      as (m2 & E2 & S2 & _).
    rewrite E1. simpl. rewrite E2. simpl.
    exists (m2, k + 1). split; [reflexivity|]. simpl. split; [exact S2 | lia].
Qed.

Lemma inc_scan_row_inv (i : Z) (st : list (list Z) * Z) :
  0 <= i < vertices_ g ->
  shape E (vertices_ g) st.1 /\ st.2 = rows_count g i ->
  exists st', inc_scan_row g i st = Returns st' /\
    shape E (vertices_ g) st'.1 /\ st'.2 = rows_count g (i + 1).
Proof.
  intros Hi [Hsh Hk]. unfold inc_scan_row.
  destruct (for_loop_inv
              (fun j st => shape E (vertices_ g) st.1 /\
                           st.2 = rows_count g i + row_count g i j)
              (inc_scan_cell g i) (Z.to_nat (vertices_ g - (i + 1))) (i + 1) st)
    as (st' & E' & Hsh' & Hk').
  - split; [exact Hsh|]. unfold row_count.
    replace (Z.to_nat (i + 1 - (i + 1))) with O by lia. simpl. lia.
  - intros j t Hj Ht. apply inc_scan_cell_inv; [lia | lia | exact Ht].
  - exists st'. split; [exact E'|]. split; [exact Hsh'|].
    rewrite Hk', rows_count_step by lia. f_equal. f_equal. lia.
Qed.

Lemma print_inc_scan_returns :
  E = Z.of_nat (length (edges_ g)) ->
  exists inc, print_inc_scan g = Returns inc /\ shape E (vertices_ g) inc.
Proof.
  intros HE. pose proof (wf_vertices g Hg) as HN. unfold print_inc_scan.
  rewrite vec_new_in by exact HN. simpl. rewrite vec_new_in by lia. simpl.
  destruct (for_loop_inv
              (fun i st => shape E (vertices_ g) st.1 /\ st.2 = rows_count g i)
              (inc_scan_row g) (Z.to_nat (vertices_ g)) 0
              (replicate (Z.to_nat (Z.of_nat (length (edges_ g))))
                 (replicate (Z.to_nat (vertices_ g)) 0), 0))
    as (st' & E' & Hsh' & _).
  - simpl. split; [|reflexivity]. rewrite HE. apply shape_replicate; lia.
  - intros i t Hi Ht. apply inc_scan_row_inv; [lia | exact Ht].
  - rewrite E'. simpl. eauto.
Qed.
End PrintInc.

Lemma inc_text_row_returns (g : Graph) (inc : list (list Z)) (E i : Z) (out : string) :
  wf_graph g -> shape E (vertices_ g) inc -> 0 <= i < E ->
  exists out', inc_text_row g inc i out = Returns out'.
Proof.
  intros Hg Hsh Hi. unfold inc_text_row.
  destruct (for_loop_returns (inc_text_cell inc i) (Z.to_nat (vertices_ g)) 0
              (out +:+ "E" +:+ pretty i +:+ " ")) as [o Eo].
  - intros j o Hj. pose proof (wf_vertices g Hg). unfold inc_text_cell.
    rewrite (mat_get_in _ _ _ i j Hsh) by lia. cbn [bind].
    destruct (_ =? 0); eauto.
  - rewrite Eo. cbn [bind]. eauto.
Qed.

Lemma print_inc_matrix_returns (g : Graph) :
  wf_graph g -> upper_count g <= Z.of_nat (length (edges_ g)) ->
  exists text, print_inc_matrix g = Returns text.
Proof.
  intros Hg Hup.
  destruct (print_inc_scan_returns g _ Hg Hup eq_refl) as (inc & Einc & Hsh).
  destruct (print_head_returns g) as [out Eout].
  unfold print_inc_matrix. rewrite Einc. cbn [bind]. rewrite Eout. cbn [bind].
  destruct (for_loop_returns (inc_text_row g inc) (length (edges_ g)) 0 (out +:+ endl))
    as [out' Eout'].
  - intros i t Hi. apply (inc_text_row_returns g inc _ i t Hg Hsh). lia.
  - rewrite Eout'. cbn [bind]. eauto.
Qed.

Lemma adj_matrix_row_returns (g : Graph) (i : Z) (out : string) :
  wf_graph g -> 0 <= i < vertices_ g ->
  exists out', adj_matrix_row g i out = Returns out'.
Proof.
  intros Hg Hi. unfold adj_matrix_row.
  destruct (for_loop_returns (adj_matrix_cell g i) (Z.to_nat (vertices_ g)) 0
              (out +:+ "V" +:+ pretty i +:+ " ")) as [o Eo].
  - intros j o Hj. unfold adj_matrix_cell.
    rewrite (mat_get_in _ _ _ i j (wf_adj g Hg)) by lia. cbn [bind].
    destruct (0 <? _); eauto.
  - rewrite Eo. cbn [bind]. eauto.
Qed.

Lemma adj_list_row_returns (g : Graph) (i : Z) (out : string) :
  wf_graph g -> 0 <= i < vertices_ g ->
  exists out', adj_list_row g i out = Returns out'.
Proof.
  intros Hg Hi. unfold adj_list_row.
  destruct (for_loop_returns (adj_list_cell g i) (Z.to_nat (vertices_ g)) 0
              (out +:+ pretty i +:+ ": ")) as [o Eo].
  - intros j o Hj. unfold adj_list_cell.
    rewrite (mat_get_in _ _ _ i j (wf_adj g Hg)) by lia. cbn [bind].
    destruct (_ =? 0); eauto.
  - rewrite Eo. cbn [bind]. eauto.
Qed.

Lemma print_adj_returns (g : Graph) :
  wf_graph g ->
  (exists text, print_adj_matrix g = Returns text) /\
  (exists text, print_adj_list g = Returns text).
Proof.
  intros Hg. pose proof (wf_vertices g Hg) as HN. split.
  - destruct (print_head_returns g) as [out Eout].
    unfold print_adj_matrix. rewrite Eout. cbn [bind].
    destruct (for_loop_returns (adj_matrix_row g) (Z.to_nat (vertices_ g)) 0 (out +:+ endl))
      as [out' Eout'].
    + intros i t Hi. apply adj_matrix_row_returns; [exact Hg | lia].
    + rewrite Eout'. cbn [bind]. eauto.
  - unfold print_adj_list.
    destruct (for_loop_returns (adj_list_row g) (Z.to_nat (vertices_ g)) 0 "")
      as [out' Eout'].
    + intros i t Hi. apply adj_list_row_returns; [exact Hg | lia].
    + rewrite Eout'. cbn [bind]. eauto.
Qed.

(** ** What the print functions read *)

Lemma print_inc_scan_upper (g g' : Graph) :
  wf_graph g -> wf_graph g' -> vertices_ g' = vertices_ g ->
  length (edges_ g') = length (edges_ g) ->
  (forall i j, 0 <= i -> i < j -> j < vertices_ g ->
     entry (adj_matrix_ g') i j = entry (adj_matrix_ g) i j) ->
  print_inc_scan g' = print_inc_scan g.
Proof.
  intros Hg Hg' HN HE Hent. unfold print_inc_scan. rewrite HN, HE.
  destruct (vec_new (vertices_ g) 0); simpl; [|reflexivity..].
  destruct (vec_new _ a); simpl; [|reflexivity..].
  rewrite (for_loop_ext_range (inc_scan_row g') (inc_scan_row g)); [reflexivity|].
  intros i t Hi. unfold inc_scan_row. rewrite HN.
  apply for_loop_ext_range. intros j t' Hj. unfold inc_scan_cell.
  pose proof (wf_vertices g Hg).
  rewrite (mat_get_in _ _ _ i j (wf_adj g Hg)) by lia.
  rewrite (mat_get_in (vertices_ g) (vertices_ g) _ i j) by
    (rewrite <- ?HN; try exact (wf_adj g' Hg'); lia).
  rewrite Hent by lia. reflexivity.
Qed.

Lemma print_inc_matrix_upper (g g' : Graph) :
  wf_graph g -> wf_graph g' -> vertices_ g' = vertices_ g ->
  length (edges_ g') = length (edges_ g) ->
  (forall i j, 0 <= i -> i < j -> j < vertices_ g ->
     entry (adj_matrix_ g') i j = entry (adj_matrix_ g) i j) ->
  print_inc_matrix g' = print_inc_matrix g.
Proof.
  intros Hg Hg' HN HE Hent. unfold print_inc_matrix.
  rewrite (print_inc_scan_upper g g' Hg Hg' HN HE Hent).
  unfold print_head, inc_text_row. rewrite HN, HE. reflexivity.
Qed.

(** [print_adj_matrix] reads of an entry only whether it is positive. *)
Lemma print_adj_matrix_sign (g g' : Graph) :
  wf_graph g -> wf_graph g' -> vertices_ g' = vertices_ g ->
  (forall i j, 0 <= i < vertices_ g -> 0 <= j < vertices_ g ->
     (0 <? entry (adj_matrix_ g') i j) = (0 <? entry (adj_matrix_ g) i j)) ->
  print_adj_matrix g' = print_adj_matrix g.
Proof.
  intros Hg Hg' HN Hsign. unfold print_adj_matrix, print_head. rewrite HN.
  destruct (for_loop _ 0 _ "  "); cbn [bind]; [|reflexivity..].
  rewrite (for_loop_ext_range (adj_matrix_row g') (adj_matrix_row g)); [reflexivity|].
  intros i t Hi. unfold adj_matrix_row. rewrite HN.
  rewrite (for_loop_ext_range (adj_matrix_cell g' i) (adj_matrix_cell g i)); [reflexivity|].
  intros j t' Hj. unfold adj_matrix_cell. pose proof (wf_vertices g Hg).
  rewrite (mat_get_in _ _ _ i j (wf_adj g Hg)) by lia.
  rewrite (mat_get_in (vertices_ g) (vertices_ g) _ i j) by
    (rewrite <- ?HN; try exact (wf_adj g' Hg'); lia).
  cbn [bind]. rewrite Hsign by lia. reflexivity.
Qed.

Lemma backward_graph_built :
  (let* g0 := Graph_new 3 true in add_edges g0 [(1, 0, 4); (2, 1, 6)])
  = Returns backward_graph.
Proof. reflexivity. Qed.

Lemma loops_graph_built :
  (let* g0 := Graph_new 3 true in add_edges g0 [(1, 1, 2); (2, 2, 3)])
  = Returns loops_graph.
Proof. reflexivity. Qed.

Lemma square_graph_negative_built :
  (let* g0 := Graph_new 4 false in
   add_edges g0 [(0, 1, -5); (1, 2, 3); (0, 2, 1); (2, 3, 4)])
  = Returns square_graph_negative.
Proof. reflexivity. Qed.

Lemma square_graph_less_built :
  (let* g0 := Graph_new 4 false in add_edges g0 [(1, 2, 3); (0, 2, 1); (2, 3, 4)])
  = Returns square_graph_less.
Proof. reflexivity. Qed.

(** * The Graph class: claims *)

(** C5, as stated, fails on a directed self-loop: [add_edge(0, 0, 5)] on a
    directed graph changes the entry [v][u], which is the entry [u][v]. *)
Lemma add_edge_directed_self_loop_changes :
  exists g g',
    Graph_new 1 true = Returns g /\ add_edge g 0 0 5 = Returns g' /\
    directed_ g = true /\
    entry (adj_matrix_ g') 0 0 <> entry (adj_matrix_ g) 0 0.
Proof.
  eexists _, _. split; [reflexivity|]. split; [reflexivity|].
  split; [reflexivity|]. vm_compute. discriminate.
Qed.

(** C5 (amended): on a well-formed graph and for indices in range,
    [add_edge(u, v, w)] returns; afterwards the entry [u][v] is [w], the
    pair [(v, w)] is appended to the adjacency list of [u] and [(u, v)]
    to the edge list; when the graph is undirected the entry [v][u] is [w]
    too and a symmetric matrix stays symmetric; when the graph is directed
    and [u <> v] the entry [v][u] is unchanged. *)
Theorem add_edge_effect (g : Graph) (u v w : Z) :
  wf_graph g -> in_range g u -> in_range g v ->
  exists g' lu,
    add_edge g u v w = Returns g' /\
    entry (adj_matrix_ g') u v = w /\
    vec_get (adj_list_ g) u = Returns lu /\
    vec_get (adj_list_ g') u = Returns (lu ++ [(v, w)]) /\
    edges_ g' = edges_ g ++ [(u, v)] /\
    (directed_ g = false ->
       entry (adj_matrix_ g') v u = w /\
       (symmetric (adj_matrix_ g) -> symmetric (adj_matrix_ g'))) /\
    (directed_ g = true -> u <> v ->
       entry (adj_matrix_ g') v u = entry (adj_matrix_ g) v u).
Proof.
  intros Hg Hu Hv.
  destruct (add_edge_spec g u v w Hg Hu Hv)
    as (g' & lu & E & Hg' & HN & Hd & Hi & He & Elu & Hal & R).
  exists g', lu. split; [exact E|]. split; [|split; [exact Elu|split; [|split; [exact He|split]]]].
  - rewrite R. goal_decide; [reflexivity | tauto].
  - rewrite Hal. unfold in_range in Hu.
    rewrite vec_get_set; [|rewrite (wf_adj_list g Hg); lia | lia].
    goal_decide; [reflexivity | congruence].
  - intros Hund. split.
    + rewrite R. goal_decide; [reflexivity | tauto].
    + intros Hsym a b. rewrite !R, (Hsym a b). clear R.
      repeat goal_decide; try reflexivity; exfalso; intuition congruence.
  - intros Hdir Huv. rewrite R. destruct (decide _) as [H|H]; [|reflexivity].
    exfalso. destruct H as [[? ?]|[? _]]; congruence.
Qed.

Lemma add_edge_effect_witness :
  exists g' lu,
    add_edge scenario_graph 2 0 7 = Returns g' /\
    entry (adj_matrix_ g') 2 0 = 7 /\
    vec_get (adj_list_ scenario_graph) 2 = Returns lu /\
    vec_get (adj_list_ g') 2 = Returns (lu ++ [(0, 7)]) /\
    edges_ g' = edges_ scenario_graph ++ [(2, 0)] /\
    (directed_ scenario_graph = false ->
       entry (adj_matrix_ g') 0 2 = 7 /\
       (symmetric (adj_matrix_ scenario_graph) -> symmetric (adj_matrix_ g'))) /\
    (directed_ scenario_graph = true -> 2 <> 0 ->
       entry (adj_matrix_ g') 0 2 = entry (adj_matrix_ scenario_graph) 0 2).
Proof.
  apply (add_edge_effect scenario_graph 2 0 7).
  - exact (constructed_wf _ _ _ _ scenario_graph_built).
  - unfold in_range. simpl. lia.
  - unfold in_range. simpl. lia.
Defined.

(** C3, as stated, fails on a directed self-loop: for the edge (0,0) of
    weight 5 the row 0 of its column holds -5, written second, and not 5. *)
Lemma get_inc_matrix_directed_self_loop :
  exists h m,
    get_inc_matrix loop_graph = Returns (h, m) /\
    entry m 0 0 = -5 /\ ~ spec_inc_matrix loop_graph m.
Proof.
  eexists _, _. split; [reflexivity|]. split; [reflexivity|].
  intros [_ H]. destruct (H 0 0 0 eq_refl) as [H1 _].
  vm_compute in H1. discriminate.
Qed.

(** C3 (amended): on a well-formed graph whose incidence matrix has not
    been computed yet, [get_inc_matrix] returns a matrix of [vertices_]
    rows and as many columns as there are edges; for the edge [(u, v)] of
    index [i], with [w] the absolute value of the entry [u][v] of the
    adjacency matrix, row [v] holds [-w] when the graph is directed and [w]
    otherwise, row [u] holds [w] unless the edge is a self-loop of a
    directed graph (then it holds [-w]), and every other row holds 0.  On
    the three-vertex graph with undirected edges (0,1,2), (1,2,3) the
    result is [[2;0];[2;3];[0;3]]. *)
Theorem get_inc_matrix_entries (g : Graph) :
  wf_graph g -> inc_matrix_ g = [] ->
  (exists h m,
     get_inc_matrix g = Returns (h, m) /\
     shape (vertices_ g) (Z.of_nat (length (edges_ g))) m /\
     forall i u v, vec_get (edges_ g) i = Returns (u, v) ->
       let w := int_abs (entry (adj_matrix_ g) u v) in
       entry m v i = (if directed_ g then int_neg w else w) /\
       (u <> v \/ directed_ g = false -> entry m u i = w) /\
       (forall r, r <> u -> r <> v -> entry m r i = 0)) /\
  (let* g3 := Graph_new 3 false in
   let* g3 := add_edges g3 [(0, 1, 2); (1, 2, 3)] in
   let* r := get_inc_matrix g3 in Returns r.2) = Returns [[2; 0]; [2; 3]; [0; 3]].
Proof.
  intros Hg Hi. split; [|reflexivity].
  destruct (get_inc_matrix_first g Hg Hi) as (m & E & Sm & Rm).
  eexists _, m. split; [exact E|]. split; [exact Sm|].
  intros i u v He w.
  assert (0 <= i < Z.of_nat (length (edges_ g))) as Hir.
  { apply vec_get_Returns in He as [H0 He]. apply lookup_lt_Some in He. lia. }
  assert (forall r, entry m r i =
            if decide (r = v) then (if directed_ g then int_neg w else w)
            else if decide (r = u) then w else 0) as Hr.
  { intros r. rewrite Rm by exact Hir. unfold inc_entry. rewrite He. reflexivity. }
  split; [|split].
  - rewrite Hr. goal_decide; [reflexivity | congruence].
  - intros Huv. rewrite Hr. clear Hr. goal_decide.
    + destruct Huv as [Huv| ->]; [congruence | reflexivity].
    + goal_decide; [reflexivity | congruence].
  - intros r Hru Hrv. rewrite Hr. clear Hr. repeat goal_decide; congruence.
Qed.

Lemma get_inc_matrix_entries_witness :
  exists h m,
    get_inc_matrix scenario_graph = Returns (h, m) /\
    shape 3 2 m /\ entry m 1 1 = 3 /\ entry m 0 1 = 0.
Proof.
  destruct (get_inc_matrix_entries scenario_graph
              (constructed_wf _ _ _ _ scenario_graph_built) eq_refl)
    as [(h & m & E & Sm & Hcol) _].
  exists h, m. split; [exact E|]. split; [exact Sm|].
  destruct (Hcol 1 1 2 eq_refl) as (_ & Hu & H0).
  split; [exact (Hu (or_intror eq_refl)) | apply H0; discriminate].
Defined.

(** C4: once [get_inc_matrix] has been called on a graph, every later call
    returns the matrix of the first call, whatever [add_edge] (and
    [get_inc_matrix]) calls were made in between. *)
Theorem get_inc_matrix_stale (g g1 g2 : Graph) (m1 : list (list Z)) (cs : list call) :
  wf_graph g ->
  get_inc_matrix g = Returns (g1, m1) ->
  run_calls g1 cs = Returns g2 ->
  exists g3, get_inc_matrix g2 = Returns (g3, m1).
Proof.
  intros Hg E1 Hcs.
  pose proof (get_inc_matrix_caches g g1 m1 Hg E1) as Hc.
  pose proof (run_calls_cached m1 cs g1 g2 Hc Hcs) as Hc2.
  destruct (get_inc_matrix_cached m1 g2 Hc2) as (g3 & E3 & _).
  exists g3. exact E3.
Qed.

Lemma get_inc_matrix_stale_witness :
  length (edges_ scenario_later) = 4%nat /\
  exists g3, get_inc_matrix scenario_later = Returns (g3, [[2; 0]; [2; 3]; [0; 3]]).
Proof.
  split; [reflexivity|].
  apply (get_inc_matrix_stale scenario_graph scenario_cached scenario_later
           [[2; 0]; [2; 3]; [0; 3]] stale_calls).
  - exact (constructed_wf _ _ _ _ scenario_graph_built).
  - reflexivity.
  - reflexivity.
Defined.

(** C10, as stated, fails for a negative second weight: on 2 vertices,
    undirected, after [add_edge(0, 1, 4)] and [add_edge(0, 1, -9)] the entry
    [0][1] is -9, and the first [get_inc_matrix] has two columns that carry
    9 in both rows, not the weight -9. *)
Lemma add_edge_twice_negative_weight :
  exists g g1 g2 h m,
    Graph_new 2 false = Returns g /\
    add_edge g 0 1 4 = Returns g1 /\
    add_edge g1 0 1 (-9) = Returns g2 /\
    entry (adj_matrix_ g2) 0 1 = -9 /\
    get_edges g2 = [(0, 1); (0, 1)] /\
    get_inc_matrix g2 = Returns (h, m) /\
    m = [[9; 9]; [9; 9]].
Proof. do 5 eexists. repeat split; reflexivity. Qed.

(** C10 (amended): on a well-formed graph whose incidence matrix has not been
    computed, after [add_edge(u, v, w1)], further [add_edge] calls and
    [add_edge(u, v, w2)] with [u <> v]: the entry [u][v] is [w2]; the
    adjacency list of [u] holds [(v, w1)] and, last, [(v, w2)]; the edge list
    holds [(u, v)] at two indices; the first [get_inc_matrix] has a column
    for each, both with [abs w2] in row [u] (that is [w2] for a weight that
    is not negative) and [abs w2] (its opposite when directed) in row [v];
    and the adjacency and incidence matrices are the same whatever [w1]
    was. *)
Theorem add_edge_twice (g g1 g2 g3 : Graph) (u v w1 w2 : Z) (mid : list (Z * Z * Z)) :
  wf_graph g -> inc_matrix_ g = [] -> u <> v ->
  add_edge g u v w1 = Returns g1 ->
  add_edges g1 mid = Returns g2 ->
  add_edge g2 u v w2 = Returns g3 ->
  let i := Z.of_nat (length (edges_ g)) in
  let j := Z.of_nat (length (edges_ g2)) in
  entry (adj_matrix_ g3) u v = w2 /\
  (exists l0 l1, vec_get (adj_list_ g3) u = Returns (l0 ++ (v, w1) :: l1 ++ [(v, w2)])) /\
  edges_ g3 = edges_ g ++ (u, v) :: map edge_of mid ++ [(u, v)] /\
  i < j /\
  vec_get (edges_ g3) i = Returns (u, v) /\ vec_get (edges_ g3) j = Returns (u, v) /\
  exists h m,
    get_inc_matrix g3 = Returns (h, m) /\
    entry m u i = int_abs w2 /\ entry m u j = int_abs w2 /\
    entry m v i = (if directed_ g then int_neg (int_abs w2) else int_abs w2) /\
    entry m v j = (if directed_ g then int_neg (int_abs w2) else int_abs w2) /\
    (0 <= w2 <= INT_MAX -> entry m u i = w2 /\ entry m u j = w2) /\
    forall w1', exists g1' g2' g3' h',
      add_edge g u v w1' = Returns g1' /\
      add_edges g1' mid = Returns g2' /\
      add_edge g2' u v w2 = Returns g3' /\
      adj_matrix_ g3' = adj_matrix_ g3 /\
      get_inc_matrix g3' = Returns (h', m).
Proof.
  intros Hg Hi Huv E1 Emid E3 i j.
  destruct (add_edge_Returns g g1 u v w1 Hg E1) as [Hu Hv].
  destruct (add_edge_spec g u v w1 Hg Hu Hv)
    as (g1_ & lu & E1' & Hg1 & HN1 & Hd1 & Hi1 & He1 & Elu & Hal1 & R1).
  rewrite E1 in E1'. injection E1' as <-.
  destruct (add_edges_wf mid g1 g2 Hg1 Emid) as (Hg2 & HN2 & Hd2 & Hi2).
  pose proof (add_edges_edges mid g1 g2 Hg1 Emid) as He2.
  assert (in_range g2 u /\ in_range g2 v) as [Hu2 Hv2].
  { unfold in_range in *. lia. }
  destruct (add_edge_spec g2 u v w2 Hg2 Hu2 Hv2)
    as (g3_ & lu2 & E3' & Hg3 & HN3 & Hd3 & Hi3 & He3 & Elu2 & Hal3 & R3).
  rewrite E3 in E3'. injection E3' as <-.
  assert (edges_ g3 = edges_ g ++ (u, v) :: map edge_of mid ++ [(u, v)]) as Hedges.
  { rewrite He3, He2, He1. rewrite <- !app_assoc. reflexivity. }
  assert (entry (adj_matrix_ g3) u v = w2) as Huv3.
  { rewrite R3. goal_decide; [reflexivity | tauto]. }
  assert (i < j) as Hij.
  { unfold i, j. rewrite He2, He1, !length_app. simpl. lia. }
  assert (vec_get (edges_ g3) i = Returns (u, v)) as Hei.
  { apply vec_get_Returns. split; [lia|]. unfold i. rewrite Nat2Z.id, Hedges.
    rewrite lookup_app_r by lia. rewrite Nat.sub_diag. reflexivity. }
  assert (vec_get (edges_ g3) j = Returns (u, v)) as Hej.
  { apply vec_get_Returns. split; [lia|]. unfold j. rewrite Nat2Z.id, He3.
    rewrite lookup_app_r by lia. rewrite Nat.sub_diag. reflexivity. }
  split; [exact Huv3|]. split.
  { assert (vec_get (adj_list_ g1) u = Returns (lu ++ [(v, w1)])) as Hl1.
    { rewrite Hal1. unfold in_range in Hu.
      rewrite vec_get_set; [|rewrite (wf_adj_list g Hg); lia | lia].
      goal_decide; [reflexivity | congruence]. }
    destruct (add_edges_adj_list mid g1 g2 u _ Hg1 Emid Hl1) as [l' Hl2].
    exists lu, l'. rewrite Hal3. unfold in_range in Hu2.
    rewrite vec_get_set; [|rewrite (wf_adj_list g2 Hg2); lia | lia].
    goal_decide; [|congruence]. rewrite Hl2 in Elu2. injection Elu2 as <-.
    rewrite <- !app_assoc. reflexivity. }
  split; [exact Hedges|]. split; [exact Hij|]. split; [exact Hei|]. split; [exact Hej|].
  assert (inc_matrix_ g3 = []) as Hi3' by congruence.
  destruct (get_inc_matrix_first g3 Hg3 Hi3') as (m & Em & Sm & Rm).
  assert (Z.of_nat (length (edges_ g3)) = j + 1) as Hlen.
  { rewrite He3, length_app. simpl. lia. }
  assert (directed_ g3 = directed_ g) as Hd by congruence.
  eexists _, m. split; [exact Em|].
  assert (forall r k, vec_get (edges_ g3) k = Returns (u, v) ->
            0 <= k < Z.of_nat (length (edges_ g3)) ->
            entry m r k =
              if decide (r = v)
              then (if directed_ g then int_neg (int_abs w2) else int_abs w2)
              else if decide (r = u) then int_abs w2 else 0) as Hcol.
  { intros r k Hk Hkr. rewrite Rm by exact Hkr. unfold inc_entry.
    rewrite Hk, Huv3, Hd. reflexivity. }
  assert (entry m u i = int_abs w2 /\ entry m u j = int_abs w2) as [Hui Huj].
  { rewrite (Hcol u i Hei), (Hcol u j Hej) by lia. split; repeat goal_decide; congruence. }
  split; [exact Hui|]. split; [exact Huj|]. split; [|split; [|split]].
  - rewrite (Hcol v i Hei) by lia. goal_decide; congruence.
  - rewrite (Hcol v j Hej) by lia. goal_decide; congruence.
  - intros Hw2. rewrite Hui, Huj.
    destruct (int_abs_in_range w2) as [Habs _]; [unfold INT_MIN, INT_MAX in *; lia|].
    rewrite Habs. lia.
  - intros w1'.
    destruct (same_but_first u v w1 w1' g g1 Hg E1) as (g1' & E1' & Hs1).
    destruct (same_but_add_edges u v mid g1 g1' g2 Hs1 Emid) as (g2' & E2' & Hs2).
    destruct (same_but_overwrite u v w2 g2 g2' g3 Hs2 E3)
      as (g3' & E3' & Hg3' & HN' & Hd' & He' & Hi' & Ha').
    assert (inc_matrix_ g3' = []) as Hi3'' by congruence.
    destruct (get_inc_matrix_first_ext g3 g3' Hg3 Hg3' Hi3' Hi3'' HN' Hd' He' Ha')
      as (h & h' & m' & Eh & Eh').
    rewrite Em in Eh. injection Eh as _ <-.
    exists g1', g2', g3', h'. repeat split; assumption.
Qed.

Lemma add_edge_twice_witness :
  entry (adj_matrix_ twice_g3) 0 1 = 9 /\
  edges_ twice_g3 = [(0, 1); (1, 0); (0, 1)] /\
  exists h m,
    get_inc_matrix twice_g3 = Returns (h, m) /\
    entry m 0 0 = 9 /\ entry m 0 2 = 9 /\ entry m 1 0 = -9 /\ entry m 1 2 = -9.
Proof.
  pose proof (add_edge_twice empty2_directed twice_g1 twice_g2 twice_g3 0 1 4 9
                [(1, 0, 3)]
                (constructed_wf _ _ _ _ empty2_directed_built) eq_refl
                ltac:(discriminate) eq_refl eq_refl eq_refl) as H.
  cbv zeta in H.
  destruct H as (Huv & _ & He & _ & _ & _ & h & m & E & A & B & C & D & _ & _).
  split; [exact Huv|]. split; [exact He|].
  exists h, m. split; [exact E|]. split; [exact A|]. split; [exact B|].
  split; [exact C | exact D].
Defined.

(** * The searches: claims *)

(** C2: on a well-formed graph, for a source and a target in range,
    [bfs_shortest_path] returns (for every fuel above the vertex count, the
    same sequence); the sequence is non-empty exactly when the target is
    reachable from the source; when non-empty it starts with the source,
    ends with the target, each consecutive pair is connected by a non-zero
    entry of the adjacency matrix, and no path from the source to the
    target is shorter; when the target is unreachable it is empty. *)
Theorem bfs_shortest_path_correct (g : Graph) (source target : Z) :
  wf_graph g -> in_range g source -> in_range g target ->
  exists path,
    (forall fuel, (Z.to_nat (vertices_ g) < fuel)%nat ->
       bfs_shortest_path fuel g source target = Returns path) /\
    (path <> [] <-> reachable g source target) /\
    (path <> [] ->
       head path = Some source /\ last path = Some target /\ chain g path = true /\
       forall p, is_path g source target p -> (length path <= length p)%nat) /\
    (~ reachable g source target -> path = []).
Proof.
  intros Hg Hs Ht.
  destruct (bfs_run g source target (S (Z.to_nat (vertices_ g))) Hg Hs Ht ltac:(lia))
    as (path & E & Hiff & Hpath).
  exists path. split; [|split; [exact Hiff|split]].
  - intros fuel Hf. apply (bfs_shortest_path_mono g (S (Z.to_nat (vertices_ g)))); [lia|exact E].
  - intros Hne. destruct (Hpath Hne) as [(Hh & Hl & Hc) Hmin]. auto.
  - intros Hnr. destruct path as [|x path]; [reflexivity|].
    exfalso. apply Hnr. apply Hiff. discriminate.
Qed.

Lemma bfs_shortest_path_correct_witness :
  bfs_shortest_path 5 square_graph 0 3 = Returns [0; 2; 3] /\
  reachable square_graph 0 3 /\
  forall p, is_path square_graph 0 3 p -> (3 <= length p)%nat.
Proof.
  destruct (bfs_shortest_path_correct square_graph 0 3
              (constructed_wf _ _ _ _ square_graph_built))
    as (path & Hfuel & Hiff & Hpath & _).
  - unfold in_range. simpl. lia.
  - unfold in_range. simpl. lia.
  - assert (path = [0; 2; 3]) as ->.
    { specialize (Hfuel 5%nat ltac:(simpl; lia)).
      change (bfs_shortest_path 5 square_graph 0 3) with (Returns [0; 2; 3]) in Hfuel.
      congruence. }
    split; [reflexivity|]. split; [apply Hiff; discriminate|].
    apply Hpath. discriminate.
Defined.

(** C6: on a well-formed graph, for a source and a target in range,
    [dfs_shortest_path] returns (for every fuel above the vertex count, the
    same sequence); the sequence is non-empty exactly when the target is
    reachable from the source; when non-empty it starts with the source,
    ends with the target and each consecutive pair is connected by a
    non-zero entry of the adjacency matrix.  It need not be a shortest
    path: on the pentagon 0-1, 0-2, 2-3, 1-4, 3-4 the search from 0 to 4
    returns 0, 2, 3, 4 although 0, 1, 4 is a path. *)
Theorem dfs_shortest_path_correct (g : Graph) (source target : Z) :
  wf_graph g -> in_range g source -> in_range g target ->
  (exists path,
     (forall fuel, (Z.to_nat (vertices_ g) < fuel)%nat ->
        dfs_shortest_path fuel g source target = Returns path) /\
     (path <> [] <-> reachable g source target) /\
     (path <> [] ->
        head path = Some source /\ last path = Some target /\ chain g path = true)) /\
  (dfs_shortest_path 6 pentagon_graph 0 4 = Returns [0; 2; 3; 4] /\
   is_path pentagon_graph 0 4 [0; 1; 4]).
Proof.
  intros Hg Hs Ht. split; [|split; [reflexivity | repeat split]].
  destruct (dfs_run g source target (S (Z.to_nat (vertices_ g))) Hg Hs Ht ltac:(lia))
    as (path & E & Hiff & Hpath).
  exists path. split; [|split; [exact Hiff | exact Hpath]].
  intros fuel Hf. apply (dfs_shortest_path_mono g (S (Z.to_nat (vertices_ g)))); [lia|exact E].
Qed.

Lemma dfs_shortest_path_correct_witness :
  dfs_shortest_path 6 pentagon_graph 0 4 = Returns [0; 2; 3; 4] /\
  reachable pentagon_graph 0 4.
Proof.
  destruct (dfs_shortest_path_correct pentagon_graph 0 4
              (constructed_wf _ _ _ _ pentagon_graph_built))
    as [(path & Hfuel & Hiff & _) [Hrun _]].
  - unfold in_range. simpl. lia.
  - unfold in_range. simpl. lia.
  - split; [exact Hrun|].
    specialize (Hfuel 6%nat ltac:(simpl; lia)). rewrite Hrun in Hfuel.
    apply Hiff. injection Hfuel as <-. discriminate.
Defined.

(** C7, as stated, fails: no access is checked, so an index out of range
    is undefined behaviour and no OutOfRange exception is thrown. *)
Lemma out_of_range_not_checked :
  (add_edge scenario_graph 3 0 1 = Undefined /\
   add_edge scenario_graph 3 0 1 <> Throws OutOfRange) /\
  (bfs_shortest_path 4 scenario_graph 3 0 = Undefined /\
   bfs_shortest_path 4 scenario_graph 3 0 <> Throws OutOfRange) /\
  (dfs_shortest_path 4 scenario_graph 0 (-1) = Undefined /\
   dfs_shortest_path 4 scenario_graph 0 (-1) <> Throws OutOfRange).
Proof. repeat split; discriminate. Qed.

(** C7 (amended): on a well-formed graph, [add_edge] called with a
    vertex index outside [0, vertexCount), and [bfs_shortest_path] and
    [dfs_shortest_path] called with a source or a target outside
    [0, vertexCount), access a vector out of bounds without a check:
    the behaviour is undefined, and no exception is thrown. *)
Theorem out_of_range_is_undefined (g : Graph) (u v w : Z) (fuel : nat) :
  wf_graph g -> ~ (in_range g u /\ in_range g v) ->
  (Z.to_nat (vertices_ g) < fuel)%nat ->
  add_edge g u v w = Undefined /\
  bfs_shortest_path fuel g u v = Undefined /\
  dfs_shortest_path fuel g u v = Undefined.
Proof.
  intros Hg Hout Hf. split; [exact (add_edge_out g u v w Hg Hout)|].
  destruct (decide (in_range g u)) as [Hu|Hu].
  - assert (~ in_range g v) as Hv by tauto. split.
    + destruct (bfs_search g u v fuel Hg Hu Hf) as (st & E & (d & L & HT & _) & _).
      rewrite E. exact (reconstruct_target_out g u v st d fuel HT Hv).
    + destruct (dfs_search g u v fuel Hg Hu Hf) as (st & E & (d & HT & _) & _).
      rewrite E. exact (reconstruct_target_out g u v st d fuel HT Hv).
  - exact (search_source_out g u v fuel Hg Hu).
Qed.

Lemma out_of_range_is_undefined_witness :
  add_edge scenario_graph 0 3 1 = Undefined /\
  bfs_shortest_path 4 scenario_graph 0 3 = Undefined /\
  dfs_shortest_path 4 scenario_graph 0 3 = Undefined.
Proof.
  apply (out_of_range_is_undefined scenario_graph 0 3 1 4).
  - exact (constructed_wf _ _ _ _ scenario_graph_built).
  - unfold in_range. simpl. lia.
  - simpl. lia.
Defined.

(** * The generator: claims *)

(** C1 (the code departs from it): [generate_graph] called with
    [directed = true] builds its graph by [Graph g(num_vertices)], so the
    graph returned is undirected: [add_edge] sets both entries of the pair,
    and the duplicate check then rejects the opposite direction.  With 3
    vertices, 2 edges to place and the pairs (0,1), (1,0), (1,2) drawn in
    that order, the edges placed are (0,1) and (1,2), not (0,1) and (1,0). *)
Theorem generate_graph_directed_ignored :
  exists g,
    generate_graph 10 rand_both_ways 3 3 2 2 5 true 5 5 = Returns g /\
    directed_ g = false /\
    edges_ g = [(0, 1); (1, 2)] /\
    entry (adj_matrix_ g) 0 1 = 42 /\ entry (adj_matrix_ g) 1 0 = 42.
Proof. eexists. split; [reflexivity|]. repeat split. Qed.

(** C8, as stated, fails: with 3 vertices and 4 edges to place the loop
    of [generate_graph] never ends. *)
Lemma generate_graph_loops_forever :
  diverges (fun fuel => generate_graph fuel (fun k => Z.of_nat k) 3 3 4 4 3 false 1 1).
Proof.
  apply (generate_graph_never_returns _ _ _ _ _ _ _ _ _ 3 4).
  - exact rand_of_nat_nonneg.
  - reflexivity.
  - reflexivity.
  - lia.
  - vm_compute. reflexivity.
Qed.

(** C8 (amended): [generate_graph] has no feasibility check and no bound on
    its iterations: when the number of vertices it draws, the int
    [rand() % (max_vertices - min_vertices + 1) + min_vertices], is at least
    1 and the number of edges it draws, the int
    [rand() % (max_edges - min_edges + 1) + min_edges], exceeds
    [num_vertices * (num_vertices - 1) / 2], its rejection loop never ends,
    whatever values [rand()] returns, also when a maximum is below its
    minimum; no InfeasibleConstraints condition is raised. *)
Theorem generate_graph_infeasible_diverges (rand : nat -> Z)
    (min_vertices max_vertices min_edges max_edges max_edges_per_vertex : Z)
    (directed : bool) (max_incoming_edges max_outgoing_edges : Z)
    (vertex_count edge_count : Z) :
  (forall k, 0 <= rand k) ->
  rand_between (rand 0%nat) min_vertices max_vertices = Returns vertex_count ->
  rand_between (rand 1%nat) min_edges max_edges = Returns edge_count ->
  1 <= vertex_count -> vertex_count * (vertex_count - 1) / 2 < edge_count ->
  diverges (fun fuel =>
    generate_graph fuel rand min_vertices max_vertices min_edges max_edges
      max_edges_per_vertex directed max_incoming_edges max_outgoing_edges).
Proof. exact (generate_graph_never_returns rand _ _ _ _ _ _ _ _ _ _). Qed.

Lemma generate_graph_infeasible_diverges_witness :
  diverges (fun fuel => generate_graph fuel rand_example 5 1 20 20 1 true 1 1).
Proof.
  apply (generate_graph_infeasible_diverges rand_example 5 1 20 20 1 true 1 1 5 20).
  - exact rand_example_nonneg.
  - reflexivity.
  - reflexivity.
  - lia.
  - vm_compute. reflexivity.
Defined.

(** C9: the result of [generate_graph] does not depend on
    [max_edges_per_vertex]: with every other argument and the values of
    [rand()] equal, two calls have the same outcome.  The rejection by
    degree compares with [num_vertices - 1] only: with
    [max_edges_per_vertex = 0] and 3 vertices the edges (0,1) and (1,2) are
    still placed, two of them at vertex 1. *)
Theorem generate_graph_ignores_max_edges_per_vertex (fuel : nat) (rand : nat -> Z)
    (min_vertices max_vertices min_edges max_edges : Z)
    (max_edges_per_vertex max_edges_per_vertex' : Z)
    (directed : bool) (max_incoming_edges max_outgoing_edges : Z) :
  generate_graph fuel rand min_vertices max_vertices min_edges max_edges
    max_edges_per_vertex directed max_incoming_edges max_outgoing_edges
  = generate_graph fuel rand min_vertices max_vertices min_edges max_edges
      max_edges_per_vertex' directed max_incoming_edges max_outgoing_edges /\
  exists g,
    generate_graph 10 rand_both_ways 3 3 2 2 0 false 5 5 = Returns g /\
    edges_ g = [(0, 1); (1, 2)].
Proof.
  split; [reflexivity|].
  eexists. split; reflexivity.
Qed.

(** * Further properties of the Graph class *)

(** X1: a graph obtained from the constructor [Graph(n, d)] by [add_edge]
    calls that all return has [n] vertices and the directedness [d], an
    adjacency matrix of [n] rows of [n] columns, [n] adjacency lists, and
    only edges whose two ends are in [0, n). *)
Theorem graph_class_invariant (n : Z) (d : bool) (es : list (Z * Z * Z)) (g : Graph) :
  (let* g0 := Graph_new n d in add_edges g0 es) = Returns g ->
  vertices_ g = n /\ directed_ g = d /\ 0 <= n /\
  Z.of_nat (length (get_adj_matrix g)) = n /\
  Forall (fun row => Z.of_nat (length row) = n) (get_adj_matrix g) /\
  Z.of_nat (length (get_adj_list g)) = n /\
  Forall (fun e => 0 <= e.1 < n /\ 0 <= e.2 < n) (get_edges g).
Proof.
  intros H. pose proof (constructed_wf n d es g H) as Hg.
  bind_inv H. destruct (Z.ltb_spec n 0) as [Hn|Hn].
  { rewrite Graph_new_negative in Ha by assumption. discriminate. }
  destruct (Graph_new_spec n d Hn) as (g0 & E0 & Hg0 & HN0 & Hd0 & _).
  rewrite E0 in Ha. injection Ha as <-.
  destruct (add_edges_wf es g0 g Hg0 H) as (_ & HN & Hd & _).
  assert (vertices_ g = n) as Hv by congruence.
  destruct Hg as [_ [Hlen Hrows] Hal Hed]. unfold get_adj_matrix, get_adj_list, get_edges.
  unfold in_range in Hed. rewrite Hv in Hlen, Hrows, Hal, Hed.
  split; [exact Hv|]. split; [congruence|]. split; [exact Hn|].
  split; [exact Hlen|]. split; [exact Hrows|]. split; [exact Hal | exact Hed].
Qed.

Lemma graph_class_invariant_witness :
  vertices_ square_graph = 4 /\ directed_ square_graph = false /\ 0 <= 4 /\
  Z.of_nat (length (get_adj_matrix square_graph)) = 4 /\
  Forall (fun row => Z.of_nat (length row) = 4) (get_adj_matrix square_graph) /\
  Z.of_nat (length (get_adj_list square_graph)) = 4 /\
  Forall (fun e => 0 <= e.1 < 4 /\ 0 <= e.2 < 4) (get_edges square_graph).
Proof.
  exact (graph_class_invariant 4 false
           [(0, 1, 5); (1, 2, 3); (0, 2, 1); (2, 3, 4)] square_graph
           square_graph_built).
Defined.

(** X2: [get_edges] lists one pair per [add_edge] call, in the order of the
    calls and with the ends as passed, repeated calls included; its length
    is the number of calls. *)
Theorem get_edges_records_calls (n : Z) (d : bool) (es : list (Z * Z * Z)) (g : Graph) :
  (let* g0 := Graph_new n d in add_edges g0 es) = Returns g ->
  get_edges g = map edge_of es /\ length (get_edges g) = length es.
Proof.
  intros H. bind_inv H. destruct (Z.ltb_spec n 0) as [Hn|Hn].
  { rewrite Graph_new_negative in Ha by assumption. discriminate. }
  destruct (Graph_new_spec n d Hn) as (g0 & E0 & Hg0 & _ & _ & He0 & _).
  rewrite E0 in Ha. injection Ha as <-.
  pose proof (add_edges_edges es g0 g Hg0 H) as He. rewrite He0 in He. simpl in He.
  unfold get_edges. rewrite He, length_map. auto.
Qed.

Lemma get_edges_records_calls_witness :
  get_edges twice_g3 = [(0, 1); (1, 0); (0, 1)] /\ length (get_edges twice_g3) = 3%nat.
Proof.
  exact (get_edges_records_calls 2 true [(0, 1, 4); (1, 0, 3); (0, 1, 9)] twice_g3 eq_refl).
Defined.

(** X3: the adjacency matrix of an undirected graph obtained from the
    constructor by [add_edge] calls is symmetric. *)
Theorem undirected_matrix_symmetric (n : Z) (es : list (Z * Z * Z)) (g : Graph) :
  (let* g0 := Graph_new n false in add_edges g0 es) = Returns g ->
  symmetric (get_adj_matrix g).
Proof. intros H. exact (constructed_symmetric n es g H). Qed.

Lemma undirected_matrix_symmetric_witness :
  symmetric (get_adj_matrix square_graph).
Proof.
  exact (undirected_matrix_symmetric 4 [(0, 1, 5); (1, 2, 3); (0, 2, 1); (2, 3, 4)]
           square_graph square_graph_built).
Defined.

(** X4: the adjacency list of a vertex [x] holds, in the order of the
    calls, the pair [(v, w)] of every call [add_edge(x, v, w)] and nothing
    else: in an undirected graph too a call [add_edge(u, x, w)] adds nothing
    to the list of [x]. *)
Theorem get_adj_list_records_calls (n : Z) (d : bool) (es : list (Z * Z * Z))
    (g : Graph) (x : Z) :
  (let* g0 := Graph_new n d in add_edges g0 es) = Returns g ->
  0 <= x < n ->
  vec_get (get_adj_list g) x = Returns (calls_from x es).
Proof.
  intros H Hx. bind_inv H. destruct (Z.ltb_spec n 0) as [Hn|Hn]; [lia|].
  destruct (Graph_new_spec n d Hn) as (g0 & E0 & Hg0 & _).
  rewrite E0 in Ha. injection Ha as <-.
  assert (vec_get (adj_list_ g0) x = Returns []) as Hl.
  { destruct (Graph_new_Returns n d g0 E0) as [_ ->]. simpl.
    apply vec_get_Returns. split; [lia|]. apply lookup_replicate_2. lia. }
  exact (add_edges_adj_list_exact es g0 g x [] Hg0 H Hl).
Qed.

Lemma get_adj_list_records_calls_witness :
  vec_get (get_adj_list square_graph) 2 = Returns [(3, 4)].
Proof.
  apply (get_adj_list_records_calls 4 false
           [(0, 1, 5); (1, 2, 3); (0, 2, 1); (2, 3, 4)] square_graph 2).
  - exact square_graph_built.
  - lia.
Defined.

(** X5: [add_edge] keeps the vertex count, the directedness and the
    cached incidence matrix; it changes the entry [u][v] of the adjacency
    matrix (and [v][u] when the graph is undirected) and no other entry, and
    the adjacency list of [u] and no other list. *)
Theorem add_edge_frame (g g' : Graph) (u v w : Z) :
  wf_graph g -> add_edge g u v w = Returns g' ->
  vertices_ g' = vertices_ g /\ directed_ g' = directed_ g /\
  inc_matrix_ g' = inc_matrix_ g /\
  (forall a b, (a, b) <> (u, v) -> (directed_ g = true \/ (a, b) <> (v, u)) ->
     entry (get_adj_matrix g') a b = entry (get_adj_matrix g) a b) /\
  (forall x, x <> u -> vec_get (get_adj_list g') x = vec_get (get_adj_list g) x).
Proof.
  intros Hg E. destruct (add_edge_Returns g g' u v w Hg E) as [Hu Hv].
  destruct (add_edge_spec g u v w Hg Hu Hv)
    as (h & lu & E1 & Hh & HN & Hd & Hi & He & Elu & Hal & R).
  rewrite E1 in E. injection E as <-.
  split; [exact HN|]. split; [exact Hd|]. split; [exact Hi|]. split.
  - intros a b Hab Hba. unfold get_adj_matrix. rewrite R.
    destruct (decide _) as [[[-> ->]|(Hund & -> & ->)]|_]; [congruence| |reflexivity].
    destruct Hba as [Hba|Hba]; congruence.
  - intros x Hx. unfold get_adj_list. rewrite Hal. unfold vec_get.
    destruct (x <? 0) eqn:Hneg; [reflexivity|]. apply Z.ltb_ge in Hneg.
    unfold in_range in Hu. rewrite list_lookup_insert_ne by lia. reflexivity.
Qed.

Lemma add_edge_frame_witness :
  vertices_ twice_g1 = vertices_ empty2_directed /\
  directed_ twice_g1 = directed_ empty2_directed /\
  inc_matrix_ twice_g1 = inc_matrix_ empty2_directed /\
  (forall a b, (a, b) <> (0, 1) -> (directed_ empty2_directed = true \/ (a, b) <> (1, 0)) ->
     entry (get_adj_matrix twice_g1) a b = entry (get_adj_matrix empty2_directed) a b) /\
  (forall x, x <> 0 ->
     vec_get (get_adj_list twice_g1) x = vec_get (get_adj_list empty2_directed) x).
Proof.
  apply (add_edge_frame empty2_directed twice_g1 0 1 4).
  - exact (constructed_wf _ _ _ _ empty2_directed_built).
  - reflexivity.
Defined.

(** * Further properties of the searches *)

(** X6: when the source is the target, both searches return the sequence
    of that single vertex. *)
Theorem search_source_is_target (g : Graph) (s : Z) (fuel : nat) :
  wf_graph g -> in_range g s -> (Z.to_nat (vertices_ g) < fuel)%nat ->
  bfs_shortest_path fuel g s s = Returns [s] /\
  dfs_shortest_path fuel g s s = Returns [s].
Proof.
  intros Hg Hs Hf. split.
  - destruct (bfs_search g s s fuel Hg Hs Hf) as (st & E & (d & L & HT & _) & _).
    destruct (reconstruct_spec g s st d s fuel HT Hs Hf) as (path & Ep & _ & Hyes).
    destruct (Hyes (ti_source_visited _ _ _ _ HT)) as [Hlen Hpath].
    rewrite (ti_source_depth _ _ _ _ HT) in Hlen.
    destruct (is_path_single g s s path Hpath Hlen) as [_ ->].
    rewrite E. exact Ep.
  - destruct (dfs_search g s s fuel Hg Hs Hf) as (st & E & (d & HT & _) & _).
    destruct (reconstruct_spec g s st d s fuel HT Hs Hf) as (path & Ep & _ & Hyes).
    destruct (Hyes (ti_source_visited _ _ _ _ HT)) as [Hlen Hpath].
    rewrite (ti_source_depth _ _ _ _ HT) in Hlen.
    destruct (is_path_single g s s path Hpath Hlen) as [_ ->].
    rewrite E. exact Ep.
Qed.

Lemma search_source_is_target_witness :
  bfs_shortest_path 6 pentagon_graph 3 3 = Returns [3] /\
  dfs_shortest_path 6 pentagon_graph 3 3 = Returns [3].
Proof.
  apply (search_source_is_target pentagon_graph 3 6).
  - exact (constructed_wf _ _ _ _ pentagon_graph_built).
  - unfold in_range. simpl. lia.
  - simpl. lia.
Defined.

(** X7: the sequence either search returns repeats no vertex, holds
    vertices of the graph only, and has at most as many elements as the
    graph has vertices. *)
Theorem search_paths_simple (g : Graph) (s t : Z) (fuel : nat) :
  wf_graph g -> in_range g s -> in_range g t ->
  (Z.to_nat (vertices_ g) < fuel)%nat ->
  exists pb pd,
    bfs_shortest_path fuel g s t = Returns pb /\
    dfs_shortest_path fuel g s t = Returns pd /\
    NoDup pb /\ NoDup pd /\
    Forall (in_range g) pb /\ Forall (in_range g) pd /\
    (length pb <= Z.to_nat (vertices_ g))%nat /\
    (length pd <= Z.to_nat (vertices_ g))%nat.
Proof.
  intros Hg Hs Ht Hf.
  destruct (bfs_search g s t fuel Hg Hs Hf) as (stb & Eb & (db & L & HTb & _) & _).
  destruct (reconstruct_simple g s stb db t fuel HTb Ht Hf) as (pb & Epb & Hb1 & Hb2 & Hb3).
  destruct (dfs_search g s t fuel Hg Hs Hf) as (std & Ed & (dd & HTd & _) & _).
  destruct (reconstruct_simple g s std dd t fuel HTd Ht Hf) as (pd & Epd & Hd1 & Hd2 & Hd3).
  exists pb, pd. rewrite Eb, Ed. repeat split; assumption.
Qed.

Lemma search_paths_simple_witness :
  exists pb pd,
    bfs_shortest_path 6 pentagon_graph 0 4 = Returns pb /\
    dfs_shortest_path 6 pentagon_graph 0 4 = Returns pd /\
    NoDup pb /\ NoDup pd /\
    Forall (in_range pentagon_graph) pb /\ Forall (in_range pentagon_graph) pd /\
    (length pb <= Z.to_nat (vertices_ pentagon_graph))%nat /\
    (length pd <= Z.to_nat (vertices_ pentagon_graph))%nat.
Proof.
  apply (search_paths_simple pentagon_graph 0 4 6).
  - exact (constructed_wf _ _ _ _ pentagon_graph_built).
  - unfold in_range. simpl. lia.
  - unfold in_range. simpl. lia.
  - simpl. lia.
Defined.

(** X8: on the same graph, source and target, what BFS returns is never
    longer than what DFS returns, and one is empty exactly when the other
    is. *)
Theorem bfs_no_longer_than_dfs (g : Graph) (s t : Z) (fuel : nat) :
  wf_graph g -> in_range g s -> in_range g t ->
  (Z.to_nat (vertices_ g) < fuel)%nat ->
  exists pb pd,
    bfs_shortest_path fuel g s t = Returns pb /\
    dfs_shortest_path fuel g s t = Returns pd /\
    (length pb <= length pd)%nat /\ (pb = [] <-> pd = []).
Proof.
  intros Hg Hs Ht Hf.
  destruct (bfs_run g s t fuel Hg Hs Ht Hf) as (pb & Eb & Hbiff & Hbpath).
  destruct (dfs_run g s t fuel Hg Hs Ht Hf) as (pd & Ed & Hdiff & Hdpath).
  exists pb, pd. split; [exact Eb|]. split; [exact Ed|].
  destruct pd as [|y pd].
  - assert (pb = []) as ->.
    { destruct pb as [|x pb]; [reflexivity|]. exfalso.
      assert (reachable g s t) as Hr by (apply Hbiff; discriminate).
      apply Hdiff in Hr. congruence. }
    split; [lia | tauto].
  - assert (is_path g s t (y :: pd)) as Hp by (apply Hdpath; discriminate).
    assert (pb <> []) as Hne by (apply Hbiff; exists (y :: pd); exact Hp).
    destruct (Hbpath Hne) as [_ Hmin]. split; [exact (Hmin _ Hp)|].
    split; intros H; [contradiction | discriminate].
Qed.

Lemma bfs_no_longer_than_dfs_witness :
  exists pb pd,
    bfs_shortest_path 6 pentagon_graph 0 4 = Returns pb /\
    dfs_shortest_path 6 pentagon_graph 0 4 = Returns pd /\
    (length pb <= length pd)%nat /\ (pb = [] <-> pd = []).
Proof.
  apply (bfs_no_longer_than_dfs pentagon_graph 0 4 6).
  - exact (constructed_wf _ _ _ _ pentagon_graph_built).
  - unfold in_range. simpl. lia.
  - unfold in_range. simpl. lia.
  - simpl. lia.
Defined.

(** X9: on an undirected graph obtained from the constructor by
    [add_edge] calls, BFS from [s] to [t] and BFS from [t] to [s] return
    sequences of the same length (both empty when there is no path). *)
Theorem bfs_undirected_both_ways (n : Z) (es : list (Z * Z * Z)) (g : Graph)
    (s t : Z) (fuel : nat) :
  (let* g0 := Graph_new n false in add_edges g0 es) = Returns g ->
  0 <= s < n -> 0 <= t < n -> (Z.to_nat n < fuel)%nat ->
  exists p q,
    bfs_shortest_path fuel g s t = Returns p /\
    bfs_shortest_path fuel g t s = Returns q /\
    length p = length q.
Proof.
  intros H Hs Ht Hf.
  pose proof (constructed_wf n false es g H) as Hg.
  pose proof (constructed_vertices n false es g H) as HN.
  pose proof (constructed_symmetric n es g H) as Hsym.
  assert (in_range g s) as Hs' by (unfold in_range; lia).
  assert (in_range g t) as Ht' by (unfold in_range; lia).
  rewrite <- HN in Hf.
  destruct (bfs_run g s t fuel Hg Hs' Ht' Hf) as (p & Ep & Hpiff & Hppath).
  destruct (bfs_run g t s fuel Hg Ht' Hs' Hf) as (q & Eq & Hqiff & Hqpath).
  exists p, q. split; [exact Ep|]. split; [exact Eq|].
  destruct p as [|x p].
  - destruct q as [|y q]; [reflexivity|]. exfalso.
    assert (reachable g t s) as [r Hr] by (apply Hqiff; discriminate).
    assert (reachable g s t) as Hr' by (exists (rev r); exact (is_path_rev g t s r Hsym Hr)).
    apply Hpiff in Hr'. congruence.
  - destruct (Hppath ltac:(discriminate)) as [Hp Hpmin].
    pose proof (is_path_rev g s t _ Hsym Hp) as Hprev.
    assert (q <> []) as Hqne by (apply Hqiff; eexists; exact Hprev).
    destruct (Hqpath Hqne) as [Hq Hqmin].
    pose proof (is_path_rev g t s _ Hsym Hq) as Hqrev.
    specialize (Hpmin _ Hqrev). specialize (Hqmin _ Hprev).
    rewrite length_rev in Hpmin, Hqmin. lia.
Qed.

Lemma bfs_undirected_both_ways_witness :
  exists p q,
    bfs_shortest_path 5 square_graph 0 3 = Returns p /\
    bfs_shortest_path 5 square_graph 3 0 = Returns q /\
    length p = length q.
Proof.
  apply (bfs_undirected_both_ways 4 [(0, 1, 5); (1, 2, 3); (0, 2, 1); (2, 3, 4)]).
  - exact square_graph_built.
  - lia.
  - lia.
  - simpl. lia.
Defined.

(** X10: both searches read of the adjacency matrix only which entries
    are 0: on two graphs whose matrices have the same shape and zeros at the
    same places they have the same outcome, whatever the weights, the
    source, the target and the fuel. *)
Theorem searches_read_zero_pattern (g g' : Graph) (s t : Z) (fuel : nat) :
  same_pattern (get_adj_matrix g) (get_adj_matrix g') ->
  bfs_shortest_path fuel g s t = bfs_shortest_path fuel g' s t /\
  dfs_shortest_path fuel g s t = dfs_shortest_path fuel g' s t.
Proof.
  intros H. pose proof (Forall2_length _ _ _ H) as Hlen.
  unfold bfs_shortest_path, dfs_shortest_path. rewrite Hlen.
  unfold get_adj_matrix in H. split.
  - destruct (vec_new _ 0); simpl; [|reflexivity..].
    destruct (vec_new _ (-1)); simpl; [|reflexivity..].
    destruct (vec_set _ _ _); simpl; [|reflexivity..].
    rewrite (bfs_loop_pattern g g' _ fuel _ H). reflexivity.
  - destruct (vec_new _ 0); simpl; [|reflexivity..].
    destruct (vec_new _ (-1)); simpl; [|reflexivity..].
    destruct (vec_set _ _ _); simpl; [|reflexivity..].
    rewrite (dfs_loop_pattern g g' _ t fuel _ H). reflexivity.
Qed.

Lemma searches_read_zero_pattern_witness :
  bfs_shortest_path 5 square_graph 0 3 = bfs_shortest_path 5 square_graph_unit 0 3 /\
  dfs_shortest_path 5 square_graph 0 3 = dfs_shortest_path 5 square_graph_unit 0 3.
Proof.
  apply (searches_read_zero_pattern square_graph square_graph_unit 0 3 5).
  repeat constructor.
Defined.

(** X11: when the entry [source][target] of the adjacency matrix is not 0
    and the two vertices differ, both searches return the source followed
    by the target: DFS marks every neighbour of the source when it scans
    the row of the source, so it never takes a detour to one of them. *)
Theorem search_direct_edge (g : Graph) (s t : Z) (fuel : nat) :
  wf_graph g -> s <> t -> entry (get_adj_matrix g) s t <> 0 ->
  (Z.to_nat (vertices_ g) < fuel)%nat ->
  bfs_shortest_path fuel g s t = Returns [s; t] /\
  dfs_shortest_path fuel g s t = Returns [s; t].
Proof.
  intros Hg Hst He Hf. destruct (edge_in_range g s t Hg He) as [Hs Ht].
  split; [exact (bfs_direct_edge g s t fuel Hg Hst He Hf)|].
  exact (dfs_direct_edge g s t fuel Hg Hs Ht Hst He Hf).
Qed.

Lemma search_direct_edge_witness :
  bfs_shortest_path 6 pentagon_graph 3 4 = Returns [3; 4] /\
  dfs_shortest_path 6 pentagon_graph 3 4 = Returns [3; 4].
Proof.
  apply (search_direct_edge pentagon_graph 3 4 6).
  - exact (constructed_wf _ _ _ _ pentagon_graph_built).
  - discriminate.
  - discriminate.
  - simpl. lia.
Defined.

(** X12: after [add_edge(u, v, w)] with [u <> v] in range and [w <> 0],
    both searches from [u] to [v] return [u, v]; on an undirected graph the
    searches from [v] to [u] return [v, u] as well. *)
Theorem add_edge_then_search (g : Graph) (u v w : Z) (fuel : nat) :
  wf_graph g -> in_range g u -> in_range g v -> u <> v -> w <> 0 ->
  (Z.to_nat (vertices_ g) < fuel)%nat ->
  exists g',
    add_edge g u v w = Returns g' /\
    bfs_shortest_path fuel g' u v = Returns [u; v] /\
    dfs_shortest_path fuel g' u v = Returns [u; v] /\
    (directed_ g = false ->
       bfs_shortest_path fuel g' v u = Returns [v; u] /\
       dfs_shortest_path fuel g' v u = Returns [v; u]).
Proof.
  intros Hg Hu Hv Huv Hw Hf.
  destruct (add_edge_spec g u v w Hg Hu Hv)
    as (g' & lu & E & Hg' & HN & Hd & _ & _ & _ & _ & R).
  assert (in_range g' u /\ in_range g' v) as [Hu' Hv'].
  { unfold in_range in *. rewrite HN. auto. }
  rewrite <- HN in Hf.
  assert (edge g' u v) as Huv'.
  { unfold edge. rewrite R. destruct (decide _) as [_|Hn]; [exact Hw | tauto]. }
  exists g'. split; [exact E|].
  split; [exact (bfs_direct_edge g' u v fuel Hg' Huv Huv' Hf)|].
  split; [exact (dfs_direct_edge g' u v fuel Hg' Hu' Hv' Huv Huv' Hf)|].
  intros Hund.
  assert (edge g' v u) as Hvu'.
  { unfold edge. rewrite R. destruct (decide _) as [_|Hn]; [exact Hw | tauto]. }
  split; [exact (bfs_direct_edge g' v u fuel Hg' ltac:(congruence) Hvu' Hf)|].
  exact (dfs_direct_edge g' v u fuel Hg' Hv' Hu' ltac:(congruence) Hvu' Hf).
Qed.

Lemma add_edge_then_search_witness :
  exists g',
    add_edge scenario_graph 0 2 7 = Returns g' /\
    bfs_shortest_path 4 g' 0 2 = Returns [0; 2] /\
    dfs_shortest_path 4 g' 0 2 = Returns [0; 2] /\
    (directed_ scenario_graph = false ->
       bfs_shortest_path 4 g' 2 0 = Returns [2; 0] /\
       dfs_shortest_path 4 g' 2 0 = Returns [2; 0]).
Proof.
  apply (add_edge_then_search scenario_graph 0 2 7 4).
  - exact (constructed_wf _ _ _ _ scenario_graph_built).
  - unfold in_range. simpl. lia.
  - unfold in_range. simpl. lia.
  - discriminate.
  - discriminate.
  - simpl. lia.
Defined.

(** * Further properties of the generator *)

(** X13: every graph [generate_graph] returns (the values of [rand()]
    not being negative) has the number of vertices the code draws, the int
    [rand() % (max_vertices - min_vertices + 1) + min_vertices], is
    undirected with a symmetric matrix, and has exactly the number of edges
    the code draws, the int [rand() % (max_edges - min_edges + 1) + min_edges]
    (none when that number is not positive); no edge is a self-loop, no two
    edges join the same two vertices in either order, every weight is
    between 1 and 100, and the adjacency matrix is not 0 exactly at the
    pairs of the edge list and their opposites. *)
Theorem generate_graph_result (fuel : nat) (rand : nat -> Z)
    (min_vertices max_vertices min_edges max_edges max_edges_per_vertex : Z)
    (directed : bool) (max_incoming_edges max_outgoing_edges : Z) (g : Graph) :
  (forall k, 0 <= rand k) ->
  generate_graph fuel rand min_vertices max_vertices min_edges max_edges
    max_edges_per_vertex directed max_incoming_edges max_outgoing_edges = Returns g ->
  exists vertex_count edge_count,
    rand_between (rand 0%nat) min_vertices max_vertices = Returns vertex_count /\
    rand_between (rand 1%nat) min_edges max_edges = Returns edge_count /\
    0 <= vertex_count <= INT_MAX /\ edge_count <= INT_MAX /\
    vertices_ g = vertex_count /\
    directed_ g = false /\
    symmetric (get_adj_matrix g) /\
    Z.of_nat (length (get_edges g)) = Z.max 0 edge_count /\
    NoDup (get_edges g) /\
    (forall u v, (u, v) ∈ get_edges g ->
       u <> v /\ ((v, u) ∉ get_edges g) /\ 1 <= entry (get_adj_matrix g) u v <= 100) /\
    (forall a b, entry (get_adj_matrix g) a b <> 0 <->
       (a, b) ∈ get_edges g \/ (b, a) ∈ get_edges g).
Proof.
  intros Hrand H.
  destruct (generate_graph_simple _ _ _ _ _ _ _ _ _ _ _ Hrand H)
    as (nv & ne & Hnv & Hne & [Hwf Hd Hsym Hw He Hm Hnd Hnf] & HN & Hlen).
  exists nv, ne.
  pose proof (rand_between_Returns _ _ _ _ Hnv) as Rv.
  pose proof (rand_between_Returns _ _ _ _ Hne) as Re.
  pose proof (wf_vertices g Hwf) as Hpos.
  unfold get_adj_matrix, get_edges.
  split; [exact Hnv|]. split; [exact Hne|]. split; [lia|]. split; [lia|].
  split; [exact HN|]. split; [exact Hd|]. split; [exact Hsym|]. split; [exact Hlen|].
  split; [exact Hnd|]. split.
  - intros u v Huv. destruct (He u v Huv) as [Hne' Hent].
    split; [exact Hne'|]. split; [exact (Hnf u v Huv)|].
    specialize (Hw u v). lia.
  - intros a b. split; [apply Hm|].
    intros [Hab|Hba].
    + exact (proj2 (He a b Hab)).
    + rewrite Hsym. exact (proj2 (He b a Hba)).
Qed.

Lemma generate_graph_result_witness :
  vertices_ generated_example = 3 /\
  directed_ generated_example = false /\
  Z.of_nat (length (get_edges generated_example)) = 2 /\
  NoDup (get_edges generated_example).
Proof.
  destruct (generate_graph_result 10 rand_both_ways 3 3 2 2 5 true 5 5 generated_example
              rand_both_ways_nonneg generated_example_run)
    as (nv & ne & Hnv & Hne & _ & _ & HN & Hd & _ & Hlen & Hnd & _).
  injection Hnv as <-. injection Hne as <-.
  split; [exact HN|]. split; [exact Hd|]. split; [exact Hlen | exact Hnd].
Defined.

(** X14: in every graph [generate_graph] returns when called with
    [directed = true], the number of edges [(u, v)] placed with [v = x] is at
    most [max_incoming_edges] and the number with [u = x] at most
    [max_outgoing_edges], for every vertex [x] (no edge is placed under a
    cap that is not positive). *)
Theorem generate_graph_degree_caps (fuel : nat) (rand : nat -> Z)
    (min_vertices max_vertices min_edges max_edges max_edges_per_vertex : Z)
    (max_incoming_edges max_outgoing_edges : Z) (g : Graph) (x : Z) :
  generate_graph fuel rand min_vertices max_vertices min_edges max_edges
    max_edges_per_vertex true max_incoming_edges max_outgoing_edges = Returns g ->
  count_in x (get_edges g) <= Z.max 0 max_incoming_edges /\
  count_out x (get_edges g) <= Z.max 0 max_outgoing_edges.
Proof. intros H. exact (generate_graph_caps _ _ _ _ _ _ _ _ _ _ H x). Qed.

Lemma generate_graph_degree_caps_witness :
  count_in 1 (get_edges generated_example) <= Z.max 0 5 /\
  count_out 1 (get_edges generated_example) <= Z.max 0 5.
Proof.
  exact (generate_graph_degree_caps 10 rand_both_ways 3 3 2 2 5 5 5 generated_example 1
           generated_example_run).
Defined.

(** X15: when the number of edges drawn, the int
    [rand() % (max_edges - min_edges + 1) + min_edges], is not positive the
    loop is not entered: [generate_graph] has the outcome of the constructor
    for the number of vertices drawn, a graph without edges or the exception
    of a negative size. *)
Theorem generate_graph_no_edge_requested (fuel : nat) (rand : nat -> Z)
    (min_vertices max_vertices min_edges max_edges max_edges_per_vertex : Z)
    (directed : bool) (max_incoming_edges max_outgoing_edges : Z)
    (vertex_count edge_count : Z) :
  rand_between (rand 0%nat) min_vertices max_vertices = Returns vertex_count ->
  rand_between (rand 1%nat) min_edges max_edges = Returns edge_count ->
  edge_count <= 0 ->
  generate_graph (S fuel) rand min_vertices max_vertices min_edges max_edges
    max_edges_per_vertex directed max_incoming_edges max_outgoing_edges
  = Graph_new vertex_count false.
Proof.
  intros Hv He HE.
  destruct (Z.ltb_spec vertex_count 0) as [HN|HN].
  - unfold generate_graph. rewrite Hv. cbn [bind].
    rewrite Graph_new_negative by exact HN. reflexivity.
  - rewrite (generate_graph_drawn _ _ _ _ _ _ _ _ _ _ _ _ Hv He HN).
    destruct (Graph_new_spec vertex_count false HN) as (g & Eg & _). rewrite Eg.
    cbn [bind gen_loop num_edges].
    destruct (Z.ltb_spec 0 edge_count); [lia | reflexivity].
Qed.

Lemma generate_graph_no_edge_requested_witness :
  generate_graph 1 (fun k => Z.of_nat k) 3 3 2147483647 2147483637 1 false 1 1
  = Graph_new 3 false.
Proof.
  apply (generate_graph_no_edge_requested 0 (fun k => Z.of_nat k) 3 3
           2147483647 2147483637 1 false 1 1 3 (-2147483648)).
  - reflexivity.
  - vm_compute. reflexivity.
  - lia.
Defined.

(** X16: when the number of vertices drawn is not positive and the number
    of edges drawn is positive (both as the ints the code computes),
    [generate_graph] does not return: a negative number of vertices makes
    the constructor throw, and with 0 vertices the first iteration computes
    [rand() % 0]. *)
Theorem generate_graph_no_vertex (fuel : nat) (rand : nat -> Z)
    (min_vertices max_vertices min_edges max_edges max_edges_per_vertex : Z)
    (directed : bool) (max_incoming_edges max_outgoing_edges : Z)
    (vertex_count edge_count : Z) :
  rand_between (rand 0%nat) min_vertices max_vertices = Returns vertex_count ->
  rand_between (rand 1%nat) min_edges max_edges = Returns edge_count ->
  vertex_count <= 0 -> 0 < edge_count ->
  generate_graph (S fuel) rand min_vertices max_vertices min_edges max_edges
    max_edges_per_vertex directed max_incoming_edges max_outgoing_edges
  = (if (vertex_count <? 0) then Throws LengthError else Undefined).
Proof.
  intros Hv He HN HE.
  destruct (Z.ltb_spec vertex_count 0) as [HN'|HN'].
  - unfold generate_graph. rewrite Hv. cbn [bind].
    rewrite Graph_new_negative by exact HN'. reflexivity.
  - rewrite (generate_graph_drawn _ _ _ _ _ _ _ _ _ _ _ _ Hv He HN').
    assert (vertex_count = 0) as -> by lia.
    cbn [bind gen_loop num_edges Graph_new vec_new Z.ltb Z.compare].
    destruct (Z.ltb_spec 0 edge_count); [reflexivity | lia].
Qed.

Lemma generate_graph_no_vertex_witness :
  generate_graph 1 rand_example 0 0 2 2 1 false 1 1 = Undefined.
Proof.
  apply (generate_graph_no_vertex 0 rand_example 0 0 2 2 1 false 1 1 0 2).
  - reflexivity.
  - reflexivity.
  - lia.
  - lia.
Defined.

(** X17: called with [directed = true] and a cap [max_incoming_edges] or
    [max_outgoing_edges] that is not positive, when the numbers of vertices
    and of edges it draws (the ints the code computes) are both at least 1,
    [generate_graph] rejects every pair and its loop never ends, whatever
    values [rand()] returns. *)
Theorem generate_graph_caps_too_tight (rand : nat -> Z)
    (min_vertices max_vertices min_edges max_edges max_edges_per_vertex : Z)
    (max_incoming_edges max_outgoing_edges : Z) (vertex_count edge_count : Z) :
  (forall k, 0 <= rand k) ->
  rand_between (rand 0%nat) min_vertices max_vertices = Returns vertex_count ->
  rand_between (rand 1%nat) min_edges max_edges = Returns edge_count ->
  1 <= vertex_count -> 0 < edge_count ->
  max_incoming_edges <= 0 \/ max_outgoing_edges <= 0 ->
  diverges (fun fuel =>
    generate_graph fuel rand min_vertices max_vertices min_edges max_edges
      max_edges_per_vertex true max_incoming_edges max_outgoing_edges).
Proof.
  intros Hrand Hv He HN HE Hcap fuel.
  rewrite (generate_graph_drawn _ _ _ _ _ _ _ _ _ _ _ _ Hv He) by lia.
  destruct (Graph_new_spec vertex_count false ltac:(lia)) as (g & Eg & Hwf & Hvert & _).
  rewrite Eg. cbn [bind].
  rewrite (gen_loop_stuck rand _ _ vertex_count fuel _ Hrand HN Hcap); [reflexivity|].
  constructor; simpl; try assumption; try (rewrite length_replicate; lia).
  - intros x. rewrite rd_replicate. destruct (decide _); lia.
  - intros x. rewrite rd_replicate. destruct (decide _); lia.
Qed.

Lemma generate_graph_caps_too_tight_witness :
  diverges (fun fuel => generate_graph fuel rand_example 3 1 1 1 5 true 0 5).
Proof.
  apply (generate_graph_caps_too_tight rand_example 3 1 1 1 5 0 5 3 1).
  - exact rand_example_nonneg.
  - reflexivity.
  - reflexivity.
  - lia.
  - lia.
  - left. lia.
Defined.

(** * The print functions *)

(** X18: on a graph obtained from the constructor by [add_edge] calls
    the three print functions return: none of them reads or writes a vector
    out of bounds.  For [print_inc_matrix], whose local matrix has a row per
    recorded edge and takes a row per non-zero entry right of the diagonal,
    this holds because [add_edge] makes at most one such entry non-zero. *)
Theorem print_functions_in_bounds (n : Z) (d : bool) (es : list (Z * Z * Z)) (g : Graph) :
  (let* g0 := Graph_new n d in add_edges g0 es) = Returns g ->
  (exists text, print_adj_matrix g = Returns text) /\
  (exists text, print_adj_list g = Returns text) /\
  (exists inc, print_inc_scan g = Returns inc /\
     shape (Z.of_nat (length es)) n inc) /\
  (exists text, print_inc_matrix g = Returns text).
Proof.
  intros H. pose proof (constructed_wf n d es g H) as Hg.
  pose proof (constructed_upper n d es g H) as Hup.
  pose proof (constructed_vertices n d es g H) as HN.
  destruct (print_adj_returns g Hg) as [H1 H2].
  split; [exact H1|]. split; [exact H2|]. split.
  - destruct (print_inc_scan_returns g _ Hg Hup eq_refl) as (inc & Einc & Hsh).
    exists inc. split; [exact Einc|].
    assert (length (edges_ g) = length es) as <-; [|rewrite <- HN; exact Hsh].
    bind_inv H. destruct (Graph_new_Returns n d a Ha) as [Hn Ea].
    destruct (Graph_new_spec n d Hn) as (g0 & E0 & Hg0 & _ & _ & He0 & _).
    rewrite E0 in Ha. injection Ha as <-.
    rewrite (add_edges_edges es g0 g Hg0 H), He0. simpl. apply length_map.
  - exact (print_inc_matrix_returns g Hg Hup).
Qed.

Lemma print_functions_in_bounds_witness :
  (exists text, print_adj_matrix twice_g3 = Returns text) /\
  (exists text, print_adj_list twice_g3 = Returns text) /\
  (exists inc, print_inc_scan twice_g3 = Returns inc /\ shape 3 2 inc) /\
  (exists text, print_inc_matrix twice_g3 = Returns text).
Proof.
  exact (print_functions_in_bounds 2 true [(0, 1, 4); (1, 0, 3); (0, 1, 9)] twice_g3 eq_refl).
Defined.

(** X19: [print_inc_matrix] reads the adjacency matrix right of the
    diagonal only: two graphs with the same number of vertices, the same
    number of recorded edges and the same entries [i][j] for [i < j] print
    the same text.  So a self-loop, and an edge [u -> v] with [u > v] of a
    directed graph, never show. *)
Theorem print_inc_matrix_reads_upper (g g' : Graph) :
  wf_graph g -> wf_graph g' -> vertices_ g' = vertices_ g ->
  length (get_edges g') = length (get_edges g) ->
  (forall i j, 0 <= i -> i < j -> j < vertices_ g ->
     entry (get_adj_matrix g') i j = entry (get_adj_matrix g) i j) ->
  print_inc_matrix g' = print_inc_matrix g.
Proof. exact (print_inc_matrix_upper g g'). Qed.

Lemma print_inc_matrix_reads_upper_witness :
  print_inc_matrix loops_graph = print_inc_matrix backward_graph.
Proof.
  apply (print_inc_matrix_reads_upper backward_graph loops_graph).
  - exact (constructed_wf _ _ _ _ backward_graph_built).
  - exact (constructed_wf _ _ _ _ loops_graph_built).
  - reflexivity.
  - reflexivity.
  - intros i j Hi Hij Hj. simpl in Hj.
    assert (i = 0 \/ i = 1) as [-> | ->] by lia;
      assert (j = 1 \/ j = 2) as [-> | ->] by lia; reflexivity || lia.
Defined.

(** X20: [print_adj_matrix] reads of an entry only whether it is greater
    than 0: two graphs with the same number of vertices whose entries are
    positive at the same places print the same text.  So an edge of negative
    weight prints as no edge. *)
Theorem print_adj_matrix_reads_sign (g g' : Graph) :
  wf_graph g -> wf_graph g' -> vertices_ g' = vertices_ g ->
  (forall i j, 0 <= i < vertices_ g -> 0 <= j < vertices_ g ->
     (0 <? entry (get_adj_matrix g') i j) = (0 <? entry (get_adj_matrix g) i j)) ->
  print_adj_matrix g' = print_adj_matrix g.
Proof. exact (print_adj_matrix_sign g g'). Qed.

Lemma print_adj_matrix_reads_sign_witness :
  print_adj_matrix square_graph_negative = print_adj_matrix square_graph_less.
Proof.
  apply (print_adj_matrix_reads_sign square_graph_less square_graph_negative).
  - exact (constructed_wf _ _ _ _ square_graph_less_built).
  - exact (constructed_wf _ _ _ _ square_graph_negative_built).
  - reflexivity.
  - intros i j Hi Hj. simpl in Hi, Hj.
    assert (i = 0 \/ i = 1 \/ i = 2 \/ i = 3) as [-> | [-> | [-> | ->]]] by lia;
      assert (j = 0 \/ j = 1 \/ j = 2 \/ j = 3) as [-> | [-> | [-> | ->]]] by lia;
      reflexivity.
Defined.

(** * The cache of the incidence matrix *)

(** X21: [get_inc_matrix] changes nothing of a graph but the cache
    [inc_matrix_], where it leaves the matrix it returns; called again at
    once it returns the same matrix and leaves the graph as it is. *)
Theorem get_inc_matrix_only_caches (g g' : Graph) (m : list (list Z)) :
  wf_graph g -> get_inc_matrix g = Returns (g', m) ->
  vertices_ g' = vertices_ g /\ directed_ g' = directed_ g /\
  get_adj_matrix g' = get_adj_matrix g /\ get_adj_list g' = get_adj_list g /\
  get_edges g' = get_edges g /\ inc_matrix_ g' = m /\
  get_inc_matrix g' = Returns (g', m).
Proof.
  intros Hg E. unfold get_adj_matrix, get_adj_list, get_edges.
  destruct (inc_matrix_ g) as [|row rest] eqn:Hm.
  - destruct (get_inc_matrix_first g Hg Hm) as (m' & E' & [Hlen Hrows] & _).
    rewrite E' in E. injection E as <- <-. simpl. repeat split.
    destruct m' as [|row m'].
    + pose proof (wf_graph_inc g [] Hg) as Hg'.
      destruct (get_inc_matrix_first _ Hg' eq_refl) as (m'' & E'' & [Hlen'' _] & _).
      simpl in *. rewrite E''. destruct m'' as [|? ?]; [reflexivity|]. simpl in *. lia.
    + reflexivity.
  - unfold get_inc_matrix in E. rewrite Hm in E. injection E as <- <-.
    repeat split; [exact Hm|]. unfold get_inc_matrix. rewrite Hm. reflexivity.
Qed.

Lemma get_inc_matrix_only_caches_witness :
  vertices_ scenario_cached = vertices_ scenario_graph /\
  directed_ scenario_cached = directed_ scenario_graph /\
  get_adj_matrix scenario_cached = get_adj_matrix scenario_graph /\
  get_adj_list scenario_cached = get_adj_list scenario_graph /\
  get_edges scenario_cached = get_edges scenario_graph /\
  inc_matrix_ scenario_cached = [[2; 0]; [2; 3]; [0; 3]] /\
  get_inc_matrix scenario_cached = Returns (scenario_cached, [[2; 0]; [2; 3]; [0; 3]]).
Proof.
  apply (get_inc_matrix_only_caches scenario_graph scenario_cached).
  - exact (constructed_wf _ _ _ _ scenario_graph_built).
  - reflexivity.
Defined.
